(** * Lyrics prosody analyzer: rhyme keys, rhyme classification, syllable
      counting and stanza grouping

    Shallow embedding of [rhyme-utils.ts] and [lyrics-parser.ts].

    Strings.  A JavaScript string is a sequence of UTF-16 code units.  The
    text handled here is modelled by [string], each [ascii] standing for the
    code unit of the same number (the Latin-1 range, U+0000 to U+00FF).  That
    range holds every character the source names: the ASCII letters, digits
    and punctuation and the ten accented vowels of the syllable counter.
    Rhyme-group labels are produced by [String.fromCharCode] and may leave
    that range, so a label is kept as a 16-bit code unit in [N].

    Object literals.  The lookup tables of the source are object literals, so
    a read [table[key]] also sees the properties every object inherits from
    [Object.prototype].  [get_prop] models that read. *)

From Stdlib Require Import Bool Arith NArith ZArith Lia List Ascii String.
Import ListNotations.

Local Open Scope string_scope.
Local Open Scope bool_scope.

(* ================================================================= *)
(** ** Characters *)

Definition code (c : ascii) : nat := nat_of_ascii c.

Definition in_range (lo hi : nat) (c : ascii) : bool :=
  (lo <=? code c)%nat && (code c <=? hi)%nat.

Definition is_one_of (cs : string) (c : ascii) : bool :=
  existsb (Ascii.eqb c) (list_ascii_of_string cs).

(** The accented vowels à è ì ò ù á é í ó ú, in the order of the source. *)
Definition accented_vowels : string :=
  string_of_list_ascii
    (map ascii_of_nat [224; 232; 236; 242; 249; 225; 233; 237; 243; 250]).

(** [\w] of a regular expression without flags: [[A-Za-z0-9_]]. *)
Definition is_word_char (c : ascii) : bool :=
  in_range 65 90 c || in_range 97 122 c || in_range 48 57 c
  || (code c =? 95)%nat.

(** [\s] and the characters removed by [trim]: TAB, LF, VT, FF, CR, SPACE and
    NO-BREAK SPACE are the ones below U+0100. *)
Definition is_space (c : ascii) : bool :=
  in_range 9 13 c || (code c =? 32)%nat || (code c =? 160)%nat.

(** [[a-z]] *)
Definition is_az (c : ascii) : bool := in_range 97 122 c.

(** [[aeiou]] *)
Definition is_aeiou (c : ascii) : bool := is_one_of "aeiou" c.

(** [[bcdfghjklmnpqrstvwxyz]] *)
Definition is_consonant_y (c : ascii) : bool :=
  is_one_of "bcdfghjklmnpqrstvwxyz" c.

(** [[bcdfghjklmnpqrstvwxz]] (no [y]) *)
Definition is_consonant_no_y (c : ascii) : bool :=
  is_one_of "bcdfghjklmnpqrstvwxz" c.

(** [toLowerCase] on one code unit below U+0100: A-Z and the capital letters
    U+00C0 to U+00DE (U+00D7, the multiplication sign, excepted) move up by
    32; every other code unit is kept. *)
Definition lower_char (c : ascii) : ascii :=
  if in_range 65 90 c || (in_range 192 222 c && negb (code c =? 215)%nat)
  then ascii_of_nat (code c + 32)
  else c.

(* ================================================================= *)
(** ** Strings *)

Fixpoint str_map (f : ascii -> ascii) (s : string) : string :=
  match s with
  | EmptyString => EmptyString
  | String c r => String (f c) (str_map f r)
  end.

Fixpoint str_filter (p : ascii -> bool) (s : string) : string :=
  match s with
  | EmptyString => EmptyString
  | String c r => if p c then String c (str_filter p r) else str_filter p r
  end.

Definition toLowerCase (s : string) : string := str_map lower_char s.

(** [s.slice(-n)]: the last [n] characters, the whole string when it is
    shorter. *)
Definition slice_last (n : nat) (s : string) : string :=
  substring (length s - n) n s.

(** [s.endsWith(suf)], also the test of a regular expression [/suf$/] whose
    body is a literal. *)
Definition endsWith (s suf : string) : bool :=
  (length suf <=? length s)%nat && (slice_last (length suf) s =? suf).

(** [s.includes(sub)] *)
Fixpoint includes (s sub : string) : bool :=
  prefix sub s ||
  match s with
  | EmptyString => false
  | String _ r => includes r sub
  end.

(** [s[i]]; [None] is [undefined]. *)
Definition char_at (i : nat) (s : string) : option ascii := get i s.

Fixpoint drop_spaces (s : string) : string :=
  match s with
  | EmptyString => EmptyString
  | String c r => if is_space c then drop_spaces r else s
  end.

Fixpoint str_rev_onto (s acc : string) : string :=
  match s with
  | EmptyString => acc
  | String c r => str_rev_onto r (String c acc)
  end.

Definition str_rev (s : string) : string := str_rev_onto s "".

(** [s.trim()] *)
Definition trim (s : string) : string :=
  str_rev (drop_spaces (str_rev (drop_spaces s))).

(** [s.split(/\s+/)]: the pieces between maximal runs of white space; a run
    at either end leaves an empty piece there, and the empty string gives one
    empty piece.  [cur] is the piece being read, reversed; [in_run] tells
    that the previous character was white space. *)
Fixpoint split_ws_from (s : string) (cur : string) (in_run : bool)
  : list string :=
  match s with
  | EmptyString => [str_rev cur]
  | String c r =>
      if is_space c then
        if in_run then split_ws_from r cur true
        else str_rev cur :: split_ws_from r "" true
      else split_ws_from r (String c cur) false
  end.

Definition split_ws (s : string) : list string := split_ws_from s "" false.

(** [s.split('\n')] *)
Fixpoint split_nl_from (s : string) (cur : string) : list string :=
  match s with
  | EmptyString => [str_rev cur]
  | String c r =>
      if (code c =? 10)%nat then str_rev cur :: split_nl_from r ""
      else split_nl_from r (String c cur)
  end.

Definition split_nl (s : string) : list string := split_nl_from s "".

(* ================================================================= *)
(** ** Values, property reads and exceptions *)

(** The names of the properties of [Object.prototype].  Each holds a
    function, [__proto__] reads as [Object.prototype] itself: all of them are
    truthy and none is a string, a number or an array. *)
Definition object_prototype_names : list string :=
  [ "constructor"; "__defineGetter__"; "__defineSetter__"; "hasOwnProperty";
    "__lookupGetter__"; "__lookupSetter__"; "isPrototypeOf";
    "propertyIsEnumerable"; "toString"; "valueOf"; "__proto__";
    "toLocaleString" ].

Definition str_mem (k : string) (l : list string) : bool :=
  existsb (String.eqb k) l.

(** What a table read can return at run time: a value of the declared type,
    or the object inherited under the given name. *)
Inductive jsval (A : Type) : Type :=
| Val (a : A)
| Builtin (name : string).
Arguments Val {A} a.
Arguments Builtin {A} name.

Fixpoint assoc {A : Type} (k : string) (tbl : list (string * A)) : option A :=
  match tbl with
  | [] => None
  | (k', a) :: rest => if k =? k' then Some a else assoc k rest
  end.

(** [tbl[k]] for an object literal [tbl]; [None] is [undefined]. *)
Definition get_prop {A : Type} (tbl : list (string * A)) (k : string)
  : option (jsval A) :=
  match assoc k tbl with
  | Some a => Some (Val a)
  | None => if str_mem k object_prototype_names then Some (Builtin k) else None
  end.

(** A statement either completes with a value or throws a [TypeError]
    (a method call on a value that has no such method). *)
Inductive outcome (A : Type) : Type :=
| Ok (a : A)
| TypeError.
Arguments Ok {A} a.
Arguments TypeError {A}.

Definition bind {A B : Type} (m : outcome A) (k : A -> outcome B) : outcome B :=
  match m with
  | Ok a => k a
  | TypeError => TypeError
  end.

Notation "x <- m ;; k" := (bind m (fun x => k))
  (at level 61, m at next level, right associativity).

(* ================================================================= *)
(** ** Rhyme keys: [extractRhymingSyllable] *)

Definition key := jsval string.

Definition key_eqb (a b : key) : bool :=
  match a, b with
  | Val s, Val t => s =? t
  | Builtin m, Builtin n => m =? n
  | _, _ => false
  end.

(** [!k] is false for every non-empty string and for every object. *)
Definition falsy (k : key) : bool :=
  match k with
  | Val s => s =? ""
  | Builtin _ => false
  end.

Definition rhyme_specialCases : list (string * string) :=
  [ ("star", "ar"); ("are", "ar"); ("car", "ar"); ("far", "ar"); ("bar", "ar");
    ("high", "igh"); ("sky", "igh"); ("my", "igh"); ("fly", "igh");
    ("by", "igh"); ("try", "igh"); ("cry", "igh"); ("die", "igh");
    ("tie", "igh"); ("pie", "igh"); ("lie", "igh"); ("i", "igh");
    ("why", "igh"); ("guy", "igh"); ("buy", "igh"); ("dry", "igh");
    ("eye", "igh"); ("spy", "igh"); ("shy", "igh"); ("topic", "ic");
    ("milwaukee", "kee");
    ("filtro", "tro"); ("dipinto", "nto"); ("amico", "ico");
    ("sparito", "ito"); ("zion", "on"); ("sole", "ole"); ("sali", "ali") ].

Definition patterns : list string :=
  [ "ing"; "tion"; "ness"; "ful"; "less"; "ly"; "ed"; "er"; "est"; "ize";
    "ise"; "ous"; "able"; "ible"; "ight"; "ar"; "igh" ].

(** [/[aeiou][bcdfghjklmnpqrstvwxyz]$/.test(s)] *)
Definition vowel_consonant_end (s : string) : bool :=
  match list_ascii_of_string (slice_last 2 s) with
  | [a; b] => is_aeiou a && is_consonant_y b
  | _ => false
  end.

Definition extractRhymingSyllable (word : string) : key :=
  if word =? "" then Val ""
  else
    let cleanWord := str_filter is_word_char (toLowerCase word) in
    match get_prop rhyme_specialCases cleanWord with
    | Some (Val k) => Val k          (* every entry is a non-empty string *)
    | Some (Builtin n) => Builtin n  (* an inherited object is truthy *)
    | None =>
        match find (endsWith cleanWord) patterns with
        | Some suffix => Val suffix
        | None =>
            if (3 <=? length cleanWord)%nat then
              let lastThree := slice_last 3 cleanWord in
              let lastTwo := slice_last 2 cleanWord in
              if vowel_consonant_end lastTwo then Val lastTwo
              else if (4 <=? length cleanWord)%nat then Val lastThree
                   else Val lastTwo
            else Val cleanWord
        end
    end.

(* ================================================================= *)
(** ** Rhyme classification *)

(** A value read from a table of arrays, [table[k] || dflt]: a table entry
    (an array is truthy), an inherited object, or the default. *)
Definition group_of (tbl : list (string * list string)) (syllable : key)
  (dflt : list key) : jsval (list key) :=
  match syllable with
  | Builtin _ => Val dflt   (* its property key is no name of any table *)
  | Val s =>
      match get_prop tbl s with
      | Some (Val l) => Val (map Val l)
      | Some (Builtin n) => Builtin n
      | None => Val dflt
      end
  end.

(** [g.includes(x)]; an inherited object has no such method. *)
Definition array_includes (g : jsval (list key)) (x : key) : outcome bool :=
  match g with
  | Val l => Ok (existsb (key_eqb x) l)
  | Builtin _ => TypeError
  end.

(** [l1.some(g1 => g2.includes(g1))] on the elements [l1] of an array. *)
Fixpoint some_included (l1 : list key) (g2 : jsval (list key)) : outcome bool :=
  match l1 with
  | [] => Ok false
  | g1 :: rest =>
      b <- array_includes g2 g1 ;;
      if b then Ok true else some_included rest g2
  end.

(** [g1.some(g1 => g2.includes(g1))] *)
Definition groups_intersect (g1 g2 : jsval (list key)) : outcome bool :=
  match g1 with
  | Val l1 => some_included l1 g2
  | Builtin _ => TypeError
  end.

Definition rhymeGroups_table : list (string * list string) :=
  [ ("ar", ["are"; "ar"]); ("are", ["ar"; "are"]);
    ("ay", ["ey"; "ay"; "ai"; "eigh"]); ("ey", ["ay"; "ey"; "ai"; "eigh"]);
    ("ai", ["ay"; "ey"; "ai"; "eigh"]); ("eigh", ["ay"; "ey"; "ai"; "eigh"]);
    ("igh", ["y"; "igh"; "ie"; "ky"; "i"]); ("y", ["igh"; "y"; "ie"; "ky"; "i"]);
    ("ie", ["igh"; "y"; "ie"; "ky"; "i"]); ("ky", ["igh"; "y"; "ie"; "ky"; "i"]);
    ("i", ["igh"; "y"; "ie"; "ky"; "i"]);
    ("ow", ["ou"; "ow"]); ("ou", ["ow"; "ou"]);
    ("ing", ["ing"]);
    ("tro", ["tro"; "nto"; "ato"; "eto"; "oto"]);
    ("nto", ["tro"; "nto"; "ato"; "eto"; "oto"]);
    ("ato", ["tro"; "nto"; "ato"; "eto"; "oto"]);
    ("eto", ["tro"; "nto"; "ato"; "eto"; "oto"]);
    ("oto", ["tro"; "nto"; "ato"; "eto"; "oto"]);
    ("ico", ["ico"; "ito"]); ("ito", ["ico"; "ito"]);
    ("ic", ["ic"; "kee"]); ("kee", ["ic"; "kee"]);
    ("ight", ["ite"; "ight"]); ("ite", ["ight"; "ite"]) ].

Definition vowelSimilarity : list (string * list string) :=
  [ ("o", ["o"; "ao"; "eo"; "io"]); ("ao", ["o"; "ao"; "eo"; "io"]);
    ("eo", ["o"; "ao"; "eo"; "io"]); ("io", ["o"; "ao"; "eo"; "io"]);
    ("i", ["i"; "ai"; "ei"]); ("ai", ["i"; "ai"; "ei"]);
    ("ei", ["i"; "ai"; "ei"]);
    ("e", ["e"; "ee"; "ie"]); ("ee", ["e"; "ee"; "ie"]);
    ("ie", ["e"; "ee"; "ie"]) ].

(** [syllable.replace(/[bcdfghjklmnpqrstvwxz]/g, '').toLowerCase()] *)
Definition getVowelPattern (syllable : key) : outcome string :=
  match syllable with
  | Val s => Ok (toLowerCase (str_filter (fun c => negb (is_consonant_no_y c)) s))
  | Builtin _ => TypeError
  end.

Definition checkAssonance (syllable1 syllable2 : key) : outcome bool :=
  vowels1 <- getVowelPattern syllable1 ;;
  vowels2 <- getVowelPattern syllable2 ;;
  if negb (vowels1 =? "") && negb (vowels2 =? "") then
    if vowels1 =? vowels2 then Ok true
    else
      let similar1 := group_of vowelSimilarity (Val vowels1) [Val vowels1] in
      array_includes similar1 (Val vowels2)
  else Ok false.

(** The broad test on two keys (the body of [wordsRhyme] after extraction). *)
Definition keysRhyme (syllable1 syllable2 : key) : outcome bool :=
  if falsy syllable1 || falsy syllable2 then Ok false
  else if key_eqb syllable1 syllable2 then Ok true
  else
    let group1 := group_of rhymeGroups_table syllable1 [syllable1] in
    let group2 := group_of rhymeGroups_table syllable2 [syllable2] in
    b <- groups_intersect group1 group2 ;;
    if b then Ok true else checkAssonance syllable1 syllable2.

Definition wordsRhyme (word1 word2 : string) : outcome bool :=
  keysRhyme (extractRhymingSyllable word1) (extractRhymingSyllable word2).

(** [getLastWord] *)
Definition getLastWord (line : string) : string :=
  last (split_ws (trim line)) "".

Definition perfectRhymeGroups : list (string * list string) :=
  [ ("ar", ["are"; "ar"]); ("are", ["ar"; "are"]);
    ("igh", ["y"; "igh"; "ie"; "ky"; "i"]); ("y", ["igh"; "y"; "ie"; "ky"; "i"]);
    ("ie", ["igh"; "y"; "ie"; "ky"; "i"]); ("ky", ["igh"; "y"; "ie"; "ky"; "i"]);
    ("i", ["igh"; "y"; "ie"; "ky"; "i"]);
    ("ow", ["ou"; "ow"]); ("ou", ["ow"; "ou"]);
    ("ing", ["ing"]);
    ("ight", ["ite"; "ight"]); ("ite", ["ight"; "ite"]) ].

Definition isPerfectRhyme (syllable1 syllable2 : key) : outcome bool :=
  if key_eqb syllable1 syllable2 then Ok true
  else
    let group1 := group_of perfectRhymeGroups syllable1 [syllable1] in
    let group2 := group_of perfectRhymeGroups syllable2 [syllable2] in
    groups_intersect group1 group2.

Definition assonanceGroups : list (string * list string) :=
  [ ("tro", ["nto"; "ato"; "eto"; "oto"]); ("nto", ["tro"; "ato"; "eto"; "oto"]);
    ("ato", ["tro"; "nto"; "eto"; "oto"]); ("eto", ["tro"; "nto"; "ato"; "oto"]);
    ("oto", ["tro"; "nto"; "ato"; "eto"]);
    ("ico", ["ito"]); ("ito", ["ico"]);
    ("ic", ["kee"]); ("kee", ["ic"]) ].

Definition isAssonance (syllable1 syllable2 : key) : outcome bool :=
  let group1 := group_of assonanceGroups syllable1 [] in
  let group2 := group_of assonanceGroups syllable2 [] in
  b <- array_includes group1 syllable2 ;;
  if b then Ok true else array_includes group2 syllable1.

(** The longest suffix of [s] whose characters all satisfy [p], read from the
    reversed string. *)
Fixpoint take_while (p : ascii -> bool) (s : string) : string :=
  match s with
  | EmptyString => EmptyString
  | String c r => if p c then String c (take_while p r) else EmptyString
  end.

(** [syllable.match(/[bcdfghjklmnpqrstvwxyz]+$/)], [''] without a match. *)
Definition getEndingConsonants (syllable : key) : outcome string :=
  match syllable with
  | Val s => Ok (str_rev (take_while is_consonant_y (str_rev s)))
  | Builtin _ => TypeError
  end.

Definition isConsonance (syllable1 syllable2 : key) : outcome bool :=
  consonants1 <- getEndingConsonants syllable1 ;;
  consonants2 <- getEndingConsonants syllable2 ;;
  Ok ((0 <? length consonants1)%nat && (consonants1 =? consonants2)).

Inductive relation : Set := rhyme | assonance | consonance | none.

Record RhymeAnalysis : Set := { rhymes : bool; type : relation }.

(** The typed classification of two keys (the body of [analyzeRhyme] after
    extraction). *)
Definition classifyKeys (syllable1 syllable2 : key) : outcome RhymeAnalysis :=
  if falsy syllable1 || falsy syllable2
  then Ok {| rhymes := false; type := none |}
  else
    p <- isPerfectRhyme syllable1 syllable2 ;;
    if p then Ok {| rhymes := true; type := rhyme |}
    else
      a <- isAssonance syllable1 syllable2 ;;
      if a then Ok {| rhymes := true; type := assonance |}
      else
        c <- isConsonance syllable1 syllable2 ;;
        if c then Ok {| rhymes := true; type := consonance |}
        else Ok {| rhymes := false; type := none |}.

Definition analyzeRhyme (word1 word2 : string) : outcome RhymeAnalysis :=
  classifyKeys (extractRhymingSyllable word1) (extractRhymingSyllable word2).

(* ================================================================= *)
(** ** Syllable counting *)

Local Open Scope Z_scope.

(** [isVowel(char)]: ['aeiouAEIOU'.includes(char)] for a one-character
    string. *)
Definition isVowel (char : ascii) : bool := is_one_of "aeiouAEIOU" char.

(** The string [vowels] of [countWordSyllables]. *)
Definition vowels : string := "aeiou" ++ accented_vowels.

Definition syllable_specialCases : list (string * Z) :=
  [ ("the", 1); ("a", 1); ("an", 1); ("and", 1); ("or", 1); ("but", 1);
    ("in", 1); ("on", 1); ("at", 1); ("to", 1); ("for", 1); ("of", 1);
    ("with", 1); ("by", 1); ("from", 1); ("up", 1); ("about", 2);
    ("into", 2); ("over", 2); ("after", 2); ("through", 1); ("during", 2);
    ("before", 2); ("under", 2); ("between", 2); ("among", 2);
    ("il", 1); ("la", 1); ("le", 1); ("lo", 1); ("gli", 1); ("i", 1);
    ("un", 1); ("una", 1); ("del", 1); ("della", 2); ("delle", 2);
    ("nel", 1); ("nella", 2); ("nelle", 2); ("con", 1); ("per", 1);
    ("che", 1); ("non", 1); ("pi" ++ String (ascii_of_nat 249) "", 1);
    ("sono", 2); ("quando", 2);
    ("come", 2); ("dove", 2); ("perch" ++ String (ascii_of_nat 233) "", 2);
    ("anche", 2);
    ("zion", 2); ("scritte", 2) ].

(** The words of the alternation in [englishPatterns], which is anchored at
    both ends. *)
Definition englishPatterns : list string :=
  [
    "the"; "are"; "here"; "there"; "where"; "more"; "before"; "while";
    "once"; "some"; "come"; "home"; "make"; "take"; "give"; "have"; "love";
    "move"; "dance"; "change"; "large"; "white"; "little"; "simple"; "whole";
    "style"; "smile"; "write"; "quite"; "close"; "chose"; "hope"; "note";
    "vote"; "place"; "face"; "space"; "race"; "nice"; "price"; "twice";
    "size"; "wise"; "rise"; "prize"; "lose"; "use"; "house"; "mouse";
    "course"; "nurse"; "horse"; "force"; "source"; "since"; "prince";
    "fence"; "dance"; "chance"; "france"; "sense"; "dense"; "tense";
    "intense"; "these"; "complete"; "compete"; "delete"; "concrete";
    "discrete"; "extreme"; "supreme"; "scene"; "theme"; "scheme"; "gene";
    "serene"; "obscene"; "machine"; "marine"; "routine"; "antine"; "antine";
    "genuine"; "combine"; "define"; "refine"; "decline"; "outline"; "online";
    "baseline"; "headline"; "sideline"; "timeline"; "pipeline"; "gasoline";
    "valentine"; "discipline"; "medicine"; "examine"; "determine"; "imagine";
    "engine"; "magazine"; "cuisine"; "vaccine"; "caffeine"; "nicotine";
    "routine"; "doctrine"; "fortune"; "torture"; "future"; "nature";
    "mature"; "picture"; "culture"; "capture"; "measure"; "pleasure";
    "treasure"; "pressure"; "exposure"; "closure"; "leisure"; "seizure";
    "failure"; "secure"; "pure"; "sure"; "cure"; "lure"; "endure"; "obscure";
    "procedure"; "literature"; "temperature"; "signature"; "adventure";
    "departure"; "furniture"; "agriculture"; "manufacture"; "architecture";
    "legislature"; "expenditure"; "miniature"; "caricature" ].

(** The loop over the characters of [cleanWord]; [prevChar] is
    [cleanWord[i - 1]]. *)
Fixpoint vowel_groups (s : string) (prevChar : option ascii)
  (previousWasVowel : bool) (syllableCount : Z) : Z :=
  match s with
  | EmptyString => syllableCount
  | String char rest =>
      let isVowel := is_one_of vowels char in
      let syllableCount' :=
        if isVowel && negb previousWasVowel then syllableCount + 1
        else if isVowel && previousWasVowel then
          if (match prevChar with
              | Some p =>
                  (Ascii.eqb p "i" && is_one_of "aeo" char)
                  || (Ascii.eqb p "u" && is_one_of "aei" char)
                  || (Ascii.eqb p "a" && Ascii.eqb char "i")
                  || (Ascii.eqb p "e" && Ascii.eqb char "i")
                  || (Ascii.eqb p "o" && Ascii.eqb char "i")
              | None => false
              end)
          then syllableCount + 1
          else syllableCount
        else syllableCount in
      vowel_groups rest (Some char) isVowel syllableCount'
  end.

Definition countWordSyllables (word : string) : jsval Z :=
  if (word =? "")%string then Val 0
  else
    let cleanWord := str_filter is_az (toLowerCase word) in
    if (cleanWord =? "")%string then Val 0
    else
      match get_prop syllable_specialCases cleanWord with
      | Some (Val n) => Val n          (* every entry is 1 or 2 *)
      | Some (Builtin b) => Builtin b  (* an inherited object is truthy *)
      | None =>
          let syllableCount := vowel_groups cleanWord None false 0 in
          (* silent 'e' at the end *)
          let syllableCount :=
            if endsWith cleanWord "e" && (1 <? syllableCount) then
              match
                (if (2 <=? length cleanWord)%nat
                 then char_at (length cleanWord - 2) cleanWord else None)
              with
              | Some beforeE =>
                  if negb (is_one_of vowels beforeE)
                     && str_mem cleanWord englishPatterns
                  then syllableCount - 1
                  else syllableCount
              | None => syllableCount
              end
            else syllableCount in
          (* common endings *)
          let syllableCount :=
            if endsWith cleanWord "ed" && (1 <? syllableCount) then
              match
                (if (3 <=? length cleanWord)%nat
                 then char_at (length cleanWord - 3) cleanWord else None)
              with
              | Some beforeEd =>
                  if negb (Ascii.eqb beforeEd "t") && negb (Ascii.eqb beforeEd "d")
                  then syllableCount - 1
                  else syllableCount
              | None => syllableCount - 1  (* undefined differs from both *)
              end
            else syllableCount in
          (* 'qu' and 'gu' *)
          let syllableCount :=
            if includes cleanWord "qu" || includes cleanWord "gu"
            then Z.max 1 syllableCount
            else syllableCount in
          Val (Z.max 1 syllableCount)
      end.

(** [[\w'àèìòùáéíóú]] *)
Definition is_word_apos_accent (c : ascii) : bool :=
  is_word_char c || (code c =? 39)%nat || is_one_of accented_vowels c.

(** [/^(l|d|c|n|s|qu|bell)['']/] *)
Definition article_prefix (w : string) : bool :=
  existsb (fun alt => prefix (alt ++ "'") w)
          ["l"; "d"; "c"; "n"; "s"; "qu"; "bell"].

(** [/(che|come|dove|non|con|per)$/] *)
Definition function_word_suffix (w : string) : bool :=
  existsb (endsWith w) ["che"; "come"; "dove"; "non"; "con"; "per"].

(** The test made on [words[i]] and [words[i + 1]]. *)
Definition elides (word_i word_next : string) : bool :=
  let currentWord := str_filter is_word_apos_accent (toLowerCase word_i) in
  let nextWord := str_filter is_word_apos_accent (toLowerCase word_next) in
  match list_ascii_of_string (slice_last 1 currentWord),
        char_at 0 nextWord with
  | [lastChar], Some firstChar =>
      isVowel lastChar && isVowel firstChar &&
      ( (Ascii.eqb lastChar "i" || Ascii.eqb lastChar "u"
         || Ascii.eqb firstChar "i" || Ascii.eqb firstChar "u")
        || Ascii.eqb lastChar firstChar
        || (article_prefix currentWord || function_word_suffix currentWord)
        || (endsWith currentWord "o" && Ascii.eqb firstChar "a")
        || (endsWith currentWord "a"
            && (Ascii.eqb firstChar "i" || Ascii.eqb firstChar "e"))
        || (endsWith currentWord "e"
            && (Ascii.eqb firstChar "a" || Ascii.eqb firstChar "i")) )
  | _, _ => false   (* currentWord or nextWord is empty *)
  end.

Fixpoint countSinalefe (words : list string) : Z :=
  match words with
  | w :: ((w' :: _) as rest) =>
      (if elides w w' then 1 else 0) + countSinalefe rest
  | _ => 0
  end.

(** A JavaScript number as far as this program produces one. *)
Inductive number : Set := Num (z : Z) | NaN.

(** The variable [totalSyllables]: a number, or, once an inherited function
    was added to it, a string that spells that function and is no numeral. *)
Inductive running_total : Set := Total (z : Z) | Text.

(** [totalSyllables += c] *)
Definition add_count (t : running_total) (c : jsval Z) : running_total :=
  match t, c with
  | Total z, Val n => Total (z + n)
  | _, _ => Text
  end.

(** [[^\w\s'àèìòùáéíóú]] is replaced by a space. *)
Definition blank_punctuation (c : ascii) : ascii :=
  if is_word_apos_accent c || is_space c then c else " "%char.

Definition countSyllables (text : string) : number :=
  if (text =? "")%string then Num 0
  else
    let cleanText := trim (str_map blank_punctuation (toLowerCase text)) in
    let words := filter (fun word => (0 <? length word)%nat) (split_ws cleanText) in
    if (List.length words =? 0)%nat then Num 0
    else
      let totalSyllables :=
        fold_left (fun t word => add_count t (countWordSyllables word))
                  words (Total 0) in
      match totalSyllables with
      | Total z => Num (Z.max 1 (z - countSinalefe words))
      | Text => NaN   (* Math.max(1, NaN) *)
      end.

Local Close Scope Z_scope.

(* ================================================================= *)
(** ** Records of [types.ts] *)

(** A string given by its UTF-16 code units; used for group labels and the
    rhyme pattern, which [String.fromCharCode] builds. *)
Definition code_units := list N.

Fixpoint code_units_eqb (a b : code_units) : bool :=
  match a, b with
  | [], [] => true
  | x :: a', y :: b' => N.eqb x y && code_units_eqb a' b'
  | _, _ => false
  end.

(** The code units of a string of the text model. *)
Definition units_of (s : string) : code_units :=
  map N_of_ascii (list_ascii_of_string s).

Record Verse : Type := {
  index : nat;
  text : string;
  rhyme_index : code_units;
  rhyming_syllable : key;
  rhyme_type : string;
  syllable_count : number
}.

(** The field [index] of a stanza is [stanza_index] here. *)
Record Stanza : Type := {
  stanza_index : nat;
  verses : list Verse;
  rhyme_pattern : code_units
}.

Definition ParsedLyrics := list Stanza.

Definition relation_name (r : relation) : string :=
  match r with
  | rhyme => "rhyme"
  | assonance => "assonance"
  | consonance => "consonance"
  | none => "none"
  end.

(* ================================================================= *)
(** ** Stanza grouping: [determineRhymePattern] *)

(** A value of the object [rhymeGroups]. *)
Record Group : Set := { group_verses : list nat; group_type : relation }.

(** [rhymeGroups], its properties in the order of their creation.  Its keys
    are labels of one code unit, and [Object.prototype] has no property with
    such a name, so a read sees own properties only. *)
Definition group_table := list (code_units * Group).

Fixpoint groups_get (k : code_units) (t : group_table) : option Group :=
  match t with
  | [] => None
  | (k', g) :: rest => if code_units_eqb k k' then Some g else groups_get k rest
  end.

(** [rhymeGroups[k] = g]: an existing property keeps its place. *)
Fixpoint groups_set (k : code_units) (g : Group) (t : group_table) : group_table :=
  match t with
  | [] => [(k, g)]
  | (k', g') :: rest =>
      if code_units_eqb k k' then (k', g) :: rest
      else (k', g') :: groups_set k g rest
  end.

(** [Object.keys(rhymeGroups)]: the keys that are array indices in ascending
    order (for a label of one code unit, the digits), then the other keys in
    the order of their creation. *)
Definition is_index_key (k : code_units) : bool :=
  match k with
  | [d] => (48 <=? d)%N && (d <=? 57)%N
  | _ => false
  end.

Definition object_keys (t : group_table) : list code_units :=
  filter (fun k => match groups_get k t with Some _ => true | None => false end)
         (map (fun d => [d]) [48; 49; 50; 51; 52; 53; 54; 55; 56; 57]%N)
  ++ filter (fun k => negb (is_index_key k)) (map fst t).

(** [String.fromCharCode(n)]: one code unit, [n] modulo 2^16. *)
Definition fromCharCode (n : N) : code_units := [(n mod 65536)%N].

Record GroupingState : Type := {
  rhymeGroups : group_table;
  rhymeIndices : list code_units;
  currentRhymeIndex : N
}.

(** The inner loop: [previous] holds [verses[i]], [verses[i + 1]], ... up to
    the verse before [verse]; the result is the first [i] whose analysis has
    [rhymes], with its [type]. *)
Fixpoint scan_previous (previous : list Verse) (i : nat) (verse : Verse)
  : outcome (option (nat * relation)) :=
  match previous with
  | [] => Ok None
  | previousVerse :: rest =>
      let previousLastWord := getLastWord (text previousVerse) in
      let currentLastWord := getLastWord (text verse) in
      rhymeAnalysis <- analyzeRhyme previousLastWord currentLastWord ;;
      if rhymes rhymeAnalysis then Ok (Some (i, type rhymeAnalysis))
      else scan_previous rest (S i) verse
  end.

(** The update of a group's type when a verse joins it with an analysis of
    type [t]. *)
Definition updateGroupType (currentGroupType t : relation) : relation :=
  match t with
  | rhyme => rhyme
  | assonance =>
      match currentGroupType with rhyme => currentGroupType | _ => assonance end
  | consonance =>
      match currentGroupType with none => consonance | _ => currentGroupType end
  | none => currentGroupType
  end.

Definition set_rhyme_index (l : code_units) (v : Verse) : Verse :=
  {| index := index v; text := text v; rhyme_index := l;
     rhyming_syllable := rhyming_syllable v; rhyme_type := rhyme_type v;
     syllable_count := syllable_count v |}.

Definition set_rhyme_type (t : string) (v : Verse) : Verse :=
  {| index := index v; text := text v; rhyme_index := rhyme_index v;
     rhyming_syllable := rhyming_syllable v; rhyme_type := t;
     syllable_count := syllable_count v |}.

(** One call of the callback of [verses.forEach]: [done] holds the verses
    before [verse], already labelled, so [index] is [length done], which is
    also [rhymeIndices.length]. *)
Definition group_verse (done : list Verse) (verse : Verse) (st : GroupingState)
  : outcome (Verse * GroupingState) :=
  let index := List.length done in
  found <- scan_previous done 0 verse ;;
  match found with
  | Some (i, t) =>
      match nth_error (rhymeIndices st) i with
      | None => TypeError
      | Some rhymeIndex =>
          match groups_get rhymeIndex (rhymeGroups st) with
          | None => TypeError
          | Some group =>
              let group' :=
                {| group_verses := group_verses group ++ [index];
                   group_type := updateGroupType (group_type group) t |} in
              Ok (set_rhyme_index rhymeIndex verse,
                  {| rhymeGroups := groups_set rhymeIndex group' (rhymeGroups st);
                     rhymeIndices := rhymeIndices st ++ [rhymeIndex];
                     currentRhymeIndex := currentRhymeIndex st |})
          end
      end
  | None =>
      let newRhymeIndex := fromCharCode (65 + currentRhymeIndex st) in
      Ok (set_rhyme_index newRhymeIndex verse,
          {| rhymeGroups :=
               groups_set newRhymeIndex
                 {| group_verses := [index]; group_type := none |}
                 (rhymeGroups st);
             rhymeIndices := rhymeIndices st ++ [newRhymeIndex];
             currentRhymeIndex := (currentRhymeIndex st + 1)%N |})
  end.

Fixpoint group_loop (todo done : list Verse) (st : GroupingState)
  : outcome (list Verse * GroupingState) :=
  match todo with
  | [] => Ok (done, st)
  | verse :: rest =>
      r <- group_verse done verse st ;;
      group_loop rest (done ++ [fst r]) (snd r)
  end.

(** [verses[verseIndex].rhyme_type = finalType] *)
Fixpoint assign_type (finalType : string) (verseIndex : nat) (vs : list Verse)
  : outcome (list Verse) :=
  match vs, verseIndex with
  | [], _ => TypeError
  | v :: rest, O => Ok (set_rhyme_type finalType v :: rest)
  | v :: rest, S n => rest' <- assign_type finalType n rest ;; Ok (v :: rest')
  end.

Definition finalType_of (group : Group) : string :=
  if (List.length (group_verses group) =? 1)%nat then ""
  else match group_type group with
       | none => "rhyme"
       | t => relation_name t
       end.

Fixpoint assign_all (finalType : string) (members : list nat) (vs : list Verse)
  : outcome (list Verse) :=
  match members with
  | [] => Ok vs
  | verseIndex :: rest =>
      vs' <- assign_type finalType verseIndex vs ;;
      assign_all finalType rest vs'
  end.

Fixpoint finalize (keys : list code_units) (t : group_table) (vs : list Verse)
  : outcome (list Verse) :=
  match keys with
  | [] => Ok vs
  | rhymeIndex :: rest =>
      match groups_get rhymeIndex t with
      | None => TypeError
      | Some group =>
          vs' <- assign_all (finalType_of group) (group_verses group) vs ;;
          finalize rest t vs'
      end
  end.

Definition initial_state : GroupingState :=
  {| rhymeGroups := []; rhymeIndices := []; currentRhymeIndex := 0 |}.

(** The forEach over the verses: the labelled verses and the tables. *)
Definition group_verses_of (vs : list Verse)
  : outcome (list Verse * GroupingState) :=
  group_loop vs [] initial_state.

(** [determineRhymePattern]: the verses as the call leaves them, and the
    returned pattern, [rhymeIndices.join('')]. *)
Definition determineRhymePattern (vs : list Verse)
  : outcome (list Verse * code_units) :=
  if (List.length vs =? 0)%nat then Ok (vs, [])
  else
    r <- group_verses_of vs ;;
    let st := snd r in
    vs' <- finalize (object_keys (rhymeGroups st)) (rhymeGroups st) (fst r) ;;
    Ok (vs', List.concat (rhymeIndices st)).

(* ================================================================= *)
(** ** Parsing: [parseLyrics] *)

(** The rest of a match of [/\n\s*\n/] after its first line feed: [\s*] takes
    as much as it can and gives back until a line feed follows.  The result
    is the text after the match. *)
Fixpoint match_blank (s : string) : option string :=
  match s with
  | EmptyString => None
  | String c r =>
      if is_space c then
        match match_blank r with
        | Some after => Some after
        | None => if (code c =? 10)%nat then Some r else None
        end
      else None
  end.

(** [s.split(/\n\s*\n/)]; [fuel] bounds the number of characters read. *)
Fixpoint split_blank_from (fuel : nat) (s : string) (cur : string)
  : list string :=
  match fuel with
  | O => [str_rev cur]
  | S fuel' =>
      match s with
      | EmptyString => [str_rev cur]
      | String c r =>
          if (code c =? 10)%nat then
            match match_blank r with
            | Some after => str_rev cur :: split_blank_from fuel' after ""
            | None => split_blank_from fuel' r (String c cur)
            end
          else split_blank_from fuel' r (String c cur)
      end
  end.

Definition nonempty (s : string) : bool := (0 <? length s)%nat.

Definition splitIntoStanzas (lyrics : string) : list string :=
  filter nonempty (map trim (split_blank_from (S (length lyrics)) lyrics "")).

Fixpoint mapi_from {A B : Type} (i : nat) (f : A -> nat -> B) (l : list A) : list B :=
  match l with
  | [] => []
  | a :: r => f a i :: mapi_from (S i) f r
  end.

Definition parseStanzaIntoVerses (stanzaText : string) (stanzaIndex : nat)
  : list Verse :=
  let lines := filter nonempty (map trim (split_nl stanzaText)) in
  mapi_from 0
    (fun line lineIndex =>
       let lastWord := getLastWord line in
       {| index := lineIndex + 1;
          text := line;
          rhyme_index := [];
          rhyming_syllable := extractRhymingSyllable lastWord;
          rhyme_type := "";
          syllable_count := countSyllables line |})
    lines.

Fixpoint parse_stanzas (stanzas : list string) (stanzaIndex : nat)
  : outcome ParsedLyrics :=
  match stanzas with
  | [] => Ok []
  | stanzaText :: rest =>
      let vs := parseStanzaIntoVerses stanzaText stanzaIndex in
      r <- determineRhymePattern vs ;;
      parsed <- parse_stanzas rest (S stanzaIndex) ;;
      Ok ({| stanza_index := stanzaIndex + 1;
             verses := fst r;
             rhyme_pattern := snd r |} :: parsed)
  end.

Definition parseLyrics (lyrics : string) : outcome ParsedLyrics :=
  parse_stanzas (splitIntoStanzas lyrics) 0.

(* ================================================================= *)
(** ** Inputs used in the statements below *)

(** The line feed, and a text given by its lines. *)
Definition LF : string := String (ascii_of_nat 10) "".

Definition text_of_lines (l : list string) : string := String.concat LF l.

(** The verses of a one-stanza text as [parseStanzaIntoVerses] builds them. *)
Definition verses_of_lines (l : list string) : list Verse :=
  parseStanzaIntoVerses (text_of_lines l) 0.

Definition roses_text : string :=
  text_of_lines
    ["Roses are red"; "Violets are blue"; "Sugar is sweet"; "And so are you"].

(** The key of the last word of a verse, as the grouping loop extracts it. *)
Definition verse_key (v : Verse) : key :=
  extractRhymingSyllable (getLastWord (text v)).

Definition blank_verse : Verse :=
  {| index := 0; text := ""; rhyme_index := []; rhyming_syllable := Val "";
     rhyme_type := ""; syllable_count := Num 0 |}.

(** The verses and the tables when the grouping loop has gone through the
    given lines. *)
Definition grouped (l : list string) : list Verse * GroupingState :=
  match group_verses_of (verses_of_lines l) with
  | Ok r => r
  | TypeError => ([], initial_state)
  end.

(* ================================================================= *)
(** ** The words of a line *)

(** The lower-cased text holds a word character, an apostrophe or an
    accented vowel. *)
Definition has_word (text : string) : bool :=
  existsb is_word_apos_accent (list_ascii_of_string (toLowerCase text)).

(** The array [words] of [countSyllables]. *)
Definition words_of (text : string) : list string :=
  filter (fun word => (0 <? length word)%nat)
         (split_ws (trim (str_map blank_punctuation (toLowerCase text)))).

(** Some word of the line, reduced to its letters a to z, is the name of a
    property of [Object.prototype]. *)
Definition has_inherited_word (text : string) : bool :=
  existsb (fun word =>
             str_mem (str_filter is_az (toLowerCase word)) object_prototype_names)
          (words_of text).

Definition all_space (s : string) : bool :=
  forallb is_space (list_ascii_of_string s).

(* ================================================================= *)
(** ** Shapes of keys and tables *)

(** [[a-z0-9_]]: the word characters that are left after lower-casing. *)
Definition is_lower_word (c : ascii) : bool :=
  in_range 97 122 c || in_range 48 57 c || (code c =? 95)%nat.

Definition all_chars (p : ascii -> bool) (s : string) : bool :=
  forallb p (list_ascii_of_string s).

(** A key made of lower-case word characters, or an inherited object. *)
Definition lower_key (k : key) : Prop :=
  match k with
  | Val s => all_chars is_lower_word s = true
  | Builtin _ => True
  end.

(** An array read from a table, or its default, is not empty. *)
Definition inhabited (g : jsval (list key)) : Prop :=
  match g with
  | Val l => l <> []
  | Builtin _ => True
  end.

(** The vowel pattern of a string key. *)
Definition vowel_pattern (s : string) : string :=
  toLowerCase (str_filter (fun c => negb (is_consonant_no_y c)) s).

Fixpoint str_list_eqb (l1 l2 : list string) : bool :=
  match l1, l2 with
  | [], [] => true
  | x :: r1, y :: r2 => (x =? y) && str_list_eqb r1 r2
  | _, _ => false
  end.

(** A table of classes: every member of an entry is a key of the table with
    that same entry, and every key is a member of its own entry. *)
Definition class_table (tbl : list (string * list string)) : bool :=
  forallb (fun e =>
             str_mem (fst e) (snd e)
             && forallb (fun m =>
                           match assoc m tbl with
                           | Some l => str_list_eqb l (snd e)
                           | None => false
                           end) (snd e)) tbl.

(* ================================================================= *)
(** ** The broad relation test in the words of the specification *)

(** Two strings co-occur in an entry of a table. *)
Definition co_occur (tbl : list (string * list string)) (a b : string) : bool :=
  existsb (fun e => str_mem a (snd e) && str_mem b (snd e)) tbl.

(** A key with its consonants stripped. *)
Definition vowels_only (k : string) : string :=
  str_filter (fun c => negb (is_consonant_no_y c)) k.

(** The vowel-pattern check: both vowel-only strings are non-empty, and
    equal or co-members of the vowel-similarity table. *)
Definition vowel_check_spec (k1 k2 : string) : bool :=
  negb (vowels_only k1 =? "") && negb (vowels_only k2 =? "")
  && ((vowels_only k1 =? vowels_only k2)
      || co_occur vowelSimilarity (vowels_only k1) (vowels_only k2)).

(** The broad relation test: never for an empty key; otherwise the keys are
    equal, or co-occur in an entry of the broad table, or pass the
    vowel-pattern check. *)
Definition broad_relation_spec (k1 k2 : string) : bool :=
  negb (k1 =? "") && negb (k2 =? "")
  && ((k1 =? k2) || co_occur rhymeGroups_table k1 k2 || vowel_check_spec k1 k2).

Definition same_members (l l' : list string) : bool :=
  forallb (fun x => str_mem x l') l && forallb (fun x => str_mem x l) l'.

(** A table whose entries are classes: every key is a member of its own
    entry, and every member of an entry is a key whose entry has the same
    members. *)
Definition partition_table (tbl : list (string * list string)) : bool :=
  forallb (fun e =>
             str_mem (fst e) (snd e)
             && forallb (fun m =>
                           match assoc m tbl with
                           | Some l => same_members l (snd e)
                           | None => false
                           end) (snd e)) tbl.

(* ================================================================= *)
(** ** Grouping decisions and the state of the tables *)

(** The grouping decision between an earlier verse [p] and a verse [v]:
    the [rhymes] flag of the typed analysis of their last words. *)
Definition joins (p v : Verse) : bool :=
  match analyzeRhyme (getLastWord (text p)) (getLastWord (text v)) with
  | Ok r => rhymes r
  | TypeError => false
  end.

(** The position of the first verse of [previous] that [v] joins. *)
Fixpoint first_match (previous : list Verse) (v : Verse) : option nat :=
  match previous with
  | [] => None
  | p :: rest => if joins p v then Some 0 else option_map S (first_match rest v)
  end.

(** For each verse of [todo], read after [done]: does it open a group? *)
Fixpoint openers (done todo : list Verse) : list bool :=
  match todo with
  | [] => []
  | v :: rest =>
      match first_match done v with None => true | Some _ => false end
      :: openers (done ++ [v]) rest
  end.

(** The number of verses before position [j] that open a group. *)
Definition openers_before (vs : list Verse) (j : nat) : nat :=
  List.length (filter (fun b : bool => b) (firstn j (openers [] vs))).

(** The state of the tables when [n] verses have been read. *)
Record tables_ok (st : GroupingState) (n : nat) : Prop := {
  ok_length : List.length (rhymeIndices st) = n;
  ok_units : Forall (fun l : code_units => List.length l = 1) (rhymeIndices st);
  ok_label : forall i l,
    nth_error (rhymeIndices st) i = Some l ->
    exists g, groups_get l (rhymeGroups st) = Some g;
  ok_group : forall k g,
    groups_get k (rhymeGroups st) = Some g ->
    group_verses g <> [] /\ NoDup (group_verses g) /\
    (forall v, In v (group_verses g) -> nth_error (rhymeIndices st) v = Some k) /\
    (2 <= List.length (group_verses g) -> group_type g <> none);
  ok_member : forall v l,
    nth_error (rhymeIndices st) v = Some l ->
    (exists g, groups_get l (rhymeGroups st) = Some g /\ In v (group_verses g))
    \/ (exists u, v < u /\ nth_error (rhymeIndices st) u = Some l)
}.

(** [vs'] is [vs] up to the field [rhyme_type]. *)
Definition retyped (vs vs' : list Verse) : Prop :=
  Forall2 (fun v v' => v' = set_rhyme_type (rhyme_type v') v) vs vs'.

(** The verses [vs] with the labels [ls] written into them. *)
Definition labelled (ls : list code_units) (vs : list Verse) : list Verse :=
  map (fun lv => set_rhyme_index (fst lv) (snd lv)) (combine ls vs).

(** The labels [ls] follow the grouping decisions on [vs]: a verse has the
    label of the first earlier verse it joins, and otherwise the next unused
    label. *)
Definition labels_follow (vs : list Verse) (ls : list code_units) : Prop :=
  forall j v,
    nth_error vs j = Some v ->
    exists l,
      nth_error ls j = Some l /\
      match first_match (firstn j vs) v with
      | Some i => nth_error ls i = Some l
      | None => l = fromCharCode (65 + N.of_nat (openers_before vs j))
      end.

(** What holds between the verses [pre] read so far, their labelled copies
    [done] and the tables. *)
Record grouping_inv (pre done : list Verse) (st : GroupingState) : Prop := {
  inv_done : done = labelled (rhymeIndices st) pre;
  inv_tables : tables_ok st (List.length pre);
  inv_current :
    currentRhymeIndex st = N.of_nat (openers_before pre (List.length pre));
  inv_labels : labels_follow pre (rhymeIndices st)
}.

(** While no label has been used twice: every label is one of the first
    [currentRhymeIndex] labels, and every verse is a member of the group of
    its label. *)
Record labels_fresh (st : GroupingState) (n : nat) : Prop := {
  fresh_current : (currentRhymeIndex st <= N.of_nat n)%N;
  fresh_labels : forall i l,
    nth_error (rhymeIndices st) i = Some l ->
    exists m, (m < currentRhymeIndex st)%N /\ l = fromCharCode (65 + m);
  fresh_member : forall v l,
    nth_error (rhymeIndices st) v = Some l ->
    exists g, groups_get l (rhymeGroups st) = Some g /\ In v (group_verses g)
}.

(* ================================================================= *)
(** ** Sample stanzas *)

(** The labels of a one-stanza text given by its lines. *)
Definition labels_of (l : list string) : option (list code_units) :=
  match determineRhymePattern (verses_of_lines l) with
  | Ok r => Some (map rhyme_index (fst r))
  | TypeError => None
  end.

Definition cat_lines : list string :=
  [ "The cat in the hat"; "Makes me laugh today"; "The moon shines bright";
    "In the pale moonlight" ].

(** The verses and the pattern that [determineRhymePattern] leaves for a
    one-stanza text given by its lines. *)
Definition determined (l : list string) : list Verse * code_units :=
  match determineRhymePattern (verses_of_lines l) with
  | Ok r => r
  | TypeError => ([], [])
  end.

(** Picks the stage of the typed analysis that holds. *)
Ltac pick_stage :=
  first [ left; reflexivity
        | right; left; split; reflexivity
        | right; right; repeat split; reflexivity ].

Definition blank_stanza : Stanza :=
  {| stanza_index := 0; verses := []; rhyme_pattern := [] |}.

(** The result of [parseLyrics] on a text given by its lines, and its first
    stanza. *)
Definition parsed (l : list string) : ParsedLyrics :=
  match parseLyrics (text_of_lines l) with
  | Ok p => p
  | TypeError => []
  end.

Definition first_stanza (l : list string) : Stanza :=
  nth 0 (parsed l) blank_stanza.

(* ================================================================= *)
(** ** Further notions used in the statements *)

(** [word.toLowerCase().replace(/[^\w]/g, '')], the cleaned word of
    [extractRhymingSyllable]. *)
Definition clean_word (word : string) : string :=
  str_filter is_word_char (toLowerCase word).

(** The letters a to z of a lower-cased text, the [cleanWord] of
    [countWordSyllables]. *)
Definition letters (s : string) : string := str_filter is_az (toLowerCase s).

Definition no_space (s : string) : bool :=
  all_chars (fun c => negb (is_space c)) s.

(** The first, and the last, character of a string is white space. *)
Definition first_is_space (s : string) : bool :=
  match s with
  | EmptyString => false
  | String c _ => is_space c
  end.

Definition last_is_space (s : string) : bool := first_is_space (str_rev s).

Definition no_line_feed (s : string) : bool :=
  all_chars (fun c => negb (code c =? 10)%nat) s.

(** The cleaned word is the name of a property of [Object.prototype]. *)
Definition cleans_to_inherited (word : string) : bool :=
  str_mem (clean_word word) object_prototype_names.

(** Two keys are equal, or are strings that co-occur in an entry of the
    perfect-rhyme table. *)
Definition perfect_related (k1 k2 : key) : bool :=
  key_eqb k1 k2 ||
  match k1, k2 with
  | Val s, Val t => co_occur perfectRhymeGroups s t
  | _, _ => false
  end.

(** A key as extraction gives it: a string that names no inherited property,
    or an inherited object. *)
Definition own_key (k : key) : Prop :=
  match k with
  | Val s => str_mem s object_prototype_names = false
  | Builtin _ => True
  end.

(** The array [lines] of [parseStanzaIntoVerses]. *)
Definition lines_of (stanzaText : string) : list string :=
  filter nonempty (map trim (split_nl stanzaText)).

(** The verse that [parseStanzaIntoVerses] builds for a line at position
    [lineIndex]. *)
Definition verse_of_line (line : string) (lineIndex : nat) : Verse :=
  {| index := lineIndex + 1;
     text := line;
     rhyme_index := [];
     rhyming_syllable := extractRhymingSyllable (getLastWord line);
     rhyme_type := "";
     syllable_count := countSyllables line |}.

(** The command-line tool: [lyricsInput.replace(/\\n/g, '\n')], the text
    that [main] passes to [parseLyrics].  Every backslash followed by [n]
    becomes a line feed, from left to right. *)
Definition backslash : ascii := ascii_of_nat 92.

Definition line_feed : ascii := ascii_of_nat 10.

Definition backslash_n : string := String backslash (String "n"%char "").

Fixpoint processedLyrics (lyricsInput : string) : string :=
  match lyricsInput with
  | String c1 ((String c2 rest) as tail) =>
      if Ascii.eqb c1 backslash && Ascii.eqb c2 "n"%char
      then String line_feed (processedLyrics rest)
      else String c1 (processedLyrics tail)
  | _ => lyricsInput
  end.

(** The relation found when the verse at position [j] of [vs] was read: the
    type of its analysis with the first earlier verse that it joins, and
    ['none'] when it joins no earlier verse. *)
Definition join_type (vs : list Verse) (j : nat) : relation :=
  match nth_error vs j with
  | Some v =>
      match first_match (firstn j vs) v with
      | Some i =>
          match nth_error vs i with
          | Some p =>
              match analyzeRhyme (getLastWord (text p)) (getLastWord (text v)) with
              | Ok r => type r
              | TypeError => none
              end
          | None => none
          end
      | None => none
      end
  | None => none
  end.

(** The updates of a group's type, accumulated over the relations found for
    its verses. *)
Definition strongest (ts : list relation) : relation :=
  fold_left updateGroupType ts none.

(** The priority that the update gives to a relation. *)
Definition priority (r : relation) : nat :=
  match r with
  | none => 0
  | consonance => 1
  | assonance => 2
  | rhyme => 3
  end.

(* ================================================================= *)
(** * Properties *)

(** ** Sample evaluations *)

Example extract_singing : extractRhymingSyllable "singing" = Val "ing".
Proof. reflexivity. Qed.
Example extract_star : extractRhymingSyllable "star" = Val "ar".
Proof. reflexivity. Qed.
Example extract_blue : extractRhymingSyllable "blue" = Val "lue".
Proof. reflexivity. Qed.
Example extract_you : extractRhymingSyllable "you" = Val "ou".
Proof. reflexivity. Qed.
Example extract_constructor :
  extractRhymingSyllable "constructor" = Builtin "constructor".
Proof. reflexivity. Qed.
Example wordsRhyme_cat_hat : wordsRhyme "cat" "hat" = Ok true.
Proof. reflexivity. Qed.
Example wordsRhyme_cat_sad : wordsRhyme "cat" "sad" = Ok true.
Proof. reflexivity. Qed.
Example analyzeRhyme_cat_sad :
  analyzeRhyme "cat" "sad" = Ok {| rhymes := false; type := none |}.
Proof. reflexivity. Qed.
Example analyzeRhyme_filtro_dipinto :
  analyzeRhyme "filtro" "dipinto" = Ok {| rhymes := true; type := assonance |}.
Proof. reflexivity. Qed.
Example analyzeRhyme_constructor :
  analyzeRhyme "cat" "constructor" = TypeError.
Proof. reflexivity. Qed.
Example getLastWord_ex : getLastWord "  The cat in the hat, " = "hat,".
Proof. reflexivity. Qed.
Example count_roses : countSyllables "Roses are red" = Num 4%Z.
Proof. reflexivity. Qed.
Example count_empty : countSyllables "" = Num 0%Z.
Proof. reflexivity. Qed.
Example count_punct : countSyllables "!!!" = Num 0%Z.
Proof. reflexivity. Qed.
Example count_la_amica : countSyllables "la amica" = Num 3%Z.
Proof. reflexivity. Qed.
Example count_constructor : countSyllables "the constructor" = NaN.
Proof. reflexivity. Qed.

Example parse_cat_hat :
  option_map (map rhyme_pattern)
    (match parseLyrics (text_of_lines
             ["The cat in the hat"; "Makes me laugh today";
              "The moon shines bright"; "In the pale moonlight"]) with
     | Ok p => Some p | TypeError => None end)
  = Some [units_of "ABCC"].
Proof. reflexivity. Qed.

(* ================================================================= *)
(** ** The aggregate relation of a group (C3) *)

Lemma code_units_eqb_refl : forall k, code_units_eqb k k = true.
Proof.
  induction k as [|x k IH]; simpl; [reflexivity|].
  now rewrite N.eqb_refl, IH.
Qed.

Lemma code_units_eqb_eq : forall a b, code_units_eqb a b = true <-> a = b.
Proof.
  induction a as [|x a IH]; destruct b as [|y b]; simpl; split; intro H;
    try reflexivity; try discriminate.
  - apply andb_true_iff in H as [Hx Hr]. apply N.eqb_eq in Hx.
    apply IH in Hr. now subst.
  - injection H as -> ->. now rewrite N.eqb_refl, code_units_eqb_refl.
Qed.

Lemma code_units_eqb_neq : forall a b, code_units_eqb a b = false <-> a <> b.
Proof.
  intros a b. split.
  - intros H E. apply code_units_eqb_eq in E. congruence.
  - intro H. destruct (code_units_eqb a b) eqn:E; [|reflexivity].
    apply code_units_eqb_eq in E. contradiction.
Qed.

Lemma groups_get_set_same : forall k g t, groups_get k (groups_set k g t) = Some g.
Proof.
  intros k g t. induction t as [|[k' g'] t IH]; simpl.
  - now rewrite code_units_eqb_refl.
  - destruct (code_units_eqb k k') eqn:E; simpl; rewrite E; [reflexivity|exact IH].
Qed.

Lemma groups_get_set_other : forall k k' g t,
  k <> k' -> groups_get k' (groups_set k g t) = groups_get k' t.
Proof.
  intros k k' g t Hne. induction t as [|[k0 g0] t IH]; simpl.
  - destruct (code_units_eqb k' k) eqn:E; [|reflexivity].
    apply code_units_eqb_eq in E. congruence.
  - destruct (code_units_eqb k k0) eqn:E; simpl.
    + apply code_units_eqb_eq in E. subst k0.
      destruct (code_units_eqb k' k) eqn:E'; [|reflexivity].
      apply code_units_eqb_eq in E'. congruence.
    + destruct (code_units_eqb k' k0); [reflexivity|exact IH].
Qed.

(** What a join does to the tables. *)
Lemma group_verse_join : forall done verse st i t rhymeIndex group,
  scan_previous done 0 verse = Ok (Some (i, t)) ->
  nth_error (rhymeIndices st) i = Some rhymeIndex ->
  groups_get rhymeIndex (rhymeGroups st) = Some group ->
  group_verse done verse st =
    Ok (set_rhyme_index rhymeIndex verse,
        {| rhymeGroups :=
             groups_set rhymeIndex
               {| group_verses := group_verses group ++ [List.length done];
                  group_type := updateGroupType (group_type group) t |}
               (rhymeGroups st);
           rhymeIndices := rhymeIndices st ++ [rhymeIndex];
           currentRhymeIndex := currentRhymeIndex st |}).
Proof.
  intros * Hscan Hidx Hget. unfold group_verse.
  rewrite Hscan. simpl. now rewrite Hidx, Hget.
Qed.

(** C3, as amended.  When a verse joins a group whose relation is [cur]
    with an analysis of type [t], the group's relation becomes
    [updateGroupType cur t]: a recorded "rhyme" is never replaced, a "rhyme"
    join always records "rhyme", an "assonance" join records "assonance"
    over anything but "rhyme" (so it does replace "consonance"), and a
    "consonance" join changes the relation only when it is "none". *)
Theorem join_updates_relation_by_priority :
  forall done verse st i t rhymeIndex group verse' st',
    scan_previous done 0 verse = Ok (Some (i, t)) ->
    nth_error (rhymeIndices st) i = Some rhymeIndex ->
    groups_get rhymeIndex (rhymeGroups st) = Some group ->
    group_verse done verse st = Ok (verse', st') ->
    exists group',
      groups_get rhymeIndex (rhymeGroups st') = Some group' /\
      group_type group' = updateGroupType (group_type group) t /\
      (group_type group = rhyme -> group_type group' = rhyme) /\
      (t = rhyme -> group_type group' = rhyme) /\
      (t = assonance -> group_type group <> rhyme ->
         group_type group' = assonance) /\
      (t = consonance -> group_type group = none ->
         group_type group' = consonance) /\
      (t = consonance -> group_type group <> none ->
         group_type group' = group_type group).
Proof.
  intros * Hscan Hidx Hget Hstep.
  rewrite (group_verse_join _ _ _ _ _ _ _ Hscan Hidx Hget) in Hstep.
  injection Hstep as _ <-. simpl.
  eexists. split; [apply groups_get_set_same|]. simpl.
  repeat split; intros; subst;
    destruct (group_type group) eqn:E; simpl in *; try congruence;
    destruct t; simpl; congruence.
Qed.

Lemma join_updates_relation_by_priority_witness :
  let done := fst (grouped ["topic"; "mac"]) in
  let st := snd (grouped ["topic"; "mac"]) in
  let verse := nth 2 (verses_of_lines ["topic"; "mac"; "milwaukee"]) blank_verse in
  let group := {| group_verses := [0; 1]; group_type := consonance |} in
  let r := match group_verse done verse st with
           | Ok r => r | TypeError => (verse, st) end in
  scan_previous done 0 verse = Ok (Some (0, assonance)) /\
  nth_error (rhymeIndices st) 0 = Some (units_of "A") /\
  groups_get (units_of "A") (rhymeGroups st) = Some group /\
  group_verse done verse st = Ok r /\
  exists group',
    groups_get (units_of "A") (rhymeGroups (snd r)) = Some group' /\
    group_type group' = assonance.
Proof.
  intros done st verse group r.
  assert (Hscan : scan_previous done 0 verse = Ok (Some (0, assonance)))
    by reflexivity.
  assert (Hidx : nth_error (rhymeIndices st) 0 = Some (units_of "A"))
    by reflexivity.
  assert (Hget : groups_get (units_of "A") (rhymeGroups st) = Some group)
    by reflexivity.
  assert (Hstep : group_verse done verse st = Ok (fst r, snd r))
    by reflexivity.
  repeat split; try assumption.
  destruct (join_updates_relation_by_priority
              done verse st 0 assonance (units_of "A") group (fst r) (snd r)
              Hscan Hidx Hget Hstep)
    as [g' [Hg' [Ht _]]].
  exists g'. split; [exact Hg' | exact Ht].
Defined.

(** C3 as stated fails: in the stanza "topic / mac / milwaukee" the second
    verse joins group A by consonance, the third joins it by assonance, and
    the group's relation goes from "consonance" to "assonance". *)
Lemma assonance_join_replaces_consonance :
  let st2 := snd (grouped ["topic"; "mac"]) in
  let st3 := snd (grouped ["topic"; "mac"; "milwaukee"]) in
  option_map group_type (groups_get (units_of "A") (rhymeGroups st2))
    = Some consonance /\
  scan_previous (fst (grouped ["topic"; "mac"])) 0
      (nth 2 (verses_of_lines ["topic"; "mac"; "milwaukee"]) blank_verse)
    = Ok (Some (0, assonance)) /\
  option_map group_type (groups_get (units_of "A") (rhymeGroups st3))
    = Some assonance /\
  updateGroupType consonance assonance <> consonance.
Proof.
  vm_compute. repeat split; discriminate.
Qed.

(* ================================================================= *)
(** ** The documented example (C6) *)

(** C6.  On the text "Roses are red / Violets are blue / Sugar is sweet /
    And so are you" the parser returns one stanza of four verses whose
    pattern is "ABCD": the keys are "ed", "lue", "et" and "ou", no two of
    them are related, and every verse opens a group of its own.  The
    pattern "ABCB", which the README shows for this text, is not produced. *)
Theorem roses_pattern_is_ABCD :
  exists vs,
    parseLyrics roses_text
      = Ok [ {| stanza_index := 1; verses := vs;
                rhyme_pattern := units_of "ABCD" |} ] /\
    map text vs = ["Roses are red"; "Violets are blue"; "Sugar is sweet";
                   "And so are you"] /\
    map verse_key vs = [Val "ed"; Val "lue"; Val "et"; Val "ou"] /\
    map rhyme_index vs
      = [units_of "A"; units_of "B"; units_of "C"; units_of "D"] /\
    analyzeRhyme "blue" "you" = Ok {| rhymes := false; type := none |} /\
    wordsRhyme "blue" "you" = Ok false.
Proof.
  eexists. split; [vm_compute; reflexivity|].
  vm_compute. repeat split.
Qed.

(* ================================================================= *)
(** ** Lengths of strings *)

Lemma length_str_filter : forall p s, length (str_filter p s) <= length s.
Proof.
  intros p s. induction s as [|c r IH]; simpl; [lia|].
  destruct (p c); simpl; lia.
Qed.

Lemma length_str_map : forall f s, length (str_map f s) = length s.
Proof.
  intros f s. induction s as [|c r IH]; simpl; [reflexivity|].
  now rewrite IH.
Qed.

Lemma length_substring_le : forall s n m, length (substring n m s) <= length s.
Proof.
  induction s as [|c r IH]; intros n m.
  - destruct n, m; simpl; lia.
  - destruct n as [|n].
    + destruct m as [|m]; simpl; [lia|]. specialize (IH 0 m). lia.
    + simpl. specialize (IH n m). lia.
Qed.

Lemma length_slice_last : forall n s, length (slice_last n s) <= length s.
Proof. intros n s. apply length_substring_le. Qed.

Lemma endsWith_length : forall s suf,
  endsWith s suf = true -> length suf <= length s.
Proof.
  intros s suf H. unfold endsWith in H.
  apply andb_true_iff in H as [H _]. now apply Nat.leb_le in H.
Qed.

Lemma length_clean_word : forall w,
  length (str_filter is_word_char (toLowerCase w)) <= length w.
Proof.
  intro w. unfold toLowerCase.
  rewrite <- (length_str_map lower_char w). apply length_str_filter.
Qed.

Lemma assoc_In : forall (A : Type) k (tbl : list (string * A)) v,
  assoc k tbl = Some v -> In (k, v) tbl.
Proof.
  intros A k tbl v. induction tbl as [|[k' a] rest IH]; simpl; [discriminate|].
  destruct (String.eqb_spec k k') as [->|Hne].
  - intro H. injection H as ->. now left.
  - intro H. right. now apply IH.
Qed.

(** The entries of the exception table whose key is longer than the word are
    those of "i", "my" and "by". *)
Lemma rhyme_specialCases_lengths :
  forallb (fun e => (length (snd e) <=? length (fst e))%nat
                    || str_mem (fst e) ["i"; "my"; "by"])
          rhyme_specialCases = true.
Proof. reflexivity. Qed.

(* ================================================================= *)
(** ** The length of a rhyme key (C8) *)

(** C8, as amended.  Extraction is a function of the word (the same word
    gives the same key).  When the key is a string it is no longer than the
    word, unless the cleaned word is one of the exception-table words "i",
    "my" and "by"; for those three the key is "igh". *)
Theorem extract_key_length :
  forall w,
    (forall w', w' = w -> extractRhymingSyllable w' = extractRhymingSyllable w) /\
    (forall k,
       extractRhymingSyllable w = Val k ->
       str_mem (str_filter is_word_char (toLowerCase w)) ["i"; "my"; "by"] = false ->
       length k <= length w) /\
    (str_mem (str_filter is_word_char (toLowerCase w)) ["i"; "my"; "by"] = true ->
     extractRhymingSyllable w = Val "igh").
Proof.
  intro w. split; [now intros w' ->|]. split.
  - intros k Hk Hno. unfold extractRhymingSyllable in Hk.
    pose proof (length_clean_word w) as Hclean.
    set (cleanWord := str_filter is_word_char (toLowerCase w)) in *.
    destruct (w =? "") eqn:Hw.
    { injection Hk as <-. simpl. lia. }
    unfold get_prop in Hk.
    destruct (assoc cleanWord rhyme_specialCases) as [v|] eqn:Hassoc.
    { injection Hk as <-. apply assoc_In in Hassoc.
      pose proof rhyme_specialCases_lengths as Hall.
      rewrite forallb_forall in Hall. specialize (Hall _ Hassoc).
      simpl fst in Hall. simpl snd in Hall. rewrite Hno in Hall.
      rewrite orb_false_r in Hall. apply Nat.leb_le in Hall. lia. }
    destruct (str_mem cleanWord object_prototype_names); [discriminate|].
    destruct (find (endsWith cleanWord) patterns) as [suffix|] eqn:Hfind.
    { injection Hk as <-. apply find_some in Hfind as [_ Hends].
      apply endsWith_length in Hends. lia. }
    pose proof (length_slice_last 2 cleanWord) as H2.
    pose proof (length_slice_last 3 cleanWord) as H3.
    destruct (3 <=? length cleanWord)%nat.
    + destruct (vowel_consonant_end (slice_last 2 cleanWord));
        [|destruct (4 <=? length cleanWord)%nat]; injection Hk as <-; lia.
    + injection Hk as <-. lia.
  - intro Hin. unfold extractRhymingSyllable.
    set (cleanWord := str_filter is_word_char (toLowerCase w)) in *.
    destruct (w =? "") eqn:Hw.
    { apply String.eqb_eq in Hw. subst w. discriminate Hin. }
    simpl in Hin. rewrite orb_false_r in Hin.
    apply orb_true_iff in Hin as [Hin|Hin];
      [|apply orb_true_iff in Hin as [Hin|Hin]];
      apply String.eqb_eq in Hin; rewrite Hin; reflexivity.
Qed.

Lemma extract_key_length_witness :
  extractRhymingSyllable "Singing!" = Val "ing" /\
  str_mem (str_filter is_word_char (toLowerCase "Singing!")) ["i"; "my"; "by"]
    = false /\
  length "ing" <= length "Singing!" /\
  str_mem (str_filter is_word_char (toLowerCase "My")) ["i"; "my"; "by"] = true /\
  extractRhymingSyllable "My" = Val "igh".
Proof.
  assert (H1 : extractRhymingSyllable "Singing!" = Val "ing") by reflexivity.
  assert (H2 : str_mem (str_filter is_word_char (toLowerCase "Singing!"))
                 ["i"; "my"; "by"] = false) by reflexivity.
  assert (H3 : str_mem (str_filter is_word_char (toLowerCase "My"))
                 ["i"; "my"; "by"] = true) by reflexivity.
  split; [exact H1|]. split; [exact H2|]. split.
  - exact (proj1 (proj2 (extract_key_length "Singing!")) "ing" H1 H2).
  - split; [exact H3|].
    exact (proj2 (proj2 (extract_key_length "My")) H3).
Defined.

(** C8 as stated fails: the word "i" has the key "igh". *)
Lemma key_of_i_is_longer :
  extractRhymingSyllable "i" = Val "igh" /\ length "i" < length "igh".
Proof. split; [reflexivity | simpl; lia]. Qed.

(* ================================================================= *)
(** ** White space, trimming and splitting *)

Lemma all_space_drop_spaces : forall s, all_space (drop_spaces s) = all_space s.
Proof.
  induction s as [|c r IH]; [reflexivity|].
  simpl. destruct (is_space c) eqn:Hc.
  - rewrite IH. unfold all_space. simpl. now rewrite Hc.
  - reflexivity.
Qed.

Lemma all_space_rev_onto : forall s acc,
  all_space (str_rev_onto s acc) = all_space s && all_space acc.
Proof.
  induction s as [|c r IH]; intro acc; [reflexivity|].
  simpl. rewrite IH. unfold all_space. simpl.
  destruct (is_space c); simpl; [reflexivity|].
  now rewrite andb_false_r.
Qed.

Lemma all_space_rev : forall s, all_space (str_rev s) = all_space s.
Proof.
  intro s. unfold str_rev. rewrite all_space_rev_onto.
  unfold all_space at 2. simpl. apply andb_true_r.
Qed.

Lemma all_space_trim : forall s, all_space (trim s) = all_space s.
Proof.
  intro s. unfold trim.
  now rewrite all_space_rev, all_space_drop_spaces, all_space_rev,
    all_space_drop_spaces.
Qed.

Lemma length_rev_onto : forall s acc,
  length (str_rev_onto s acc) = length s + length acc.
Proof.
  induction s as [|c r IH]; intro acc; [reflexivity|].
  simpl. rewrite IH. simpl. lia.
Qed.

Lemma length_str_rev : forall s, length (str_rev s) = length s.
Proof. intro s. unfold str_rev. rewrite length_rev_onto. simpl. lia. Qed.

(** The pieces of [split(/\s+/)] that are not empty: there is none exactly
    when the piece being read is empty and only white space follows. *)
Lemma split_ws_no_word : forall s cur in_run,
  filter (fun word => (0 <? length word)%nat) (split_ws_from s cur in_run) = []
  <-> (cur = "" /\ all_space s = true).
Proof.
  induction s as [|c r IH]; intros cur in_run.
  - simpl. rewrite length_str_rev. destruct cur; simpl; split; intro H.
    + now split.
    + reflexivity.
    + discriminate.
    + now destruct H.
  - simpl. unfold all_space. simpl. fold (all_space r).
    destruct (is_space c) eqn:Hc; simpl.
    + destruct in_run.
      * apply IH.
      * simpl. rewrite length_str_rev. destruct cur; simpl.
        -- rewrite IH. tauto.
        -- split; [intro H0 | intros [H0 _]]; inversion H0.
    + rewrite IH. split; intros [H0 H1]; [discriminate H0 | discriminate H1].
Qed.

(** The separator of stanzas is not empty, so the fuel of
    [split_blank_from] is never used up: any fuel above the length of the text
    gives the same pieces. *)
Lemma match_blank_shorter : forall s after,
  match_blank s = Some after -> (length after < length s)%nat.
Proof.
  induction s as [|c r IH]; intros after H; simpl in H; [discriminate|].
  destruct (is_space c); [|discriminate].
  destruct (match_blank r) as [after'|] eqn:E.
  - injection H as <-. specialize (IH _ eq_refl). simpl. lia.
  - destruct (code c =? 10)%nat; [|discriminate].
    injection H as <-. simpl. lia.
Qed.

Lemma split_blank_fuel : forall f1 f2 s cur,
  (length s < f1)%nat -> (length s < f2)%nat ->
  split_blank_from f1 s cur = split_blank_from f2 s cur.
Proof.
  induction f1 as [|f1 IH]; intros f2 s cur H1 H2; [lia|].
  destruct f2 as [|f2]; [lia|].
  destruct s as [|c r]; [reflexivity|].
  simpl in H1, H2. simpl.
  destruct (code c =? 10)%nat.
  - destruct (match_blank r) as [after|] eqn:E.
    + apply match_blank_shorter in E. f_equal. apply IH; lia.
    + apply IH; lia.
  - apply IH; lia.
Qed.

Lemma is_space_blank_punctuation : forall c,
  is_space (blank_punctuation c) = negb (is_word_apos_accent c).
Proof.
  intros [b0 b1 b2 b3 b4 b5 b6 b7].
  destruct b0, b1, b2, b3, b4, b5, b6, b7; vm_compute; reflexivity.
Qed.

Lemma all_space_cleaned : forall text,
  all_space (str_map blank_punctuation (toLowerCase text)) = negb (has_word text).
Proof.
  intro text. unfold has_word, toLowerCase, all_space.
  induction text as [|c r IH]; [reflexivity|].
  simpl. rewrite IH, is_space_blank_punctuation.
  now rewrite negb_orb.
Qed.

Lemma words_of_nil : forall text, words_of text = [] <-> has_word text = false.
Proof.
  intro text. unfold words_of, split_ws. rewrite split_ws_no_word.
  rewrite all_space_trim, all_space_cleaned.
  destruct (has_word text); simpl; split; intro H;
    try (destruct H; discriminate); try discriminate; auto.
Qed.

(* ================================================================= *)
(** ** The syllable count of a line (C5) *)

Lemma countWordSyllables_number : forall word,
  str_mem (str_filter is_az (toLowerCase word)) object_prototype_names = false ->
  exists n, countWordSyllables word = Val n.
Proof.
  intros word Hno. unfold countWordSyllables.
  destruct (word =? "")%string; [now eexists|].
  destruct (str_filter is_az (toLowerCase word) =? "")%string; [now eexists|].
  unfold get_prop. rewrite Hno.
  destruct (assoc _ syllable_specialCases); now eexists.
Qed.

Lemma total_stays_number : forall words z,
  forallb (fun word =>
             negb (str_mem (str_filter is_az (toLowerCase word))
                           object_prototype_names)) words = true ->
  exists z',
    fold_left (fun t word => add_count t (countWordSyllables word)) words (Total z)
    = Total z'.
Proof.
  induction words as [|w ws IH]; intros z Hall; simpl.
  - now exists z.
  - simpl in Hall. apply andb_true_iff in Hall as [Hw Hws].
    apply negb_true_iff in Hw.
    destruct (countWordSyllables_number w Hw) as [n ->]. simpl.
    now apply IH.
Qed.

Lemma countSyllables_unfold : forall text,
  text <> "" ->
  countSyllables text =
    if (List.length (words_of text) =? 0)%nat then Num 0
    else match fold_left (fun t word => add_count t (countWordSyllables word))
                         (words_of text) (Total 0) with
         | Total z => Num (Z.max 1 (z - countSinalefe (words_of text)))
         | Text => NaN
         end.
Proof.
  intros text Hne. unfold countSyllables.
  destruct (String.eqb_spec text ""); [contradiction|reflexivity].
Qed.

(** C5, as amended.  The count is 0 when the lower-cased line holds no word
    character, apostrophe or accented vowel: that is the empty line, a line
    of white space, and also a line of punctuation only.  Otherwise, when no
    word of the line reduces to a property name of [Object.prototype], the
    count is an integer that is at least 1. *)
Theorem countSyllables_zero_or_positive :
  forall text,
    (has_word text = false -> countSyllables text = Num 0) /\
    (has_word text = true -> has_inherited_word text = false ->
     exists n, countSyllables text = Num n /\ (1 <= n)%Z).
Proof.
  intro text. split.
  - intro Hno. destruct (String.eqb_spec text "") as [->|Hne]; [reflexivity|].
    rewrite countSyllables_unfold by assumption.
    apply words_of_nil in Hno. now rewrite Hno.
  - intros Hw Hinh.
    assert (Hne : text <> "") by (intros ->; discriminate Hw).
    rewrite countSyllables_unfold by assumption.
    destruct (words_of text) as [|w ws] eqn:Hwords.
    { apply words_of_nil in Hwords. congruence. }
    cbn [List.length Nat.eqb].
    unfold has_inherited_word in Hinh. rewrite Hwords in Hinh.
    assert (Hall : forallb (fun word =>
               negb (str_mem (str_filter is_az (toLowerCase word))
                             object_prototype_names)) (w :: ws) = true).
    { apply forallb_forall. intros x Hx.
      apply negb_true_iff.
      destruct (str_mem _ object_prototype_names) eqn:E; [|reflexivity].
      assert (existsb (fun word =>
                str_mem (str_filter is_az (toLowerCase word))
                        object_prototype_names) (w :: ws) = true)
        by (apply existsb_exists; eauto).
      congruence. }
    destruct (total_stays_number (w :: ws) 0%Z Hall) as [z' ->].
    eexists. split; [reflexivity|]. lia.
Qed.

Lemma countSyllables_zero_or_positive_witness :
  has_word "?! ..." = false /\ countSyllables "?! ..." = Num 0 /\
  has_word "Violets are blue," = true /\
  has_inherited_word "Violets are blue," = false /\
  exists n, countSyllables "Violets are blue," = Num n /\ (1 <= n)%Z.
Proof.
  assert (H1 : has_word "?! ..." = false) by reflexivity.
  assert (H2 : has_word "Violets are blue," = true) by reflexivity.
  assert (H3 : has_inherited_word "Violets are blue," = false) by reflexivity.
  split; [exact H1|]. split.
  - exact (proj1 (countSyllables_zero_or_positive "?! ...") H1).
  - split; [exact H2|]. split; [exact H3|].
    exact (proj2 (countSyllables_zero_or_positive "Violets are blue,") H2 H3).
Defined.

(** C5 as stated fails: a line of three exclamation marks is not empty and
    holds no white space, and its count is 0. *)
Lemma punctuation_line_counts_zero :
  "!!!" <> "" /\ all_space "!!!" = false /\ countSyllables "!!!" = Num 0.
Proof. split; [discriminate|]. split; reflexivity. Qed.

(** A word that reduces to "constructor" reads the inherited property of the
    exception table, and the line's count is not a number. *)
Lemma constructor_line_counts_NaN :
  has_word "the constructor" = true /\
  has_inherited_word "the constructor" = true /\
  countSyllables "the constructor" = NaN.
Proof. repeat split. Qed.

(* ================================================================= *)
(** ** Keys are lower-case *)

Lemma lower_char_word : forall c,
  is_word_char (lower_char c) = true -> is_lower_word (lower_char c) = true.
Proof.
  intros [b0 b1 b2 b3 b4 b5 b6 b7].
  destruct b0, b1, b2, b3, b4, b5, b6, b7; vm_compute; intro H;
    first [reflexivity | discriminate H].
Qed.

Lemma lower_char_fixed : forall c, is_lower_word c = true -> lower_char c = c.
Proof.
  intros [b0 b1 b2 b3 b4 b5 b6 b7].
  destruct b0, b1, b2, b3, b4, b5, b6, b7; vm_compute; intro H;
    first [reflexivity | discriminate H].
Qed.

Lemma all_chars_cons : forall p c r,
  all_chars p (String c r) = p c && all_chars p r.
Proof. reflexivity. Qed.

Lemma clean_word_lower : forall w,
  all_chars is_lower_word (str_filter is_word_char (toLowerCase w)) = true.
Proof.
  intro w. unfold toLowerCase. induction w as [|c r IH]; [reflexivity|].
  simpl. destruct (is_word_char (lower_char c)) eqn:Hc; [|exact IH].
  rewrite all_chars_cons, IH, (lower_char_word _ Hc). reflexivity.
Qed.

Lemma all_chars_substring : forall p s n m,
  all_chars p s = true -> all_chars p (substring n m s) = true.
Proof.
  intros p. induction s as [|c r IH]; intros n m H.
  - destruct n, m; reflexivity.
  - rewrite all_chars_cons in H. apply andb_true_iff in H as [Hc Hr].
    destruct n as [|n]; simpl.
    + destruct m as [|m]; [reflexivity|].
      rewrite all_chars_cons, Hc. simpl. now apply IH.
    + now apply IH.
Qed.

Lemma all_chars_filter : forall p q s,
  all_chars p s = true -> all_chars p (str_filter q s) = true.
Proof.
  intros p q. induction s as [|c r IH]; intro H; [reflexivity|].
  rewrite all_chars_cons in H. apply andb_true_iff in H as [Hc Hr].
  simpl. destruct (q c); [|now apply IH].
  rewrite all_chars_cons, Hc. simpl. now apply IH.
Qed.

Lemma toLowerCase_lower : forall s,
  all_chars is_lower_word s = true -> toLowerCase s = s.
Proof.
  unfold toLowerCase. induction s as [|c r IH]; intro H; [reflexivity|].
  rewrite all_chars_cons in H. apply andb_true_iff in H as [Hc Hr].
  simpl. now rewrite (lower_char_fixed _ Hc), IH.
Qed.

Lemma extract_lower_key : forall w, lower_key (extractRhymingSyllable w).
Proof.
  intro w. unfold extractRhymingSyllable.
  destruct (w =? ""); [reflexivity|].
  pose proof (clean_word_lower w) as Hclean.
  set (cleanWord := str_filter is_word_char (toLowerCase w)) in *.
  unfold get_prop.
  destruct (assoc cleanWord rhyme_specialCases) as [v|] eqn:Hassoc.
  { apply assoc_In in Hassoc.
    assert (Hall : forallb (fun e => all_chars is_lower_word (snd e))
                     rhyme_specialCases = true) by reflexivity.
    rewrite forallb_forall in Hall. exact (Hall _ Hassoc). }
  destruct (str_mem cleanWord object_prototype_names); [exact I|].
  destruct (find (endsWith cleanWord) patterns) as [suffix|] eqn:Hfind.
  { apply find_some in Hfind as [Hin _].
    assert (Hall : forallb (all_chars is_lower_word) patterns = true)
      by reflexivity.
    rewrite forallb_forall in Hall. exact (Hall _ Hin). }
  destruct (3 <=? length cleanWord)%nat; [|exact Hclean].
  destruct (vowel_consonant_end (slice_last 2 cleanWord));
    [|destruct (4 <=? length cleanWord)%nat];
    simpl; unfold slice_last; now apply all_chars_substring.
Qed.

(* ================================================================= *)
(** ** Symmetry of the table tests *)

Lemma key_eqb_sym : forall a b, key_eqb a b = key_eqb b a.
Proof.
  intros [s|m] [t|n]; simpl; try reflexivity; apply String.eqb_sym.
Qed.

Lemma key_eqb_eq : forall a b, key_eqb a b = true <-> a = b.
Proof.
  intros [s|m] [t|n]; simpl; split; intro H; try discriminate.
  - apply String.eqb_eq in H. now subst.
  - injection H as ->. apply String.eqb_refl.
  - apply String.eqb_eq in H. now subst.
  - injection H as ->. apply String.eqb_refl.
Qed.

Lemma existsb_swap : forall (l1 l2 : list key),
  existsb (fun x => existsb (key_eqb x) l2) l1
  = existsb (fun y => existsb (key_eqb y) l1) l2.
Proof.
  intros l1 l2. apply eq_true_iff_eq.
  rewrite !existsb_exists. split.
  - intros [x [Hx Hy]]. apply existsb_exists in Hy as [y [Hy E]].
    exists y. split; [exact Hy|]. apply existsb_exists.
    exists x. split; [exact Hx|]. now rewrite key_eqb_sym.
  - intros [y [Hy Hx]]. apply existsb_exists in Hx as [x [Hx E]].
    exists x. split; [exact Hx|]. apply existsb_exists.
    exists y. split; [exact Hy|]. now rewrite key_eqb_sym.
Qed.

Lemma some_included_array : forall l1 l2,
  some_included l1 (Val l2) = Ok (existsb (fun x => existsb (key_eqb x) l2) l1).
Proof.
  induction l1 as [|x l1 IH]; intro l2; [reflexivity|].
  simpl. destruct (existsb (key_eqb x) l2); [reflexivity|apply IH].
Qed.

Lemma some_included_object : forall l1 n,
  l1 <> [] -> some_included l1 (Builtin n) = TypeError.
Proof. intros [|x l1] n H; [contradiction|reflexivity]. Qed.

Lemma groups_intersect_sym : forall g1 g2,
  inhabited g1 -> inhabited g2 ->
  groups_intersect g1 g2 = groups_intersect g2 g1.
Proof.
  intros [l1|n1] [l2|n2] H1 H2; simpl in *.
  - rewrite !some_included_array. f_equal. apply existsb_swap.
  - now apply some_included_object.
  - symmetry. now apply some_included_object.
  - reflexivity.
Qed.

Lemma group_of_inhabited : forall tbl k,
  forallb (fun e => negb (List.length (snd e) =? 0)%nat) tbl = true ->
  inhabited (group_of tbl k [k]).
Proof.
  intros tbl k Hall. unfold group_of. destruct k as [s|n]; [|simpl; discriminate].
  unfold get_prop. destruct (assoc s tbl) as [l|] eqn:Hassoc.
  - apply assoc_In in Hassoc. rewrite forallb_forall in Hall.
    specialize (Hall _ Hassoc). simpl in *.
    destruct l; [discriminate Hall | discriminate].
  - destruct (str_mem s object_prototype_names); simpl; [exact I | discriminate].
Qed.

Lemma isPerfectRhyme_sym : forall k1 k2,
  isPerfectRhyme k1 k2 = isPerfectRhyme k2 k1.
Proof.
  intros k1 k2. unfold isPerfectRhyme. rewrite (key_eqb_sym k2 k1).
  destruct (key_eqb k1 k2); [reflexivity|].
  apply groups_intersect_sym; now apply group_of_inhabited.
Qed.

Lemma str_mem_In : forall k l, str_mem k l = true <-> In k l.
Proof.
  intros k l. unfold str_mem. rewrite existsb_exists. split.
  - intros [x [Hx E]]. apply String.eqb_eq in E. now subst.
  - intro H. exists k. split; [exact H | apply String.eqb_refl].
Qed.

Lemma includes_map_Val : forall s l,
  existsb (key_eqb (Val s)) (map Val l) = str_mem s l.
Proof.
  intros s l. induction l as [|x l IH]; [reflexivity|].
  simpl. now rewrite IH.
Qed.

Lemma includes_map_Val_object : forall n (l : list string),
  existsb (key_eqb (Builtin n)) (map Val l) = false.
Proof. intros n l. induction l as [|x l IH]; [reflexivity|exact IH]. Qed.

(** No member of an entry of the assonance table is the name of an inherited
    property. *)
Lemma assonance_members_own :
  forallb (fun e => forallb (fun m => negb (str_mem m object_prototype_names))
                            (snd e)) assonanceGroups = true.
Proof. reflexivity. Qed.

Lemma assonance_object_not_member : forall s n k l,
  group_of assonanceGroups (Val s) [] = Builtin n ->
  group_of assonanceGroups k [] = Val l ->
  existsb (key_eqb (Val s)) l = false.
Proof.
  intros s n k l Hs Hk. unfold group_of, get_prop in Hs.
  destruct (assoc s assonanceGroups); [discriminate|].
  destruct (str_mem s object_prototype_names) eqn:Hname; [|discriminate].
  unfold group_of in Hk. destruct k as [t|m].
  - unfold get_prop in Hk. destruct (assoc t assonanceGroups) as [e|] eqn:Ht.
    + injection Hk as <-. rewrite includes_map_Val.
      destruct (str_mem s e) eqn:Hin; [|reflexivity].
      apply str_mem_In in Hin. apply assoc_In in Ht.
      pose proof assonance_members_own as Hall.
      rewrite forallb_forall in Hall. specialize (Hall _ Ht).
      cbv beta in Hall. cbn [snd] in Hall.
      rewrite forallb_forall in Hall. specialize (Hall _ Hin).
      cbv beta in Hall. now rewrite Hname in Hall.
    + destruct (str_mem t object_prototype_names); [discriminate|].
      now injection Hk as <-.
  - now injection Hk as <-.
Qed.

Lemma isAssonance_sym : forall k1 k2, isAssonance k1 k2 = isAssonance k2 k1.
Proof.
  assert (Hobj : forall k1 k2 n,
             group_of assonanceGroups k1 [] = Builtin n ->
             isAssonance k1 k2 = TypeError /\ isAssonance k2 k1 = TypeError).
  { intros k1 k2 n H1. unfold isAssonance. rewrite H1. split; [reflexivity|].
    destruct (group_of assonanceGroups k2 []) as [l2|n2] eqn:H2; [|reflexivity].
    simpl. destruct k1 as [s|m]; [|discriminate H1].
    now rewrite (assonance_object_not_member s n k2 l2 H1 H2). }
  intros k1 k2.
  destruct (group_of assonanceGroups k1 []) as [l1|n1] eqn:H1.
  - destruct (group_of assonanceGroups k2 []) as [l2|n2] eqn:H2.
    + unfold isAssonance. rewrite H1, H2. simpl.
      destruct (existsb (key_eqb k2) l1), (existsb (key_eqb k1) l2); reflexivity.
    + destruct (Hobj k2 k1 n2 H2) as [Ha Hb]. now rewrite Ha, Hb.
  - destruct (Hobj k1 k2 n1 H1) as [Ha Hb]. now rewrite Ha, Hb.
Qed.

Lemma isConsonance_sym : forall k1 k2, isConsonance k1 k2 = isConsonance k2 k1.
Proof.
  intros [s|m] [t|n]; unfold isConsonance; simpl; try reflexivity.
  set (c1 := str_rev (take_while is_consonant_y (str_rev s))).
  set (c2 := str_rev (take_while is_consonant_y (str_rev t))).
  rewrite (String.eqb_sym c2 c1).
  destruct (String.eqb_spec c1 c2) as [->|]; [reflexivity|].
  now rewrite !andb_false_r.
Qed.

Lemma classifyKeys_sym : forall k1 k2, classifyKeys k1 k2 = classifyKeys k2 k1.
Proof.
  intros k1 k2. unfold classifyKeys.
  rewrite (orb_comm (falsy k2)), (isPerfectRhyme_sym k2 k1),
    (isAssonance_sym k2 k1), (isConsonance_sym k2 k1).
  reflexivity.
Qed.

(* ----------------------------------------------------------------- *)
(** The vowel-pattern check *)

Lemma vowelSimilarity_classes : class_table vowelSimilarity = true.
Proof. reflexivity. Qed.

Lemma str_list_eqb_eq : forall l1 l2, str_list_eqb l1 l2 = true -> l1 = l2.
Proof.
  induction l1 as [|x l1 IH]; destruct l2 as [|y l2]; simpl; intro H;
    try reflexivity; try discriminate.
  apply andb_true_iff in H as [Hx Hl]. apply String.eqb_eq in Hx.
  f_equal; [exact Hx | now apply IH].
Qed.

Lemma class_table_member : forall tbl k l m,
  class_table tbl = true -> assoc k tbl = Some l -> In m l ->
  assoc m tbl = Some l /\ In k l.
Proof.
  intros tbl k l m Hct Hk Hm. unfold class_table in Hct.
  rewrite forallb_forall in Hct. apply assoc_In in Hk.
  specialize (Hct _ Hk). cbv beta in Hct. cbn [fst snd] in Hct.
  apply andb_true_iff in Hct as [Hself Hmem].
  split; [|now apply str_mem_In].
  rewrite forallb_forall in Hmem. specialize (Hmem _ Hm).
  destruct (assoc m tbl) as [l'|]; [|discriminate].
  apply str_list_eqb_eq in Hmem. now subst.
Qed.

Lemma similar_includes_sym : forall v1 v2,
  str_mem v1 object_prototype_names = false ->
  str_mem v2 object_prototype_names = false ->
  v1 <> v2 ->
  array_includes (group_of vowelSimilarity (Val v1) [Val v1]) (Val v2)
  = array_includes (group_of vowelSimilarity (Val v2) [Val v2]) (Val v1).
Proof.
  intros v1 v2 Hn1 Hn2 Hne. unfold group_of, get_prop. rewrite Hn1, Hn2.
  assert (Hne1 : (v1 =? v2) = false) by now apply String.eqb_neq.
  assert (Hne2 : (v2 =? v1) = false) by (apply String.eqb_neq; congruence).
  pose proof vowelSimilarity_classes as Hct.
  destruct (assoc v1 vowelSimilarity) as [l1|] eqn:H1;
    destruct (assoc v2 vowelSimilarity) as [l2|] eqn:H2; simpl;
    rewrite ?includes_map_Val, ?Hne1, ?Hne2; simpl; f_equal.
  - apply eq_true_iff_eq. rewrite !str_mem_In. split; intro Hin.
    + destruct (class_table_member _ _ _ _ Hct H1 Hin) as [H2' Hk].
      congruence.
    + destruct (class_table_member _ _ _ _ Hct H2 Hin) as [H1' Hk].
      congruence.
  - destruct (str_mem v2 l1) eqn:Hin; [|reflexivity].
    apply str_mem_In in Hin.
    destruct (class_table_member _ _ _ _ Hct H1 Hin) as [H2' _]. congruence.
  - destruct (str_mem v1 l2) eqn:Hin; [|reflexivity].
    apply str_mem_In in Hin.
    destruct (class_table_member _ _ _ _ Hct H2 Hin) as [H1' _]. congruence.
Qed.

Lemma str_filter_idem : forall p s, str_filter p (str_filter p s) = str_filter p s.
Proof.
  intros p s. induction s as [|c r IH]; [reflexivity|].
  simpl. destruct (p c) eqn:Hc; [|exact IH]. simpl. now rewrite Hc, IH.
Qed.

(** Every inherited name holds a consonant, so no vowel pattern of a
    lower-case key is one. *)
Lemma vowel_pattern_own : forall s,
  all_chars is_lower_word s = true ->
  str_mem (vowel_pattern s) object_prototype_names = false.
Proof.
  intros s Hs. unfold vowel_pattern.
  rewrite toLowerCase_lower by now apply all_chars_filter.
  set (p := fun c => negb (is_consonant_no_y c)).
  destruct (str_mem (str_filter p s) object_prototype_names) eqn:Hin;
    [|reflexivity].
  apply str_mem_In in Hin.
  assert (Hall : forallb (fun n => negb (str_filter p n =? n))
                   object_prototype_names = true) by reflexivity.
  rewrite forallb_forall in Hall. specialize (Hall _ Hin).
  rewrite str_filter_idem, String.eqb_refl in Hall. discriminate Hall.
Qed.

Lemma checkAssonance_sym : forall k1 k2,
  lower_key k1 -> lower_key k2 ->
  checkAssonance k1 k2 = checkAssonance k2 k1.
Proof.
  intros [s|m] [t|n] H1 H2; unfold checkAssonance; simpl; try reflexivity.
  fold (vowel_pattern s). fold (vowel_pattern t).
  rewrite (andb_comm (negb (vowel_pattern t =? ""))).
  destruct (negb (vowel_pattern s =? "") && negb (vowel_pattern t =? ""));
    [|reflexivity].
  rewrite (String.eqb_sym (vowel_pattern t)).
  destruct (String.eqb_spec (vowel_pattern s) (vowel_pattern t)) as [|Hne];
    [reflexivity|].
  apply similar_includes_sym; try assumption; now apply vowel_pattern_own.
Qed.

Lemma keysRhyme_sym : forall k1 k2,
  lower_key k1 -> lower_key k2 -> keysRhyme k1 k2 = keysRhyme k2 k1.
Proof.
  intros k1 k2 H1 H2. unfold keysRhyme.
  rewrite (orb_comm (falsy k2)), (key_eqb_sym k2 k1).
  destruct (falsy k1 || falsy k2); [reflexivity|].
  destruct (key_eqb k1 k2); [reflexivity|].
  rewrite (groups_intersect_sym (group_of rhymeGroups_table k2 [k2]))
    by now apply group_of_inhabited.
  now rewrite (checkAssonance_sym k2 k1).
Qed.

(* ================================================================= *)
(** ** Symmetry of the two rhyme tests (C7) *)

(** C7.  Both tests give the same outcome on (a, b) and on (b, a): the
    broad test [wordsRhyme] the same boolean, the typed classification
    [analyzeRhyme] the same record, and when one order throws so does the
    other. *)
Theorem rhyme_tests_symmetric :
  forall a b : string,
    wordsRhyme a b = wordsRhyme b a /\ analyzeRhyme a b = analyzeRhyme b a.
Proof.
  intros a b. split.
  - unfold wordsRhyme. apply keysRhyme_sym; apply extract_lower_key.
  - unfold analyzeRhyme. apply classifyKeys_sym.
Qed.

(* ================================================================= *)
(** ** The grouping loop *)

Lemma classifyKeys_rhymes : forall k1 k2 r,
  classifyKeys k1 k2 = Ok r ->
  (rhymes r = true -> type r <> none) /\ (rhymes r = false -> type r = none).
Proof.
  intros k1 k2 r. unfold classifyKeys.
  destruct (falsy k1 || falsy k2).
  { intro H. injection H as <-. split; [discriminate|reflexivity]. }
  destruct (isPerfectRhyme k1 k2) as [[|]|]; simpl; try discriminate.
  { intro H. injection H as <-. split; [discriminate|discriminate]. }
  destruct (isAssonance k1 k2) as [[|]|]; simpl; try discriminate.
  { intro H. injection H as <-. split; [discriminate|discriminate]. }
  destruct (isConsonance k1 k2) as [[|]|]; simpl; try discriminate;
    intro H; injection H as <-; split; simpl; try discriminate; reflexivity.
Qed.

Lemma scan_previous_spec : forall previous i verse res,
  scan_previous previous i verse = Ok res ->
  match res with
  | Some (j, t) =>
      i <= j /\ first_match previous verse = Some (j - i) /\
      j - i < List.length previous /\ t <> none
  | None => first_match previous verse = None
  end.
Proof.
  induction previous as [|p rest IH]; intros i verse res H; simpl in H.
  - injection H as <-. reflexivity.
  - unfold joins. simpl.
    destruct (analyzeRhyme (getLastWord (text p)) (getLastWord (text verse)))
      as [ra|] eqn:Hra; simpl in H; [|discriminate].
    unfold joins. rewrite Hra.
    destruct (rhymes ra) eqn:Hr.
    + injection H as <-. rewrite Nat.sub_diag.
      repeat split; try lia.
      now apply (classifyKeys_rhymes _ _ _ Hra).
    + specialize (IH _ _ _ H). destruct res as [[j t]|].
      * destruct IH as [Hle [Hfm [Hlt Ht]]]. rewrite Hfm. simpl.
        repeat split; try lia; try assumption.
        f_equal. lia.
      * now rewrite IH.
Qed.

Lemma updateGroupType_not_none : forall cur t,
  t <> none -> updateGroupType cur t <> none.
Proof. intros [] []; simpl; congruence. Qed.

Lemma nth_error_snoc_old : forall (A : Type) (l : list A) x i a,
  nth_error l i = Some a -> nth_error (l ++ [x]) i = Some a.
Proof.
  intros A l x i a H. rewrite nth_error_app1; [exact H|].
  apply nth_error_Some. congruence.
Qed.

Lemma nth_error_snoc_new : forall (A : Type) (l : list A) x,
  nth_error (l ++ [x]) (List.length l) = Some x.
Proof.
  intros A l x. rewrite nth_error_app2 by lia. now rewrite Nat.sub_diag.
Qed.

Lemma nth_error_snoc_inv : forall (A : Type) (l : list A) x i a,
  nth_error (l ++ [x]) i = Some a ->
  (i < List.length l /\ nth_error l i = Some a) \/ (i = List.length l /\ a = x).
Proof.
  intros A l x i a H. destruct (Nat.lt_ge_cases i (List.length l)) as [Hlt|Hge].
  - left. split; [exact Hlt|]. now rewrite nth_error_app1 in H.
  - right. rewrite nth_error_app2 in H by exact Hge.
    destruct (i - List.length l) as [|d] eqn:Hd; simpl in H.
    + injection H as <-. split; [lia|reflexivity].
    + destruct d; discriminate.
Qed.

Lemma nth_error_lt : forall (A : Type) (l : list A) i a,
  nth_error l i = Some a -> i < List.length l.
Proof. intros A l i a H. apply nth_error_Some. congruence. Qed.

Lemma initial_tables_ok : tables_ok initial_state 0.
Proof.
  constructor; simpl.
  - reflexivity.
  - constructor.
  - intros [|i] l H; discriminate.
  - intros k g H. discriminate.
  - intros [|v] l H; discriminate.
Qed.

(** A join keeps the tables in order. *)
Lemma join_tables_ok : forall st n i t k g,
  tables_ok st n ->
  t <> none ->
  nth_error (rhymeIndices st) i = Some k ->
  groups_get k (rhymeGroups st) = Some g ->
  tables_ok
    {| rhymeGroups :=
         groups_set k {| group_verses := group_verses g ++ [n];
                         group_type := updateGroupType (group_type g) t |}
                    (rhymeGroups st);
       rhymeIndices := rhymeIndices st ++ [k];
       currentRhymeIndex := currentRhymeIndex st |}
    (S n).
Proof.
  intros st n i t k g [Hlen Hunits Hlabel Hgroup Hmember] Ht Hi Hg.
  destruct (Hgroup _ _ Hg) as [Hne [Hnd [Hin Htype]]].
  constructor; simpl.
  - rewrite length_app. simpl. lia.
  - apply Forall_app. split; [exact Hunits|].
    constructor; [|constructor].
    rewrite Forall_forall in Hunits. apply Hunits.
    eapply nth_error_In; eassumption.
  - intros j l Hj.
    destruct (list_eq_dec N.eq_dec k l) as [->|Hkl].
    + eexists. apply groups_get_set_same.
    + rewrite groups_get_set_other by exact Hkl.
      apply nth_error_snoc_inv in Hj as [[_ Hj]|[_ ->]];
        [eapply Hlabel; eassumption | contradiction].
  - intros k0 g0 Hg0.
    destruct (list_eq_dec N.eq_dec k k0) as [<-|Hkk].
    + rewrite groups_get_set_same in Hg0. injection Hg0 as <-. simpl.
      split; [now destruct (group_verses g)|].
      split.
      { apply NoDup_app; [exact Hnd | repeat constructor; intros [] |].
        intros v Hv [<-|[]]. apply Hin in Hv. apply nth_error_lt in Hv. lia. }
      split.
      { intros v Hv. apply in_app_or in Hv as [Hv|[<-|[]]].
        - apply nth_error_snoc_old. now apply Hin.
        - rewrite <- Hlen. apply nth_error_snoc_new. }
      intros _. now apply updateGroupType_not_none.
    + rewrite groups_get_set_other in Hg0 by exact Hkk.
      destruct (Hgroup _ _ Hg0) as [Hne0 [Hnd0 [Hin0 Htype0]]].
      repeat split; try assumption.
      intros v Hv. apply nth_error_snoc_old. now apply Hin0.
  - intros v l Hv.
    apply nth_error_snoc_inv in Hv as [[Hvlt Hv]|[-> ->]].
    + destruct (Hmember _ _ Hv) as [[g0 [Hg0 Hv0]]|[u [Hu Hul]]].
      * left. destruct (list_eq_dec N.eq_dec k l) as [->|Hkl].
        -- rewrite groups_get_set_same. eexists. split; [reflexivity|].
           simpl. apply in_or_app. left. congruence.
        -- rewrite groups_get_set_other by exact Hkl. eauto.
      * right. exists u. split; [exact Hu|]. now apply nth_error_snoc_old.
    + left. rewrite groups_get_set_same. eexists. split; [reflexivity|].
      simpl. apply in_or_app. right. rewrite Hlen. now left.
Qed.

(** A verse that opens a group keeps the tables in order. *)
Lemma open_tables_ok : forall st n,
  tables_ok st n ->
  tables_ok
    {| rhymeGroups :=
         groups_set (fromCharCode (65 + currentRhymeIndex st))
                    {| group_verses := [n]; group_type := none |}
                    (rhymeGroups st);
       rhymeIndices := rhymeIndices st ++ [fromCharCode (65 + currentRhymeIndex st)];
       currentRhymeIndex := (currentRhymeIndex st + 1)%N |}
    (S n).
Proof.
  intros st n [Hlen Hunits Hlabel Hgroup Hmember].
  set (L := fromCharCode (65 + currentRhymeIndex st)).
  constructor; simpl.
  - rewrite length_app. simpl. lia.
  - apply Forall_app. split; [exact Hunits|]. repeat constructor.
  - intros j l Hj.
    destruct (list_eq_dec N.eq_dec L l) as [<-|Hkl].
    + eexists. apply groups_get_set_same.
    + rewrite groups_get_set_other by exact Hkl.
      apply nth_error_snoc_inv in Hj as [[_ Hj]|[_ ->]];
        [eapply Hlabel; eassumption | contradiction].
  - intros k0 g0 Hg0.
    destruct (list_eq_dec N.eq_dec L k0) as [<-|Hkk].
    + rewrite groups_get_set_same in Hg0. injection Hg0 as <-. simpl.
      split; [discriminate|].
      split; [repeat constructor; intros []|].
      split; [|lia].
      intros v [<-|[]]. rewrite <- Hlen. apply nth_error_snoc_new.
    + rewrite groups_get_set_other in Hg0 by exact Hkk.
      destruct (Hgroup _ _ Hg0) as [Hne0 [Hnd0 [Hin0 Htype0]]].
      repeat split; try assumption.
      intros v Hv. apply nth_error_snoc_old. now apply Hin0.
  - intros v l Hv.
    apply nth_error_snoc_inv in Hv as [[Hvlt Hv]|[-> ->]].
    + destruct (list_eq_dec N.eq_dec L l) as [<-|Hkl].
      * right. exists n. split; [lia|]. rewrite <- Hlen.
        apply nth_error_snoc_new.
      * destruct (Hmember _ _ Hv) as [[g0 [Hg0 Hv0]]|[u [Hu Hul]]].
        -- left. rewrite groups_get_set_other by exact Hkl. eauto.
        -- right. exists u. split; [exact Hu|]. now apply nth_error_snoc_old.
    + left. rewrite groups_get_set_same. eexists. split; [reflexivity|].
      simpl. left. now symmetry.
Qed.

Lemma first_match_lt : forall previous v i,
  first_match previous v = Some i -> i < List.length previous.
Proof.
  induction previous as [|p rest IH]; intros v i H; simpl in H; [discriminate|].
  destruct (joins p v).
  - injection H as <-. simpl. lia.
  - destruct (first_match rest v) as [j|] eqn:E; [|discriminate].
    injection H as <-. simpl. apply IH in E. lia.
Qed.

(** One verse: the tables stay in order, the verse gets the label that is
    added to [rhymeIndices], and that label is the one of the first verse it
    joins, or a new one. *)
Lemma group_verse_spec : forall done verse st verse' st',
  tables_ok st (List.length done) ->
  group_verse done verse st = Ok (verse', st') ->
  tables_ok st' (S (List.length done)) /\
  exists l,
    verse' = set_rhyme_index l verse /\
    rhymeIndices st' = (rhymeIndices st ++ [l])%list /\
    match first_match done verse with
    | Some i =>
        nth_error (rhymeIndices st) i = Some l /\
        currentRhymeIndex st' = currentRhymeIndex st
    | None =>
        l = fromCharCode (65 + currentRhymeIndex st) /\
        currentRhymeIndex st' = (currentRhymeIndex st + 1)%N
    end.
Proof.
  intros done verse st verse' st' Hok Hstep. unfold group_verse in Hstep.
  destruct (scan_previous done 0 verse) as [found|] eqn:Hscan;
    simpl in Hstep; [|discriminate].
  apply scan_previous_spec in Hscan.
  destruct found as [[i t]|].
  - destruct Hscan as [_ [Hfm [_ Ht]]]. rewrite Nat.sub_0_r in Hfm.
    destruct (nth_error (rhymeIndices st) i) as [k|] eqn:Hi; [|discriminate].
    destruct (groups_get k (rhymeGroups st)) as [g|] eqn:Hg; [|discriminate].
    injection Hstep as <- <-. split.
    + eapply join_tables_ok; eassumption.
    + exists k. rewrite Hfm. simpl. auto.
  - injection Hstep as <- <-. split.
    + now apply open_tables_ok.
    + eexists. rewrite Hscan. simpl. auto.
Qed.

Lemma group_loop_spec : forall todo done st vs1 st1,
  tables_ok st (List.length done) ->
  group_loop todo done st = Ok (vs1, st1) ->
  tables_ok st1 (List.length done + List.length todo) /\
  exists ls,
    List.length ls = List.length todo /\
    rhymeIndices st1 = (rhymeIndices st ++ ls)%list /\
    vs1 = (done ++ map (fun lv => set_rhyme_index (fst lv) (snd lv))
                       (combine ls todo))%list.
Proof.
  induction todo as [|verse rest IH]; intros done st vs1 st1 Hok Hloop;
    simpl in Hloop.
  - injection Hloop as <- <-. rewrite Nat.add_0_r. split; [exact Hok|].
    exists []. simpl. now rewrite !app_nil_r.
  - destruct (group_verse done verse st) as [[verse' st']|] eqn:Hstep;
      simpl in Hloop; [|discriminate].
    destruct (group_verse_spec _ _ _ _ _ Hok Hstep) as [Hok' [l [-> [Hri _]]]].
    assert (Hlen : List.length (done ++ [set_rhyme_index l verse])%list
                   = S (List.length done))
      by (rewrite length_app; simpl; lia).
    rewrite <- Hlen in Hok'.
    destruct (IH _ _ _ _ Hok' Hloop) as [Hok1 [ls [Hls [Hri1 Hvs1]]]].
    split.
    + rewrite Hlen in Hok1. simpl. now rewrite Nat.add_succ_r.
    + exists (l :: ls). simpl. split; [now rewrite Hls|].
      split.
      * rewrite Hri1, Hri. now rewrite <- app_assoc.
      * rewrite Hvs1. now rewrite <- app_assoc.
Qed.

(* ================================================================= *)
(** ** Finalization *)

Lemma set_rhyme_type_same : forall v, v = set_rhyme_type (rhyme_type v) v.
Proof. now intros []. Qed.

Lemma retyped_refl : forall vs, retyped vs vs.
Proof.
  induction vs as [|v vs IH]; constructor; [apply set_rhyme_type_same | exact IH].
Qed.

Lemma retyped_trans : forall a b c, retyped a b -> retyped b c -> retyped a c.
Proof.
  intros a b c Hab. revert c. induction Hab as [|x y a b Hxy Hab IH];
    intros c Hbc; inversion Hbc as [|y' z b' c' Hyz Hbc']; subst.
  - constructor.
  - constructor; [|now apply IH].
    rewrite Hyz at 1. rewrite Hxy. reflexivity.
Qed.

Lemma retyped_length : forall a b, retyped a b -> List.length b = List.length a.
Proof. intros a b H. symmetry. exact (Forall2_length H). Qed.

Lemma retyped_rhyme_index : forall a b,
  retyped a b -> map rhyme_index b = map rhyme_index a.
Proof.
  intros a b H. induction H as [|x y a b Hxy Hab IH]; [reflexivity|].
  simpl. rewrite IH, Hxy. reflexivity.
Qed.

Lemma retyped_text : forall a b, retyped a b -> map text b = map text a.
Proof.
  intros a b H. induction H as [|x y a b Hxy Hab IH]; [reflexivity|].
  simpl. rewrite IH, Hxy. reflexivity.
Qed.

Lemma retyped_nth : forall a b j v,
  retyped a b -> nth_error a j = Some v ->
  exists v', nth_error b j = Some v' /\ v' = set_rhyme_type (rhyme_type v') v.
Proof.
  intros a b j v H. revert j. induction H as [|x y a b Hxy Hab IH]; intros j Hj.
  - destruct j; discriminate Hj.
  - destruct j as [|j]; simpl in *.
    + injection Hj as <-. eauto.
    + now apply IH.
Qed.

Lemma assign_type_spec : forall vs ft i vs',
  assign_type ft i vs = Ok vs' ->
  retyped vs vs' /\
  (forall v', nth_error vs' i = Some v' -> rhyme_type v' = ft) /\
  (forall j, j <> i -> nth_error vs' j = nth_error vs j).
Proof.
  induction vs as [|v vs IH]; intros ft i vs' H;
    [destruct i; discriminate H|].
  destruct i as [|i]; simpl in H.
  - injection H as <-. split.
    + constructor; [reflexivity | apply retyped_refl].
    + split.
      * intros v' Hv'. simpl in Hv'. now injection Hv' as <-.
      * intros [|j] Hj; [contradiction | reflexivity].
  - destruct (assign_type ft i vs) as [rest'|] eqn:E; simpl in H; [|discriminate].
    injection H as <-. destruct (IH _ _ _ E) as [Hr [Hi Hother]]. split.
    + constructor; [apply set_rhyme_type_same | exact Hr].
    + split.
      * intros v' Hv'. simpl in Hv'. now apply Hi.
      * intros [|j] Hj; [reflexivity|]. simpl. apply Hother. lia.
Qed.

Lemma assign_type_total : forall vs ft i,
  i < List.length vs -> exists vs', assign_type ft i vs = Ok vs'.
Proof.
  induction vs as [|v vs IH]; intros ft i Hi; simpl in Hi; [lia|].
  destruct i as [|i]; simpl; [eauto|].
  destruct (IH ft i) as [rest' ->]; [lia|]. simpl. eauto.
Qed.

Lemma assign_all_spec : forall members ft vs vs',
  assign_all ft members vs = Ok vs' ->
  retyped vs vs' /\
  (forall j v', In j members -> nth_error vs' j = Some v' -> rhyme_type v' = ft) /\
  (forall j, ~ In j members -> nth_error vs' j = nth_error vs j).
Proof.
  induction members as [|m members IH]; intros ft vs vs' H; simpl in H.
  - injection H as <-. split; [apply retyped_refl|]. split.
    + intros j v' [].
    + reflexivity.
  - destruct (assign_type ft m vs) as [vs1|] eqn:E; simpl in H; [|discriminate].
    destruct (assign_type_spec _ _ _ _ E) as [Hr1 [Hm Hother1]].
    destruct (IH _ _ _ H) as [Hr2 [Hin Hother2]].
    split; [eapply retyped_trans; eassumption|]. split.
    + intros j v' Hj Hv'.
      destruct (in_dec Nat.eq_dec j members) as [Hjm|Hjm].
      * eapply Hin; eassumption.
      * destruct Hj as [<-|Hj]; [|contradiction].
        rewrite Hother2 in Hv' by exact Hjm. now apply Hm.
    + intros j Hj. rewrite Hother2 by (intro; apply Hj; now right).
      apply Hother1. intros ->. apply Hj. now left.
Qed.

Lemma assign_all_total : forall members ft vs,
  (forall m, In m members -> m < List.length vs) ->
  exists vs', assign_all ft members vs = Ok vs'.
Proof.
  induction members as [|m members IH]; intros ft vs Hlt; simpl; [eauto|].
  destruct (assign_type_total vs ft m) as [vs1 E]; [apply Hlt; now left|].
  rewrite E. simpl.
  destruct (assign_type_spec _ _ _ _ E) as [Hr _].
  apply IH. intros m' Hm'. rewrite (retyped_length _ _ Hr). apply Hlt. now right.
Qed.

(** The verses after the finalization pass over [keys], when no verse is a
    member of two groups. *)
Lemma finalize_spec : forall keys t vs vs',
  (forall k g k' g' j,
     groups_get k t = Some g -> groups_get k' t = Some g' ->
     In j (group_verses g) -> In j (group_verses g') -> k = k') ->
  finalize keys t vs = Ok vs' ->
  retyped vs vs' /\
  forall j v', nth_error vs' j = Some v' ->
    (nth_error vs j = Some v' \/
     exists k g, In k keys /\ groups_get k t = Some g /\
                 In j (group_verses g) /\ rhyme_type v' = finalType_of g) /\
    (forall k g, In k keys -> groups_get k t = Some g ->
                 In j (group_verses g) -> rhyme_type v' = finalType_of g).
Proof.
  induction keys as [|k keys IH]; intros t vs vs' Huniq H; simpl in H.
  - injection H as <-. split; [apply retyped_refl|].
    intros j v' Hv'. split; [now left|]. intros k g [].
  - destruct (groups_get k t) as [g|] eqn:Hg; [|discriminate].
    destruct (assign_all (finalType_of g) (group_verses g) vs) as [vs1|] eqn:E;
      simpl in H; [|discriminate].
    destruct (assign_all_spec _ _ _ _ E) as [Hr1 [Hin1 Hother1]].
    destruct (IH _ _ _ Huniq H) as [Hr2 Hpoint].
    split; [eapply retyped_trans; eassumption|].
    intros j v' Hv'. destruct (Hpoint _ _ Hv') as [Hcases Hall].
    assert (Hk : In j (group_verses g) -> rhyme_type v' = finalType_of g).
    { intro Hj. destruct Hcases as [Hsame|[k' [g' [Hk' [Hg' [Hj' Ht]]]]]].
      - eapply Hin1; eassumption.
      - assert (k = k') by (eapply Huniq; eassumption). subst k'.
        congruence. }
    split.
    + destruct Hcases as [Hsame|[k' [g' [Hk' [Hg' [Hj' Ht]]]]]].
      * destruct (in_dec Nat.eq_dec j (group_verses g)) as [Hj|Hj].
        -- right. exists k, g. repeat split; auto. now left.
        -- left. now rewrite <- Hother1.
      * right. exists k', g'. repeat split; auto. now right.
    + intros k0 g0 [<-|Hk0] Hg0 Hj0.
      * assert (g0 = g) by congruence. subst g0. now apply Hk.
      * eapply Hall; eassumption.
Qed.

Lemma finalize_total : forall keys t vs,
  (forall k, In k keys -> exists g, groups_get k t = Some g) ->
  (forall k g m, groups_get k t = Some g -> In m (group_verses g) ->
                 m < List.length vs) ->
  exists vs', finalize keys t vs = Ok vs'.
Proof.
  induction keys as [|k keys IH]; intros t vs Hkeys Hlt; simpl; [eauto|].
  destruct (Hkeys k) as [g Hg]; [now left|]. rewrite Hg.
  destruct (assign_all_total (group_verses g) (finalType_of g) vs) as [vs1 E].
  { intros m Hm. eapply Hlt; eassumption. }
  rewrite E. simpl.
  destruct (assign_all_spec _ _ _ _ E) as [Hr _].
  apply IH.
  - intros k' Hk'. apply Hkeys. now right.
  - intros k' g' m Hg' Hm. rewrite (retyped_length _ _ Hr). eapply Hlt; eassumption.
Qed.

(* ----------------------------------------------------------------- *)
(** The keys of the table *)

Lemma groups_get_In : forall k t g,
  groups_get k t = Some g -> In k (map fst t).
Proof.
  intros k t g. induction t as [|[k' g'] t IH]; simpl; [discriminate|].
  destruct (code_units_eqb k k') eqn:E.
  - intros _. left. apply code_units_eqb_eq in E. now subst.
  - intro H. right. now apply IH.
Qed.

Lemma In_groups_get : forall k t,
  In k (map fst t) -> exists g, groups_get k t = Some g.
Proof.
  intros k t. induction t as [|[k' g'] t IH]; simpl; [intros []|].
  destruct (code_units_eqb k k') eqn:E; [eauto|].
  intros [->|H]; [|now apply IH].
  rewrite code_units_eqb_refl in E. discriminate.
Qed.

Lemma object_keys_complete : forall t k g,
  groups_get k t = Some g -> In k (object_keys t).
Proof.
  intros t k g Hg. unfold object_keys. apply in_or_app.
  destruct (is_index_key k) eqn:Hidx.
  - left. apply filter_In. split; [|now rewrite Hg].
    destruct k as [|d [|]]; simpl in Hidx; try discriminate.
    apply andb_true_iff in Hidx as [Hlo Hhi].
    apply N.leb_le in Hlo. apply N.leb_le in Hhi.
    assert (Hd : In d [48; 49; 50; 51; 52; 53; 54; 55; 56; 57]%N).
    { simpl. lia. }
    apply (in_map (fun d => [d])) in Hd. exact Hd.
  - right. apply filter_In. split; [eapply groups_get_In; eassumption|].
    now rewrite Hidx.
Qed.

Lemma object_keys_sound : forall t k,
  In k (object_keys t) -> exists g, groups_get k t = Some g.
Proof.
  intros t k Hk. unfold object_keys in Hk. apply in_app_or in Hk as [Hk|Hk];
    apply filter_In in Hk as [Hin Hf].
  - destruct (groups_get k t) as [g|]; [eauto|discriminate].
  - now apply In_groups_get.
Qed.

(* ================================================================= *)
(** ** Labels and grouping decisions *)

Lemma combine_snoc : forall (A B : Type) (la : list A) (lb : list B) a b,
  List.length la = List.length lb ->
  combine (la ++ [a]) (lb ++ [b]) = (combine la lb ++ [(a, b)])%list.
Proof.
  intros A B la. induction la as [|x la IH]; intros [|y lb] a b H;
    simpl in *; try discriminate; [reflexivity|].
  f_equal. apply IH. lia.
Qed.

Lemma labelled_snoc : forall ls vs l v,
  List.length ls = List.length vs ->
  labelled (ls ++ [l]) (vs ++ [v]) = (labelled ls vs ++ [set_rhyme_index l v])%list.
Proof.
  intros ls vs l v H. unfold labelled.
  rewrite combine_snoc by exact H. now rewrite map_app.
Qed.

Lemma labelled_length : forall ls vs,
  List.length ls = List.length vs ->
  List.length (labelled ls vs) = List.length vs.
Proof.
  intros ls vs H. unfold labelled. rewrite length_map, length_combine. lia.
Qed.

Lemma labelled_text : forall ls vs,
  List.length ls = List.length vs -> map text (labelled ls vs) = map text vs.
Proof.
  induction ls as [|l ls IH]; intros [|v vs] H; simpl in *; try discriminate;
    [reflexivity|].
  f_equal. apply IH. lia.
Qed.

Lemma labelled_rhyme_index : forall ls vs,
  List.length ls = List.length vs -> map rhyme_index (labelled ls vs) = ls.
Proof.
  induction ls as [|l ls IH]; intros [|v vs] H; simpl in *; try discriminate;
    [reflexivity|].
  f_equal. apply IH. lia.
Qed.

Lemma labelled_rhyme_type : forall ls vs,
  List.length ls = List.length vs ->
  map rhyme_type (labelled ls vs) = map rhyme_type vs.
Proof.
  induction ls as [|l ls IH]; intros [|v vs] H; simpl in *; try discriminate;
    [reflexivity|].
  f_equal. apply IH. lia.
Qed.

Lemma first_match_text : forall l l' v,
  map text l = map text l' -> first_match l v = first_match l' v.
Proof.
  induction l as [|p l IH]; intros [|p' l'] v H; simpl in H; try discriminate;
    [reflexivity|].
  injection H as Hp Hl. simpl. unfold joins. rewrite Hp.
  now rewrite (IH l' v Hl).
Qed.

Lemma first_match_app : forall a b v,
  first_match (a ++ b) v =
  match first_match a v with
  | Some i => Some i
  | None => option_map (Nat.add (List.length a)) (first_match b v)
  end.
Proof.
  induction a as [|p a IH]; intros b v; simpl.
  - now destruct (first_match b v).
  - destruct (joins p v); [reflexivity|].
    rewrite IH. destruct (first_match a v); [reflexivity|].
    now destruct (first_match b v).
Qed.

Lemma openers_length : forall todo done,
  List.length (openers done todo) = List.length todo.
Proof.
  induction todo as [|v rest IH]; intro done; simpl; [reflexivity|].
  now rewrite IH.
Qed.

Lemma openers_app : forall a b done,
  openers done (a ++ b) = (openers done a ++ openers (done ++ a) b)%list.
Proof.
  induction a as [|v a IH]; intros b done; simpl.
  - now rewrite app_nil_r.
  - rewrite IH. now rewrite <- app_assoc.
Qed.

Lemma firstn_app_le : forall (A : Type) (a b : list A) j,
  j <= List.length a -> firstn j (a ++ b) = firstn j a.
Proof.
  intros A a b j H. rewrite firstn_app.
  replace (j - List.length a) with 0 by lia. simpl. apply app_nil_r.
Qed.

Lemma openers_before_snoc_old : forall pre v j,
  j <= List.length pre ->
  openers_before (pre ++ [v]) j = openers_before pre j.
Proof.
  intros pre v j H. unfold openers_before. rewrite openers_app.
  rewrite firstn_app_le by (rewrite openers_length; exact H). reflexivity.
Qed.

Lemma openers_before_snoc_new : forall pre v,
  openers_before (pre ++ [v]) (S (List.length pre)) =
  openers_before pre (List.length pre)
  + match first_match pre v with None => 1 | Some _ => 0 end.
Proof.
  intros pre v. unfold openers_before. rewrite openers_app.
  rewrite !firstn_all2
    by (rewrite ?length_app, ?openers_length; simpl; lia).
  rewrite filter_app, length_app. simpl.
  now destruct (first_match pre v).
Qed.

Lemma initial_grouping_inv : grouping_inv [] [] initial_state.
Proof.
  constructor; simpl.
  - reflexivity.
  - apply initial_tables_ok.
  - reflexivity.
  - intros [|j] v H; discriminate H.
Qed.

(** One verse keeps the invariant. *)
Lemma group_verse_inv : forall pre done st verse verse' st',
  grouping_inv pre done st ->
  group_verse done verse st = Ok (verse', st') ->
  grouping_inv (pre ++ [verse]) (done ++ [verse']) st'.
Proof.
  intros pre done st verse verse' st' [Hdone Hok Hcur Hfollow] Hstep.
  pose proof (ok_length _ _ Hok) as Hlen.
  assert (Hdlen : List.length done = List.length pre).
  { rewrite Hdone. now apply labelled_length. }
  assert (Htext : map text done = map text pre).
  { rewrite Hdone. now apply labelled_text. }
  rewrite <- Hdlen in Hok.
  destruct (group_verse_spec _ _ _ _ _ Hok Hstep) as [Hok' [l [-> [Hri Hl]]]].
  rewrite (first_match_text done pre verse Htext) in Hl.
  constructor.
  - rewrite Hri, Hdone. symmetry. now apply labelled_snoc.
  - rewrite length_app. simpl. rewrite Nat.add_1_r, <- Hdlen. exact Hok'.
  - rewrite length_app. simpl. rewrite Nat.add_1_r.
    rewrite openers_before_snoc_new.
    destruct (first_match pre verse); destruct Hl as [_ ->]; rewrite Hcur; lia.
  - intros j v Hj. rewrite Hri.
    apply nth_error_snoc_inv in Hj as [[Hjlt Hj]|[-> ->]].
    + destruct (Hfollow _ _ Hj) as [lj [Hlj Hm]].
      exists lj. split; [now apply nth_error_snoc_old|].
      rewrite firstn_app_le by lia.
      rewrite openers_before_snoc_old by lia.
      destruct (first_match (firstn j pre) v); [|exact Hm].
      now apply nth_error_snoc_old.
    + exists l. split; [rewrite <- Hlen; apply nth_error_snoc_new|].
      rewrite firstn_app_le by lia. rewrite firstn_all.
      rewrite openers_before_snoc_old by lia.
      destruct (first_match pre verse) as [i|].
      * destruct Hl as [Hi _]. now apply nth_error_snoc_old.
      * destruct Hl as [-> _]. now rewrite Hcur.
Qed.

Lemma group_loop_inv : forall todo pre done st vs1 st1,
  grouping_inv pre done st ->
  group_loop todo done st = Ok (vs1, st1) ->
  grouping_inv (pre ++ todo) vs1 st1.
Proof.
  induction todo as [|verse rest IH]; intros pre done st vs1 st1 Hinv Hloop;
    simpl in Hloop.
  - injection Hloop as <- <-. now rewrite app_nil_r.
  - destruct (group_verse done verse st) as [[verse' st']|] eqn:Hstep;
      simpl in Hloop; [|discriminate].
    pose proof (group_verse_inv _ _ _ _ _ _ Hinv Hstep) as Hinv'.
    specialize (IH _ _ _ _ _ Hinv' Hloop).
    now rewrite <- app_assoc in IH.
Qed.

Lemma group_verses_of_inv : forall vs vs1 st,
  group_verses_of vs = Ok (vs1, st) -> grouping_inv vs vs1 st.
Proof.
  intros vs vs1 st H.
  exact (group_loop_inv vs [] [] initial_state vs1 st initial_grouping_inv H).
Qed.

(** The two halves of [determineRhymePattern]. *)
Lemma determineRhymePattern_inv : forall vs vs' pat,
  determineRhymePattern vs = Ok (vs', pat) ->
  exists vs1 st,
    group_verses_of vs = Ok (vs1, st) /\
    grouping_inv vs vs1 st /\
    retyped vs1 vs' /\
    pat = List.concat (rhymeIndices st) /\
    (vs <> [] ->
     finalize (object_keys (rhymeGroups st)) (rhymeGroups st) vs1 = Ok vs').
Proof.
  intros vs vs' pat H. unfold determineRhymePattern in H.
  destruct vs as [|v vs].
  - simpl in H. injection H as <- <-.
    exists [], initial_state. split; [reflexivity|].
    split; [apply initial_grouping_inv|]. split; [constructor|].
    split; [reflexivity|]. intro Hne. contradiction.
  - cbn [List.length Nat.eqb] in H.
    destruct (group_verses_of (v :: vs)) as [[vs1 st]|] eqn:Hg;
      simpl in H; [|discriminate].
    destruct (finalize (object_keys (rhymeGroups st)) (rhymeGroups st) vs1)
      as [vs2|] eqn:Hf; simpl in H; [|discriminate].
    injection H as <- <-.
    exists vs1, st. split; [reflexivity|].
    pose proof (group_verses_of_inv _ _ _ Hg) as Hinv.
    split; [exact Hinv|].
    split; [|split; [reflexivity | intros _; exact Hf]].
    refine (proj1 (finalize_spec _ _ _ _ _ Hf)).
    intros k g k' g' j Hk Hk' Hj Hj'.
    destruct (ok_group _ _ (inv_tables _ _ _ Hinv) _ _ Hk) as [_ [_ [Hin _]]].
    destruct (ok_group _ _ (inv_tables _ _ _ Hinv) _ _ Hk') as [_ [_ [Hin' _]]].
    specialize (Hin _ Hj). specialize (Hin' _ Hj'). congruence.
Qed.

(* ================================================================= *)
(** ** The verses and the pattern that [determineRhymePattern] leaves *)

Lemma concat_units_length : forall ls : list code_units,
  Forall (fun l : code_units => List.length l = 1) ls ->
  List.length (List.concat ls) = List.length ls.
Proof.
  intros ls H. induction H as [|l ls Hl Hls IH]; [reflexivity|].
  simpl. rewrite length_app, IH, Hl. reflexivity.
Qed.

(** What the call leaves, in terms of the tables of the grouping loop. *)
Lemma determineRhymePattern_result : forall vs vs' pat vs1 st,
  determineRhymePattern vs = Ok (vs', pat) ->
  group_verses_of vs = Ok (vs1, st) ->
  grouping_inv vs vs1 st /\
  List.length vs' = List.length vs /\
  map rhyme_index vs' = rhymeIndices st /\
  map text vs' = map text vs /\
  pat = List.concat (rhymeIndices st) /\
  (forall k g j v',
     groups_get k (rhymeGroups st) = Some g -> In j (group_verses g) ->
     nth_error vs' j = Some v' -> rhyme_type v' = finalType_of g).
Proof.
  intros vs vs' pat vs1 st Hdet Hgrp.
  destruct (determineRhymePattern_inv _ _ _ Hdet)
    as [vs1' [st' [Hgrp' [Hinv [Hret [Hpat Hfin]]]]]].
  rewrite Hgrp in Hgrp'. injection Hgrp' as <- <-.
  pose proof (ok_length _ _ (inv_tables _ _ _ Hinv)) as Hlen.
  split; [exact Hinv|].
  split. { rewrite (retyped_length _ _ Hret), (inv_done _ _ _ Hinv).
           now apply labelled_length. }
  split. { rewrite (retyped_rhyme_index _ _ Hret), (inv_done _ _ _ Hinv).
           now apply labelled_rhyme_index. }
  split. { rewrite (retyped_text _ _ Hret), (inv_done _ _ _ Hinv).
           now apply labelled_text. }
  split; [exact Hpat|].
  intros k g j v' Hk Hj Hv'.
  assert (Hne : vs <> []).
  { intros ->. unfold group_verses_of in Hgrp. simpl in Hgrp.
    injection Hgrp as <- <-. discriminate Hk. }
  specialize (Hfin Hne).
  assert (Huniq : forall k g k' g' j,
             groups_get k (rhymeGroups st) = Some g ->
             groups_get k' (rhymeGroups st) = Some g' ->
             In j (group_verses g) -> In j (group_verses g') -> k = k').
  { intros k0 g0 k1 g1 j0 Hk0 Hk1 Hj0 Hj1.
    destruct (ok_group _ _ (inv_tables _ _ _ Hinv) _ _ Hk0) as [_ [_ [Hin0 _]]].
    destruct (ok_group _ _ (inv_tables _ _ _ Hinv) _ _ Hk1) as [_ [_ [Hin1 _]]].
    specialize (Hin0 _ Hj0). specialize (Hin1 _ Hj1). congruence. }
  destruct (finalize_spec _ _ _ _ Huniq Hfin) as [_ Hpoint].
  destruct (Hpoint _ _ Hv') as [_ Hall].
  eapply Hall; try eassumption.
  eapply object_keys_complete; eassumption.
Qed.

Lemma nth_error_rhyme_index : forall (vs : list Verse) j v,
  nth_error vs j = Some v ->
  nth_error (map rhyme_index vs) j = Some (rhyme_index v).
Proof. intros vs j v H. rewrite nth_error_map, H. reflexivity. Qed.

Lemma nth_error_exists : forall (A : Type) (l : list A) j,
  j < List.length l -> exists a, nth_error l j = Some a.
Proof.
  intros A l j H. destruct (nth_error l j) as [a|] eqn:E; [eauto|].
  apply nth_error_None in E. lia.
Qed.

(* ================================================================= *)
(** ** The pattern of one call *)

(** When [determineRhymePattern] returns, the stanza has as many
    verses as before, every verse carries a label of one code unit, the
    pattern is the concatenation of the verses' [rhyme_index] in verse order,
    and its length is the number of verses. *)
Lemma determine_pattern_labels :
  forall vs vs' pat,
    determineRhymePattern vs = Ok (vs', pat) ->
    List.length vs' = List.length vs /\
    Forall (fun v => List.length (rhyme_index v) = 1) vs' /\
    pat = List.concat (map rhyme_index vs') /\
    List.length pat = List.length vs.
Proof.
  intros vs vs' pat Hdet.
  destruct (determineRhymePattern_inv _ _ _ Hdet) as [vs1 [st [Hgrp _]]].
  destruct (determineRhymePattern_result _ _ _ _ _ Hdet Hgrp)
    as [Hinv [Hlen [Hidx [_ [Hpat _]]]]].
  pose proof (inv_tables _ _ _ Hinv) as Hok.
  split; [exact Hlen|]. split.
  - pose proof (ok_units _ _ Hok) as Hunits. rewrite <- Hidx in Hunits.
    now rewrite Forall_map in Hunits.
  - split; [now rewrite Hidx|].
    rewrite Hpat, concat_units_length by apply (ok_units _ _ Hok).
    apply (ok_length _ _ Hok).
Qed.

(* ================================================================= *)
(** ** Entries of the table with one member *)

Lemma all_equal_singleton : forall (l : list nat) j,
  l <> [] -> NoDup l -> (forall m, In m l -> m = j) -> l = [j].
Proof.
  intros [|a [|b l]] j Hne Hnd Hall; [contradiction| |].
  - f_equal. apply Hall. now left.
  - exfalso. inversion Hnd as [|x l' Hnotin _]; subst. apply Hnotin.
    rewrite (Hall a) by (now left). rewrite (Hall b) by (right; now left).
    now left.
Qed.

(** When [determineRhymePattern] returns, every verse of a group that
    has exactly one member has the empty string as its [rhyme_type].  This
    holds for a group taken as an entry of the table [rhymeGroups], and also
    for a verse whose label no other verse of the stanza carries. *)
Lemma determine_singleton_groups :
  forall vs vs' pat vs1 st,
    determineRhymePattern vs = Ok (vs', pat) ->
    group_verses_of vs = Ok (vs1, st) ->
    (forall k g j,
       groups_get k (rhymeGroups st) = Some g ->
       List.length (group_verses g) = 1 ->
       In j (group_verses g) ->
       exists v', nth_error vs' j = Some v' /\
                  rhyme_index v' = k /\ rhyme_type v' = "") /\
    (forall j v',
       nth_error vs' j = Some v' ->
       (forall i u', nth_error vs' i = Some u' ->
                     rhyme_index u' = rhyme_index v' -> i = j) ->
       rhyme_type v' = "").
Proof.
  intros vs vs' pat vs1 st Hdet Hgrp.
  destruct (determineRhymePattern_result _ _ _ _ _ Hdet Hgrp)
    as [Hinv [Hlen [Hidx [_ [_ Htype]]]]].
  pose proof (inv_tables _ _ _ Hinv) as Hok.
  pose proof (ok_length _ _ Hok) as Hrilen.
  split.
  - intros k g j Hk Hone Hj.
    destruct (ok_group _ _ Hok _ _ Hk) as [_ [_ [Hin _]]].
    pose proof (Hin _ Hj) as Hlabel.
    destruct (nth_error_exists _ vs' j) as [v' Hv'].
    { apply nth_error_lt in Hlabel. lia. }
    exists v'. split; [exact Hv'|]. split.
    + apply nth_error_rhyme_index in Hv'. rewrite Hidx in Hv'. congruence.
    + rewrite (Htype _ _ _ _ Hk Hj Hv'). unfold finalType_of.
      now rewrite Hone.
  - intros j v' Hv' Hunique.
    pose proof (nth_error_rhyme_index _ _ _ Hv') as Hlabel.
    rewrite Hidx in Hlabel.
    assert (Hothers : forall m, nth_error (rhymeIndices st) m
                                = Some (rhyme_index v') -> m = j).
    { intros m Hm. rewrite <- Hidx in Hm. rewrite nth_error_map in Hm.
      destruct (nth_error vs' m) as [u'|] eqn:Hu'; [|discriminate].
      injection Hm as Hm. eapply Hunique; eassumption. }
    destruct (ok_member _ _ Hok _ _ Hlabel) as [[g [Hg Hj]]|[u [Hu Hul]]].
    + destruct (ok_group _ _ Hok _ _ Hg) as [Hne [Hnd [Hin _]]].
      assert (Hmembers : group_verses g = [j]).
      { apply all_equal_singleton; try assumption.
        intros m Hm. apply Hothers. now apply Hin. }
      rewrite (Htype _ _ _ _ Hg Hj Hv'). unfold finalType_of.
      now rewrite Hmembers.
    + apply Hothers in Hul. lia.
Qed.

(* ================================================================= *)
(** ** Entries of the table with two members or more *)

Lemma finalType_of_shared : forall g,
  2 <= List.length (group_verses g) -> group_type g <> none ->
  finalType_of g = relation_name (group_type g) /\
  (finalType_of g = "rhyme" \/ finalType_of g = "assonance"
   \/ finalType_of g = "consonance").
Proof.
  intros g Hlen Htype. unfold finalType_of.
  destruct (Nat.eqb_spec (List.length (group_verses g)) 1) as [E|_]; [lia|].
  destruct (group_type g); simpl; auto. contradiction.
Qed.

Lemma fromCharCode_fresh : forall m c : N,
  (m < c)%N -> (c < 65536)%N ->
  fromCharCode (65 + m) <> fromCharCode (65 + c).
Proof.
  intros m c Hm Hc H. unfold fromCharCode in H.
  assert (Hinj : forall a b : N, [a] = [b] -> a = b)
    by (intros a b E; now injection E).
  apply Hinj in H.
  destruct (N.ltb_spec (65 + c) 65536) as [Hsmall|Hbig].
  - rewrite !N.mod_small in H by lia. lia.
  - assert (Hc' : ((65 + c) mod 65536 = 65 + c - 65536)%N).
    { symmetry. apply (N.mod_unique _ _ 1); lia. }
    rewrite Hc' in H.
    destruct (N.ltb_spec (65 + m) 65536) as [Hsm|Hbm].
    + rewrite N.mod_small in H by lia. lia.
    + assert (Hm' : ((65 + m) mod 65536 = 65 + m - 65536)%N).
      { symmetry. apply (N.mod_unique _ _ 1); lia. }
      rewrite Hm' in H. lia.
Qed.

Lemma initial_labels_fresh : labels_fresh initial_state 0.
Proof.
  constructor; simpl.
  - lia.
  - intros [|i] l H; discriminate H.
  - intros [|v] l H; discriminate H.
Qed.

Lemma group_verse_fresh : forall done verse st verse' st',
  tables_ok st (List.length done) ->
  labels_fresh st (List.length done) ->
  (N.of_nat (List.length done) < 65536)%N ->
  group_verse done verse st = Ok (verse', st') ->
  labels_fresh st' (S (List.length done)).
Proof.
  intros done verse st verse' st' Hok [Hcur Hlabels Hmember] Hsmall Hstep.
  pose proof (ok_length _ _ Hok) as Hlen.
  unfold group_verse in Hstep.
  destruct (scan_previous done 0 verse) as [[[i t]|]|]; simpl in Hstep;
    [| |discriminate].
  - destruct (nth_error (rhymeIndices st) i) as [k|] eqn:Hi; [|discriminate].
    destruct (groups_get k (rhymeGroups st)) as [g|] eqn:Hg; [|discriminate].
    injection Hstep as <- <-. constructor; simpl.
    + lia.
    + intros j l Hj. apply nth_error_snoc_inv in Hj as [[_ Hj]|[_ ->]];
        eapply Hlabels; eassumption.
    + intros v l Hv. apply nth_error_snoc_inv in Hv as [[_ Hv]|[-> ->]].
      * destruct (Hmember _ _ Hv) as [g0 [Hg0 Hv0]].
        destruct (list_eq_dec N.eq_dec k l) as [->|Hkl].
        -- rewrite groups_get_set_same. eexists. split; [reflexivity|].
           simpl. apply in_or_app. left. congruence.
        -- rewrite groups_get_set_other by exact Hkl. eauto.
      * rewrite groups_get_set_same. eexists. split; [reflexivity|].
        simpl. apply in_or_app. right. left. now symmetry.
  - injection Hstep as <- <-. constructor; simpl.
    + lia.
    + intros j l Hj. apply nth_error_snoc_inv in Hj as [[_ Hj]|[_ ->]].
      * destruct (Hlabels _ _ Hj) as [m [Hm ->]]. exists m. split; [lia|reflexivity].
      * exists (currentRhymeIndex st). split; [lia|reflexivity].
    + intros v l Hv. apply nth_error_snoc_inv in Hv as [[_ Hv]|[-> ->]].
      * destruct (Hmember _ _ Hv) as [g0 [Hg0 Hv0]].
        destruct (Hlabels _ _ Hv) as [m [Hm ->]].
        rewrite groups_get_set_other; [eauto|].
        intro E. symmetry in E. revert E. apply fromCharCode_fresh; lia.
      * rewrite groups_get_set_same. eexists. split; [reflexivity|].
        simpl. left. now symmetry.
Qed.

Lemma group_loop_fresh : forall todo pre done st vs1 st1,
  grouping_inv pre done st ->
  labels_fresh st (List.length pre) ->
  (N.of_nat (List.length pre + List.length todo) <= 65536)%N ->
  group_loop todo done st = Ok (vs1, st1) ->
  labels_fresh st1 (List.length pre + List.length todo).
Proof.
  induction todo as [|verse rest IH]; intros pre done st vs1 st1 Hinv Hfresh
    Hsmall Hloop; simpl in Hloop.
  - injection Hloop as <- <-. now rewrite Nat.add_0_r.
  - destruct (group_verse done verse st) as [[verse' st']|] eqn:Hstep;
      simpl in Hloop; [|discriminate].
    pose proof (group_verse_inv _ _ _ _ _ _ Hinv Hstep) as Hinv'.
    pose proof (inv_tables _ _ _ Hinv) as Hok.
    assert (Hdlen : List.length done = List.length pre).
    { rewrite (inv_done _ _ _ Hinv). apply labelled_length.
      apply (ok_length _ _ Hok). }
    simpl in Hsmall.
    rewrite <- Hdlen in Hok, Hfresh.
    assert (Hfresh' : labels_fresh st' (S (List.length done))).
    { eapply group_verse_fresh; try eassumption. lia. }
    rewrite Hdlen in Hfresh'.
    replace (S (List.length pre)) with (List.length (pre ++ [verse])%list)
      in Hfresh' by (rewrite length_app; simpl; lia).
    pose proof (IH _ _ _ vs1 st1 Hinv' Hfresh') as IH'.
    rewrite length_app in IH'. simpl in IH'. cbn [List.length].
    replace (List.length pre + S (List.length rest))
      with (List.length pre + 1 + List.length rest) by lia.
    apply IH'; [lia | exact Hloop].
Qed.

(** When [determineRhymePattern] returns, a group of the table
    [rhymeGroups] that has two members or more has a relation other than
    "none", so its final type is that relation (the branch that would turn
    "none" into "rhyme" is not taken), and each of its verses has
    "rhyme", "assonance" or "consonance" as its [rhyme_type], never "none"
    and never the empty string.  For a stanza of at most 65536 verses no label
    is used for two groups, and the same holds of any two verses that share
    a label. *)
Lemma determine_shared_groups :
  forall vs vs' pat vs1 st,
    determineRhymePattern vs = Ok (vs', pat) ->
    group_verses_of vs = Ok (vs1, st) ->
    (forall k g,
       groups_get k (rhymeGroups st) = Some g ->
       2 <= List.length (group_verses g) ->
       group_type g <> none /\
       finalType_of g = relation_name (group_type g) /\
       forall j, In j (group_verses g) ->
         exists v', nth_error vs' j = Some v' /\ rhyme_index v' = k /\
                    (rhyme_type v' = "rhyme" \/ rhyme_type v' = "assonance"
                     \/ rhyme_type v' = "consonance")) /\
    ((N.of_nat (List.length vs) <= 65536)%N ->
     forall i j u' v',
       i <> j -> nth_error vs' i = Some u' -> nth_error vs' j = Some v' ->
       rhyme_index u' = rhyme_index v' ->
       rhyme_type v' = "rhyme" \/ rhyme_type v' = "assonance"
       \/ rhyme_type v' = "consonance").
Proof.
  intros vs vs' pat vs1 st Hdet Hgrp.
  destruct (determineRhymePattern_result _ _ _ _ _ Hdet Hgrp)
    as [Hinv [Hlen [Hidx [_ [_ Htype]]]]].
  pose proof (inv_tables _ _ _ Hinv) as Hok.
  split.
  - intros k g Hk Htwo.
    destruct (ok_group _ _ Hok _ _ Hk) as [_ [_ [Hin Hnone]]].
    specialize (Hnone Htwo).
    destruct (finalType_of_shared g Htwo Hnone) as [Hfinal Hthree].
    split; [exact Hnone|]. split; [exact Hfinal|].
    intros j Hj. pose proof (Hin _ Hj) as Hlabel.
    destruct (nth_error_exists _ vs' j) as [v' Hv'].
    { apply nth_error_lt in Hlabel. rewrite (ok_length _ _ Hok) in Hlabel. lia. }
    exists v'. split; [exact Hv'|]. split.
    + apply nth_error_rhyme_index in Hv'. rewrite Hidx in Hv'. congruence.
    + now rewrite (Htype _ _ _ _ Hk Hj Hv').
  - intros Hsmall i j u' v' Hij Hu' Hv' Hsame.
    assert (Hfresh : labels_fresh st (List.length vs)).
    { exact (group_loop_fresh vs [] [] initial_state vs1 st
               initial_grouping_inv initial_labels_fresh Hsmall Hgrp). }
    pose proof (nth_error_rhyme_index _ _ _ Hu') as Hli.
    pose proof (nth_error_rhyme_index _ _ _ Hv') as Hlj.
    rewrite Hidx in Hli, Hlj. rewrite Hsame in Hli.
    destruct (fresh_member _ _ Hfresh _ _ Hli) as [g [Hg Hi]].
    destruct (fresh_member _ _ Hfresh _ _ Hlj) as [g' [Hg' Hj]].
    rewrite Hg in Hg'. injection Hg' as <-.
    destruct (ok_group _ _ Hok _ _ Hg) as [_ [Hnd [_ Hnone]]].
    assert (Htwo : 2 <= List.length (group_verses g)).
    { destruct (group_verses g) as [|a [|b l]]; simpl in *;
        [contradiction | | lia].
      destruct Hi as [<-|[]]. destruct Hj as [<-|[]]. contradiction. }
    rewrite (Htype _ _ _ _ Hg Hj Hv').
    now apply finalType_of_shared; [|apply Hnone].
Qed.

(* ================================================================= *)
(** ** Joining, on the verses given to the call *)

Lemma joins_keys : forall p v,
  joins p v =
  match classifyKeys (verse_key p) (verse_key v) with
  | Ok r => rhymes r
  | TypeError => false
  end.
Proof. reflexivity. Qed.

Lemma joins_iff : forall p v,
  joins p v = true <->
  falsy (verse_key p) = false /\ falsy (verse_key v) = false /\
  (isPerfectRhyme (verse_key p) (verse_key v) = Ok true \/
   (isPerfectRhyme (verse_key p) (verse_key v) = Ok false /\
    isAssonance (verse_key p) (verse_key v) = Ok true) \/
   (isPerfectRhyme (verse_key p) (verse_key v) = Ok false /\
    isAssonance (verse_key p) (verse_key v) = Ok false /\
    isConsonance (verse_key p) (verse_key v) = Ok true)).
Proof.
  intros p v. rewrite joins_keys. unfold classifyKeys.
  destruct (falsy (verse_key p)); simpl.
  { split; [discriminate | intros [H _]; discriminate H]. }
  destruct (falsy (verse_key v)); simpl.
  { split; [discriminate | intros [_ [H _]]; discriminate H]. }
  destruct (isPerfectRhyme (verse_key p) (verse_key v)) as [[|]|]; simpl;
    [ split; [intros _; repeat split; pick_stage | reflexivity] | |
      split; [discriminate|];
      intros [_ [_ [H|[[H _]|[H _]]]]]; discriminate H ].
  destruct (isAssonance (verse_key p) (verse_key v)) as [[|]|]; simpl;
    [ split; [intros _; repeat split; pick_stage | reflexivity] | |
      split; [discriminate|];
      intros [_ [_ [H|[[_ H]|[_ [H _]]]]]]; discriminate H ].
  destruct (isConsonance (verse_key p) (verse_key v)) as [[|]|]; simpl;
    [ split; [intros _; repeat split; pick_stage | reflexivity]
    | split; [discriminate|];
      intros [_ [_ [H|[[_ H]|[_ [_ H]]]]]]; discriminate H
    | split; [discriminate|];
      intros [_ [_ [H|[[_ H]|[_ [_ H]]]]]]; discriminate H ].
Qed.

(** The grouping decision is the typed analysis, not the
    broad test.  A verse [v] joins an earlier verse [p] exactly when the keys
    of their last words are both non-empty and are a perfect rhyme (equal, or
    together in an entry of the perfect-rhyme table), or else related in the
    assonance table, or else share a non-empty run of final consonants.  When
    [determineRhymePattern] returns, each verse carries the label of the
    first earlier verse it joins, and a verse that joins none carries the
    next unused label. *)
Lemma determine_follows_typed_analysis :
  (forall p v,
     joins p v = true <->
     falsy (verse_key p) = false /\ falsy (verse_key v) = false /\
     (isPerfectRhyme (verse_key p) (verse_key v) = Ok true \/
      (isPerfectRhyme (verse_key p) (verse_key v) = Ok false /\
       isAssonance (verse_key p) (verse_key v) = Ok true) \/
      (isPerfectRhyme (verse_key p) (verse_key v) = Ok false /\
       isAssonance (verse_key p) (verse_key v) = Ok false /\
       isConsonance (verse_key p) (verse_key v) = Ok true))) /\
  (forall vs vs' pat,
     determineRhymePattern vs = Ok (vs', pat) ->
     forall j v,
       nth_error vs j = Some v ->
       exists v',
         nth_error vs' j = Some v' /\
         match first_match (firstn j vs) v with
         | Some i =>
             i < j /\
             exists p', nth_error vs' i = Some p' /\
                        rhyme_index v' = rhyme_index p'
         | None =>
             rhyme_index v' = fromCharCode (65 + N.of_nat (openers_before vs j))
         end).
Proof.
  split; [exact joins_iff|].
  intros vs vs' pat Hdet j v Hj.
  destruct (determineRhymePattern_inv _ _ _ Hdet) as [vs1 [st [Hgrp _]]].
  destruct (determineRhymePattern_result _ _ _ _ _ Hdet Hgrp)
    as [Hinv [Hlen [Hidx _]]].
  destruct (inv_labels _ _ _ Hinv _ _ Hj) as [l [Hl Hm]].
  rewrite <- Hidx in Hl, Hm. rewrite nth_error_map in Hl.
  destruct (nth_error vs' j) as [v'|] eqn:Hv'; [|discriminate].
  injection Hl as Hl. exists v'. split; [reflexivity|].
  destruct (first_match (firstn j vs) v) as [i|] eqn:Hfm.
  - split.
    { apply first_match_lt in Hfm. rewrite length_firstn in Hfm. lia. }
    rewrite nth_error_map in Hm.
    destruct (nth_error vs' i) as [p'|]; [|discriminate].
    injection Hm as Hm. exists p'. split; [reflexivity|congruence].
  - congruence.
Qed.

(* ================================================================= *)
(** ** Equal keys, on the verses given to the call *)

Lemma joins_same_key : forall p v v',
  verse_key v = verse_key v' -> joins p v = joins p v'.
Proof. intros p v v' H. rewrite !joins_keys. now rewrite H. Qed.

Lemma first_match_same_key : forall l v v',
  verse_key v = verse_key v' -> first_match l v = first_match l v'.
Proof.
  induction l as [|p l IH]; intros v v' H; [reflexivity|].
  simpl. rewrite (joins_same_key p v v' H). now rewrite (IH v v' H).
Qed.

Lemma key_eqb_refl : forall k, key_eqb k k = true.
Proof. intro k. now apply key_eqb_eq. Qed.

Lemma joins_equal_keys : forall p v,
  verse_key p = verse_key v -> falsy (verse_key v) = false -> joins p v = true.
Proof.
  intros p v Hk Hf. rewrite joins_keys, Hk. unfold classifyKeys.
  rewrite Hf. simpl. unfold isPerfectRhyme. now rewrite key_eqb_refl.
Qed.

Lemma firstn_through : forall (A : Type) (l : list A) p j a,
  p < j -> nth_error l p = Some a ->
  exists rest, firstn j l = (firstn p l ++ a :: rest)%list.
Proof.
  intros A l p j a Hpj Hp.
  destruct (nth_error_split l p Hp) as [l1 [l2 [-> Hl1]]].
  exists (firstn (j - S p) l2).
  rewrite !firstn_app, Hl1.
  replace (p - p) with 0 by lia.
  rewrite (firstn_all2 (n := j)) by lia.
  rewrite (firstn_all2 (n := p)) by lia.
  replace (j - p) with (S (j - S p)) by lia.
  simpl. now rewrite app_nil_r.
Qed.

(** When [determineRhymePattern] returns, a verse whose
    last word has the same key as the last word of an earlier verse, that key
    not being the empty string, has the same label as that earlier verse. *)
Lemma determine_same_key :
  forall vs vs' pat p j vp vj vp' vj',
    determineRhymePattern vs = Ok (vs', pat) ->
    p < j ->
    nth_error vs p = Some vp ->
    nth_error vs j = Some vj ->
    verse_key vp = verse_key vj ->
    falsy (verse_key vj) = false ->
    nth_error vs' p = Some vp' ->
    nth_error vs' j = Some vj' ->
    rhyme_index vj' = rhyme_index vp'.
Proof.
  intros vs vs' pat p j vp vj vp' vj' Hdet Hpj Hp Hj Hkey Hfalsy Hp' Hj'.
  destruct (determineRhymePattern_inv _ _ _ Hdet) as [vs1 [st [Hgrp _]]].
  destruct (determineRhymePattern_result _ _ _ _ _ Hdet Hgrp)
    as [Hinv [Hlen [Hidx _]]].
  pose proof (nth_error_rhyme_index _ _ _ Hp') as Hlp.
  pose proof (nth_error_rhyme_index _ _ _ Hj') as Hlj.
  rewrite Hidx in Hlp, Hlj.
  destruct (inv_labels _ _ _ Hinv _ _ Hp) as [lp [Hlp' Hmp]].
  destruct (inv_labels _ _ _ Hinv _ _ Hj) as [lj [Hlj' Hmj]].
  assert (lp = rhyme_index vp') by congruence.
  assert (lj = rhyme_index vj') by congruence.
  subst lp lj.
  destruct (firstn_through _ vs p j vp Hpj Hp) as [rest Hfirst].
  rewrite Hfirst, first_match_app in Hmj.
  rewrite <- (first_match_same_key (firstn p vs) vp vj Hkey) in Hmj.
  destruct (first_match (firstn p vs) vp) as [i|] eqn:Hfm.
  - congruence.
  - simpl in Hmj. rewrite (joins_equal_keys vp vj Hkey Hfalsy) in Hmj.
    simpl in Hmj. rewrite Nat.add_0_r in Hmj.
    assert (Hplen : List.length (firstn p vs) = p).
    { apply firstn_length_le. apply nth_error_lt in Hp. lia. }
    rewrite Hplen in Hmj. congruence.
Qed.

(* ================================================================= *)
(** ** When the analysis returns *)

Lemma length_substring_bound : forall s n m, (length (substring n m s) <= m)%nat.
Proof.
  induction s as [|c r IH]; intros n m.
  - destruct n, m; simpl; lia.
  - destruct n as [|n].
    + destruct m as [|m]; simpl; [lia|]. specialize (IH 0 m). lia.
    + simpl. apply IH.
Qed.

(** A key that is a string has at most four characters, or is a cleaned
    word of at most two. *)
Lemma extract_short : forall w s,
  extractRhymingSyllable w = Val s -> (length s <= 4)%nat.
Proof.
  intros w s. unfold extractRhymingSyllable.
  destruct (w =? ""). { intro H. injection H as <-. simpl. lia. }
  set (cleanWord := str_filter is_word_char (toLowerCase w)).
  unfold get_prop.
  destruct (assoc cleanWord rhyme_specialCases) as [v|] eqn:Hassoc.
  { intro H. injection H as <-. apply assoc_In in Hassoc.
    assert (Hall : forallb (fun e => (length (snd e) <=? 4)%nat)
                     rhyme_specialCases = true) by reflexivity.
    rewrite forallb_forall in Hall. specialize (Hall _ Hassoc).
    now apply Nat.leb_le in Hall. }
  destruct (str_mem cleanWord object_prototype_names); [discriminate|].
  destruct (find (endsWith cleanWord) patterns) as [suffix|] eqn:Hfind.
  { intro H. injection H as <-. apply find_some in Hfind as [Hin _].
    assert (Hall : forallb (fun p => (length p <=? 4)%nat) patterns = true)
      by reflexivity.
    rewrite forallb_forall in Hall. specialize (Hall _ Hin).
    now apply Nat.leb_le in Hall. }
  pose proof (length_substring_bound cleanWord (length cleanWord - 2) 2) as H2.
  pose proof (length_substring_bound cleanWord (length cleanWord - 3) 3) as H3.
  fold (slice_last 2 cleanWord) in H2. fold (slice_last 3 cleanWord) in H3.
  destruct (Nat.leb_spec 3 (length cleanWord)) as [Hge|Hlt].
  - destruct (vowel_consonant_end (slice_last 2 cleanWord));
      [|destruct (4 <=? length cleanWord)%nat]; intro H; injection H as <-; lia.
  - intro H. injection H as <-. lia.
Qed.

Lemma short_not_inherited : forall s,
  (length s <= 4)%nat -> str_mem s object_prototype_names = false.
Proof.
  intros s Hs. destruct (str_mem s object_prototype_names) eqn:E; [|reflexivity].
  apply str_mem_In in E.
  assert (Hall : forallb (fun n => (5 <=? length n)%nat) object_prototype_names
                 = true) by reflexivity.
  rewrite forallb_forall in Hall. specialize (Hall _ E).
  apply Nat.leb_le in Hall. lia.
Qed.

Lemma group_of_array : forall tbl s dflt,
  str_mem s object_prototype_names = false ->
  exists l, group_of tbl (Val s) dflt = Val l.
Proof.
  intros tbl s dflt Hs. unfold group_of, get_prop. rewrite Hs.
  destruct (assoc s tbl); eauto.
Qed.

(** The typed classification of two short string keys returns. *)
Lemma classifyKeys_returns : forall s t,
  (length s <= 4)%nat -> (length t <= 4)%nat ->
  exists r, classifyKeys (Val s) (Val t) = Ok r.
Proof.
  intros s t Hs Ht. apply short_not_inherited in Hs, Ht.
  unfold classifyKeys.
  destruct (falsy (Val s) || falsy (Val t)); [eauto|].
  unfold isPerfectRhyme, isAssonance, isConsonance.
  repeat match goal with
  | |- context [group_of ?tbl (Val s) ?d] =>
      let l := fresh "l" in
      destruct (group_of_array tbl s d Hs) as [l ->]
  | |- context [group_of ?tbl (Val t) ?d] =>
      let l := fresh "l" in
      destruct (group_of_array tbl t d Ht) as [l ->]
  end.
  destruct (key_eqb (Val s) (Val t)); [simpl; eauto|].
  cbn [groups_intersect]. rewrite some_included_array.
  cbn [array_includes bind].
  repeat match goal with
  | |- context [existsb ?f ?l] =>
      destruct (existsb f l); cbn [bind];
      [solve [eexists; reflexivity] | ]
  end.
  cbn [getEndingConsonants bind].
  destruct (_ && _); eexists; reflexivity.
Qed.

Lemma scan_previous_returns : forall previous i verse,
  (forall p, In p previous -> exists s, verse_key p = Val s) ->
  (exists s, verse_key verse = Val s) ->
  exists res, scan_previous previous i verse = Ok res.
Proof.
  induction previous as [|p rest IH]; intros i verse Hprev Hverse; simpl;
    [eauto|].
  destruct (Hprev p (or_introl eq_refl)) as [s Hs].
  destruct Hverse as [t Ht].
  unfold analyzeRhyme. fold (verse_key p). fold (verse_key verse).
  rewrite Hs, Ht.
  destruct (classifyKeys_returns s t) as [r ->].
  { eapply extract_short. exact Hs. }
  { eapply extract_short. exact Ht. }
  simpl. destruct (rhymes r); [eauto|].
  apply IH; [|eauto]. intros q Hq. apply Hprev. now right.
Qed.

Lemma group_verse_returns : forall done verse st,
  tables_ok st (List.length done) ->
  (forall p, In p done -> exists s, verse_key p = Val s) ->
  (exists s, verse_key verse = Val s) ->
  exists r, group_verse done verse st = Ok r.
Proof.
  intros done verse st Hok Hdone Hverse. unfold group_verse.
  destruct (scan_previous_returns done 0 verse Hdone Hverse) as [res Hres].
  rewrite Hres. simpl.
  destruct res as [[i t]|]; [|eauto].
  apply scan_previous_spec in Hres as [_ [_ [Hlt _]]].
  rewrite Nat.sub_0_r in Hlt.
  destruct (nth_error_exists _ (rhymeIndices st) i) as [k Hk].
  { rewrite (ok_length _ _ Hok). exact Hlt. }
  rewrite Hk. destruct (ok_label _ _ Hok _ _ Hk) as [g ->]. eauto.
Qed.

Lemma verse_key_set_rhyme_index : forall l v,
  verse_key (set_rhyme_index l v) = verse_key v.
Proof. reflexivity. Qed.

Lemma group_loop_returns : forall todo pre done st,
  grouping_inv pre done st ->
  (forall p, In p done -> exists s, verse_key p = Val s) ->
  (forall p, In p todo -> exists s, verse_key p = Val s) ->
  exists r, group_loop todo done st = Ok r.
Proof.
  induction todo as [|verse rest IH]; intros pre done st Hinv Hdone Htodo;
    simpl; [eauto|].
  pose proof (inv_tables _ _ _ Hinv) as Hok.
  assert (Hdlen : List.length done = List.length pre).
  { rewrite (inv_done _ _ _ Hinv). apply labelled_length.
    apply (ok_length _ _ Hok). }
  rewrite <- Hdlen in Hok.
  destruct (group_verse_returns done verse st Hok Hdone) as [[verse' st'] Hstep].
  { apply Htodo. now left. }
  rewrite Hstep. simpl.
  pose proof (group_verse_inv _ _ _ _ _ _ Hinv Hstep) as Hinv'.
  apply (IH _ _ _ Hinv').
  - intros p Hp. apply in_app_or in Hp as [Hp|[<-|[]]]; [now apply Hdone|].
    destruct (group_verse_spec _ _ _ _ _ Hok Hstep) as [_ [l [-> _]]].
    rewrite verse_key_set_rhyme_index. apply Htodo. now left.
  - intros p Hp. apply Htodo. now right.
Qed.

(** [determineRhymePattern] returns on every stanza in which the key of each
    last word is a string, that is, in which no last word reduces to the name
    of a property of [Object.prototype]. *)
Lemma determineRhymePattern_returns : forall vs,
  (forall v, In v vs -> exists s, verse_key v = Val s) ->
  exists vs' pat, determineRhymePattern vs = Ok (vs', pat).
Proof.
  intros vs Hkeys. unfold determineRhymePattern.
  destruct vs as [|v vs]; [simpl; eauto|].
  cbn [List.length Nat.eqb].
  destruct (group_loop_returns (v :: vs) [] [] initial_state
              initial_grouping_inv) as [[vs1 st] Hgrp].
  { intros p []. }
  { exact Hkeys. }
  unfold group_verses_of. rewrite Hgrp. simpl.
  pose proof (group_verses_of_inv _ _ _ Hgrp) as Hinv.
  pose proof (inv_tables _ _ _ Hinv) as Hok.
  destruct (finalize_total (object_keys (rhymeGroups st)) (rhymeGroups st) vs1)
    as [vs2 Hfin].
  - apply object_keys_sound.
  - intros k g m Hg Hm.
    destruct (ok_group _ _ Hok _ _ Hg) as [_ [_ [Hin _]]].
    apply Hin in Hm. apply nth_error_lt in Hm.
    rewrite (inv_done _ _ _ Hinv), labelled_length by apply (ok_length _ _ Hok).
    rewrite (ok_length _ _ Hok) in Hm. exact Hm.
  - rewrite Hfin. simpl. eauto.
Qed.

(* ================================================================= *)
(** ** The broad test and the words of the specification *)

Lemma same_members_In : forall l l' x,
  same_members l l' = true -> (In x l <-> In x l').
Proof.
  intros l l' x H. unfold same_members in H.
  apply andb_true_iff in H as [H1 H2]. rewrite forallb_forall in H1, H2.
  split; intro Hx.
  - apply str_mem_In. now apply H1.
  - apply str_mem_In. now apply H2.
Qed.

Lemma partition_table_own : forall tbl k l,
  partition_table tbl = true -> assoc k tbl = Some l -> In k l.
Proof.
  intros tbl k l Hp Hk. unfold partition_table in Hp.
  rewrite forallb_forall in Hp. apply assoc_In in Hk.
  specialize (Hp _ Hk). cbv beta in Hp. cbn [fst snd] in Hp.
  apply andb_true_iff in Hp as [Hown _]. now apply str_mem_In.
Qed.

Lemma partition_table_member : forall tbl e m,
  partition_table tbl = true -> In e tbl -> In m (snd e) ->
  exists l, assoc m tbl = Some l /\ (forall x, In x l <-> In x (snd e)).
Proof.
  intros tbl e m Hp He Hm. unfold partition_table in Hp.
  rewrite forallb_forall in Hp. specialize (Hp _ He). cbv beta in Hp.
  apply andb_true_iff in Hp as [_ Hmem].
  rewrite forallb_forall in Hmem. specialize (Hmem _ Hm). cbv beta in Hmem.
  destruct (assoc m tbl) as [l|]; [|discriminate].
  exists l. split; [reflexivity|]. intro x. now apply same_members_In.
Qed.

Lemma co_occur_true : forall tbl a b,
  co_occur tbl a b = true <-> exists e, In e tbl /\ In a (snd e) /\ In b (snd e).
Proof.
  intros tbl a b. unfold co_occur. rewrite existsb_exists. split.
  - intros [e [He H]]. apply andb_true_iff in H as [Ha Hb].
    exists e. rewrite <- !str_mem_In. auto.
  - intros [e [He [Ha Hb]]]. exists e. split; [exact He|].
    apply andb_true_iff. rewrite !str_mem_In. auto.
Qed.

(** In a table of classes, [table[a] || [a]] holds [b] exactly when [a] and
    [b] co-occur in an entry, for [a] other than [b]. *)
Lemma includes_co_occur : forall tbl a b,
  partition_table tbl = true ->
  str_mem a object_prototype_names = false ->
  a <> b ->
  array_includes (group_of tbl (Val a) [Val a]) (Val b) = Ok (co_occur tbl a b).
Proof.
  intros tbl a b Hp Ha Hne. unfold group_of, get_prop. rewrite Ha.
  destruct (assoc a tbl) as [la|] eqn:Hassoc; simpl; f_equal.
  - rewrite includes_map_Val. apply eq_true_iff_eq.
    rewrite str_mem_In, co_occur_true. split.
    + intro Hb. exists (a, la). split; [now apply assoc_In|]. simpl.
      split; [eapply partition_table_own; eassumption | exact Hb].
    + intros [e [He [Hae Hbe]]].
      destruct (partition_table_member _ _ _ Hp He Hae) as [l [Hl Hsame]].
      rewrite Hassoc in Hl. injection Hl as <-. now apply Hsame.
  - rewrite orb_false_r.
    assert (Hba : (b =? a) = false) by (apply String.eqb_neq; congruence).
    rewrite Hba. symmetry.
    destruct (co_occur tbl a b) eqn:Hco; [|reflexivity].
    apply co_occur_true in Hco as [e [He [Hae _]]].
    destruct (partition_table_member _ _ _ Hp He Hae) as [l [Hl _]].
    congruence.
Qed.

(** In a table of classes, [table[a] || [a]] and [table[b] || [b]] have a
    common element exactly when [a] and [b] co-occur in an entry, for [a]
    other than [b]. *)
Lemma intersect_co_occur : forall tbl a b,
  partition_table tbl = true ->
  str_mem a object_prototype_names = false ->
  str_mem b object_prototype_names = false ->
  a <> b ->
  groups_intersect (group_of tbl (Val a) [Val a]) (group_of tbl (Val b) [Val b])
  = Ok (co_occur tbl a b).
Proof.
  intros tbl a b Hp Ha Hb Hne.
  assert (Hab : (a =? b) = false) by now apply String.eqb_neq.
  assert (Hba : (b =? a) = false) by (apply String.eqb_neq; congruence).
  unfold group_of, get_prop. rewrite Ha, Hb.
  destruct (assoc a tbl) as [la|] eqn:Hla;
    destruct (assoc b tbl) as [lb|] eqn:Hlb;
    cbn [groups_intersect]; rewrite some_included_array; f_equal;
    apply eq_true_iff_eq; rewrite co_occur_true.
  - rewrite existsb_exists. split.
    + intros [x [Hx Hxb]]. apply in_map_iff in Hx as [m [<- Hm]].
      rewrite includes_map_Val in Hxb. apply str_mem_In in Hxb.
      exists (a, la). split; [now apply assoc_In|]. simpl.
      split; [eapply partition_table_own; eassumption|].
      destruct (partition_table_member tbl (a, la) m Hp (assoc_In _ _ _ _ Hla) Hm)
        as [lm [Hlm Hsame_a]].
      destruct (partition_table_member tbl (b, lb) m Hp (assoc_In _ _ _ _ Hlb) Hxb)
        as [lm' [Hlm' Hsame_b]].
      rewrite Hlm in Hlm'. injection Hlm' as <-. simpl in *.
      apply Hsame_a. apply Hsame_b.
      eapply partition_table_own; eassumption.
    + intros [e [He [Hae Hbe]]].
      destruct (partition_table_member _ _ _ Hp He Hae) as [l [Hl Hsame]].
      rewrite Hla in Hl. injection Hl as <-.
      exists (Val b). split.
      * apply in_map. now apply Hsame.
      * rewrite includes_map_Val. apply str_mem_In.
        eapply partition_table_own; eassumption.
  - simpl. rewrite existsb_exists. split.
    + intros [x [Hx Hxb]]. apply in_map_iff in Hx as [m [<- Hm]].
      simpl in Hxb. rewrite orb_false_r in Hxb. apply String.eqb_eq in Hxb.
      subst m. exists (a, la). split; [now apply assoc_In|]. simpl.
      split; [eapply partition_table_own; eassumption | exact Hm].
    + intros [e [He [_ Hbe]]].
      destruct (partition_table_member _ _ _ Hp He Hbe) as [l [Hl _]].
      congruence.
  - simpl. rewrite orb_false_r, includes_map_Val, str_mem_In. split.
    + intro Hin. exists (b, lb). split; [now apply assoc_In|]. simpl.
      split; [exact Hin | eapply partition_table_own; eassumption].
    + intros [e [He [Hae _]]].
      destruct (partition_table_member _ _ _ Hp He Hae) as [l [Hl _]].
      congruence.
  - simpl. rewrite Hab. simpl. split; [discriminate|].
    intros [e [He [Hae _]]].
    destruct (partition_table_member _ _ _ Hp He Hae) as [l [Hl _]].
    congruence.
Qed.

Lemma rhymeGroups_table_classes : partition_table rhymeGroups_table = true.
Proof. reflexivity. Qed.

Lemma vowelSimilarity_partition : partition_table vowelSimilarity = true.
Proof. reflexivity. Qed.

Lemma checkAssonance_is_vowel_check : forall k1 k2,
  all_chars is_lower_word k1 = true -> all_chars is_lower_word k2 = true ->
  checkAssonance (Val k1) (Val k2) = Ok (vowel_check_spec k1 k2).
Proof.
  intros k1 k2 H1 H2. unfold checkAssonance, vowel_check_spec. simpl.
  fold (vowel_pattern k1). fold (vowel_pattern k2).
  assert (E1 : vowel_pattern k1 = vowels_only k1).
  { unfold vowel_pattern, vowels_only.
    apply toLowerCase_lower. now apply all_chars_filter. }
  assert (E2 : vowel_pattern k2 = vowels_only k2).
  { unfold vowel_pattern, vowels_only.
    apply toLowerCase_lower. now apply all_chars_filter. }
  pose proof (vowel_pattern_own k1 H1) as Hown. rewrite E1 in Hown.
  rewrite E1, E2.
  destruct (negb (vowels_only k1 =? "") && negb (vowels_only k2 =? ""));
    [|reflexivity].
  destruct (String.eqb_spec (vowels_only k1) (vowels_only k2)) as [|Hne];
    [reflexivity|].
  simpl. now apply includes_co_occur; [apply vowelSimilarity_partition| |].
Qed.

(** On the keys of two words, when these are strings, [wordsRhyme] is the
    broad relation test as the specification words it. *)
Lemma wordsRhyme_is_broad_relation : forall word1 word2 k1 k2,
  extractRhymingSyllable word1 = Val k1 ->
  extractRhymingSyllable word2 = Val k2 ->
  wordsRhyme word1 word2 = Ok (broad_relation_spec k1 k2).
Proof.
  intros word1 word2 k1 k2 H1 H2. unfold wordsRhyme.
  pose proof (extract_lower_key word1) as L1.
  pose proof (extract_lower_key word2) as L2.
  pose proof (short_not_inherited _ (extract_short _ _ H1)) as N1.
  pose proof (short_not_inherited _ (extract_short _ _ H2)) as N2.
  rewrite H1 in L1 |- *. rewrite H2 in L2 |- *. simpl in L1, L2.
  unfold keysRhyme, broad_relation_spec. cbn [falsy key_eqb].
  destruct (k1 =? ""); [reflexivity|]. destruct (k2 =? ""); [reflexivity|].
  cbn [negb andb orb].
  destruct (String.eqb_spec k1 k2) as [|Hne]; [reflexivity|].
  cbn [orb].
  match goal with
  | |- context [groups_intersect ?g1 ?g2] =>
      replace (groups_intersect g1 g2) with (Ok (co_occur rhymeGroups_table k1 k2))
        by (symmetry;
            exact (intersect_co_occur _ _ _ rhymeGroups_table_classes N1 N2 Hne))
  end.
  cbn [bind]. destruct (co_occur rhymeGroups_table k1 k2); [reflexivity|].
  cbn [orb]. now apply checkAssonance_is_vowel_check.
Qed.

Lemma parse_stanzas_returns : forall stanzas stanzaIndex,
  (forall stanzaText k v,
     In stanzaText stanzas -> In v (parseStanzaIntoVerses stanzaText k) ->
     exists s, verse_key v = Val s) ->
  exists parsed, parse_stanzas stanzas stanzaIndex = Ok parsed.
Proof.
  induction stanzas as [|stanzaText rest IH]; intros stanzaIndex Hkeys; simpl;
    [eauto|].
  destruct (determineRhymePattern_returns
              (parseStanzaIntoVerses stanzaText stanzaIndex)) as [vs' [pat ->]].
  { intros v Hv. eapply Hkeys; [now left | exact Hv]. }
  simpl. destruct (IH (S stanzaIndex)) as [parsed' ->].
  { intros t k v Ht Hv. eapply Hkeys; [right; exact Ht | exact Hv]. }
  simpl. eauto.
Qed.

(** [parseLyrics] returns on every text in which no last word of a line
    reduces to the name of a property of [Object.prototype]. *)
Lemma parseLyrics_returns : forall lyrics,
  (forall stanzaText k v,
     In stanzaText (splitIntoStanzas lyrics) ->
     In v (parseStanzaIntoVerses stanzaText k) ->
     exists s, verse_key v = Val s) ->
  exists parsed, parseLyrics lyrics = Ok parsed.
Proof. intros lyrics H. now apply parse_stanzas_returns. Qed.

(* ================================================================= *)
(** ** From the verses of the result *)

Lemma verse_key_text : forall v v', text v = text v' -> verse_key v = verse_key v'.
Proof. intros v v' H. unfold verse_key. now rewrite H. Qed.

Lemma first_match_texts : forall l l' v v',
  map text l = map text l' -> text v = text v' ->
  first_match l v = first_match l' v'.
Proof.
  intros l l' v v' Hl Hv. rewrite (first_match_text l l' v Hl).
  apply first_match_same_key. now apply verse_key_text.
Qed.

Lemma openers_texts : forall todo todo' done done',
  map text done = map text done' -> map text todo = map text todo' ->
  openers done todo = openers done' todo'.
Proof.
  induction todo as [|v rest IH]; intros [|v' rest'] done done' Hd Ht;
    simpl in Ht; try discriminate; [reflexivity|].
  injection Ht as Hv Hrest. simpl.
  rewrite (first_match_texts done done' v v' Hd Hv). f_equal.
  apply IH; [|exact Hrest]. rewrite !map_app. simpl. now rewrite Hd, Hv.
Qed.

Lemma openers_before_texts : forall vs vs' j,
  map text vs = map text vs' -> openers_before vs j = openers_before vs' j.
Proof.
  intros vs vs' j H. unfold openers_before.
  now rewrite (openers_texts vs vs' [] [] eq_refl H).
Qed.

Lemma nth_error_same_text : forall (vs vs' : list Verse) j v',
  map text vs' = map text vs -> nth_error vs' j = Some v' ->
  exists v, nth_error vs j = Some v /\ text v = text v'.
Proof.
  intros vs vs' j v' H Hv'.
  assert (E : nth_error (map text vs) j = Some (text v')).
  { rewrite <- H, nth_error_map, Hv'. reflexivity. }
  rewrite nth_error_map in E.
  destruct (nth_error vs j) as [v|]; [|discriminate].
  injection E as E. eauto.
Qed.

(** The labels of the result follow the grouping decisions taken on the
    verses of the result. *)
Lemma determine_output_labels : forall vs vs' pat,
  determineRhymePattern vs = Ok (vs', pat) ->
  forall j v',
    nth_error vs' j = Some v' ->
    match first_match (firstn j vs') v' with
    | Some i =>
        i < j /\
        exists p', nth_error vs' i = Some p' /\ rhyme_index v' = rhyme_index p'
    | None =>
        rhyme_index v' = fromCharCode (65 + N.of_nat (openers_before vs' j))
    end.
Proof.
  intros vs vs' pat Hdet j v' Hv'.
  destruct (determineRhymePattern_inv _ _ _ Hdet) as [vs1 [st [Hgrp _]]].
  destruct (determineRhymePattern_result _ _ _ _ _ Hdet Hgrp)
    as [_ [_ [_ [Htext _]]]].
  destruct (nth_error_same_text vs vs' j v' Htext Hv') as [v [Hv Hvt]].
  destruct (proj2 determine_follows_typed_analysis vs vs' pat Hdet j v Hv)
    as [w [Hw Hm]].
  rewrite Hv' in Hw. injection Hw as <-.
  rewrite (first_match_texts (firstn j vs') (firstn j vs) v' v).
  - rewrite (openers_before_texts vs' vs j Htext). exact Hm.
  - rewrite <- !firstn_map. now rewrite Htext.
  - now symmetry.
Qed.

Lemma determine_output_same_key : forall vs vs' pat p j vp' vj',
  determineRhymePattern vs = Ok (vs', pat) ->
  p < j ->
  nth_error vs' p = Some vp' ->
  nth_error vs' j = Some vj' ->
  verse_key vp' = verse_key vj' ->
  falsy (verse_key vj') = false ->
  rhyme_index vj' = rhyme_index vp'.
Proof.
  intros vs vs' pat p j vp' vj' Hdet Hpj Hp' Hj' Hkey Hfalsy.
  destruct (determineRhymePattern_inv _ _ _ Hdet) as [vs1 [st [Hgrp _]]].
  destruct (determineRhymePattern_result _ _ _ _ _ Hdet Hgrp)
    as [_ [_ [_ [Htext _]]]].
  destruct (nth_error_same_text vs vs' p vp' Htext Hp') as [vp [Hp Hpt]].
  destruct (nth_error_same_text vs vs' j vj' Htext Hj') as [vj [Hj Hjt]].
  apply (determine_same_key vs vs' pat p j vp vj vp' vj'); try assumption.
  - rewrite (verse_key_text _ _ Hpt), (verse_key_text _ _ Hjt). exact Hkey.
  - now rewrite (verse_key_text _ _ Hjt).
Qed.

(** Every stanza of the result of [parseLyrics] is what
    [determineRhymePattern] left for the verses of some stanza text. *)
Lemma parse_stanzas_origin : forall stanzas stanzaIndex parsed,
  parse_stanzas stanzas stanzaIndex = Ok parsed ->
  forall st, In st parsed ->
    exists stanzaText k,
      determineRhymePattern (parseStanzaIntoVerses stanzaText k)
      = Ok (verses st, rhyme_pattern st).
Proof.
  induction stanzas as [|stanzaText rest IH]; intros stanzaIndex parsed H st Hst;
    simpl in H.
  - injection H as <-. destruct Hst.
  - destruct (determineRhymePattern (parseStanzaIntoVerses stanzaText stanzaIndex))
      as [[vs' pat]|] eqn:Hdet; simpl in H; [|discriminate].
    destruct (parse_stanzas rest (S stanzaIndex)) as [parsed'|] eqn:Hrest;
      simpl in H; [|discriminate].
    injection H as <-. destruct Hst as [<-|Hst].
    + exists stanzaText, stanzaIndex. exact Hdet.
    + eapply IH; eassumption.
Qed.

Lemma parseLyrics_origin : forall lyrics stanzas st,
  parseLyrics lyrics = Ok stanzas -> In st stanzas ->
  exists vs, determineRhymePattern vs = Ok (verses st, rhyme_pattern st).
Proof.
  intros lyrics stanzas st H Hst. unfold parseLyrics in H.
  destruct (parse_stanzas_origin _ _ _ H st Hst) as [stanzaText [k Hdet]].
  eauto.
Qed.

(* ================================================================= *)
(** ** The grouping decision (C1) *)

(** C1, as amended.  The grouping decision is the typed analysis, not the
    broad test.  A verse [v] joins an earlier verse [p] exactly when the keys
    of their last words are both non-empty and are a perfect rhyme (equal, or
    together in an entry of the perfect-rhyme table), or else related in the
    assonance table, or else share a non-empty run of final consonants.  In
    every stanza that [determineRhymePattern] or [parseLyrics] returns, each
    verse carries the label of the first earlier verse it joins, and a verse
    that joins none carries the next unused label. *)
Theorem grouping_follows_typed_analysis :
  (forall p v,
     joins p v = true <->
     falsy (verse_key p) = false /\ falsy (verse_key v) = false /\
     (isPerfectRhyme (verse_key p) (verse_key v) = Ok true \/
      (isPerfectRhyme (verse_key p) (verse_key v) = Ok false /\
       isAssonance (verse_key p) (verse_key v) = Ok true) \/
      (isPerfectRhyme (verse_key p) (verse_key v) = Ok false /\
       isAssonance (verse_key p) (verse_key v) = Ok false /\
       isConsonance (verse_key p) (verse_key v) = Ok true))) /\
  (forall vs vs' pat,
     determineRhymePattern vs = Ok (vs', pat) ->
     forall j v',
       nth_error vs' j = Some v' ->
       match first_match (firstn j vs') v' with
       | Some i =>
           i < j /\
           exists p', nth_error vs' i = Some p' /\
                      rhyme_index v' = rhyme_index p'
       | None =>
           rhyme_index v' = fromCharCode (65 + N.of_nat (openers_before vs' j))
       end) /\
  (forall lyrics stanzas st,
     parseLyrics lyrics = Ok stanzas ->
     In st stanzas ->
     forall j v',
       nth_error (verses st) j = Some v' ->
       match first_match (firstn j (verses st)) v' with
       | Some i =>
           i < j /\
           exists p', nth_error (verses st) i = Some p' /\
                      rhyme_index v' = rhyme_index p'
       | None =>
           rhyme_index v'
           = fromCharCode (65 + N.of_nat (openers_before (verses st) j))
       end).
Proof.
  split; [exact joins_iff|]. split.
  - exact determine_output_labels.
  - intros lyrics stanzas st Hparse Hst.
    destruct (parseLyrics_origin _ _ _ Hparse Hst) as [vs Hdet].
    exact (determine_output_labels _ _ _ Hdet).
Qed.

(* ================================================================= *)
(** ** Verses with the same key (C2) *)

(** C2, as amended.  In every stanza that [determineRhymePattern] or
    [parseLyrics] returns, a verse whose last word has the same key as the
    last word of an earlier verse, that key not being the empty string,
    has the same label as that earlier verse. *)
Theorem same_key_same_label :
  (forall vs vs' pat p j vp' vj',
     determineRhymePattern vs = Ok (vs', pat) ->
     p < j ->
     nth_error vs' p = Some vp' ->
     nth_error vs' j = Some vj' ->
     verse_key vp' = verse_key vj' ->
     falsy (verse_key vj') = false ->
     rhyme_index vj' = rhyme_index vp') /\
  (forall lyrics stanzas st p j vp' vj',
     parseLyrics lyrics = Ok stanzas ->
     In st stanzas ->
     p < j ->
     nth_error (verses st) p = Some vp' ->
     nth_error (verses st) j = Some vj' ->
     verse_key vp' = verse_key vj' ->
     falsy (verse_key vj') = false ->
     rhyme_index vj' = rhyme_index vp').
Proof.
  split; [exact determine_output_same_key|].
  intros lyrics stanzas st p j vp' vj' Hparse Hst.
  destruct (parseLyrics_origin _ _ _ Hparse Hst) as [vs Hdet].
  exact (determine_output_same_key _ _ _ p j vp' vj' Hdet).
Qed.

(* ================================================================= *)
(** ** The rhyme pattern (C9) *)

(** C9.  In every stanza that [determineRhymePattern] or [parseLyrics]
    returns, every verse carries a label of one code unit, the pattern is the
    concatenation of the verses' [rhyme_index] in verse order, and the length
    of the pattern is the number of verses. *)
Theorem pattern_concatenates_labels :
  (forall vs vs' pat,
     determineRhymePattern vs = Ok (vs', pat) ->
     List.length vs' = List.length vs /\
     Forall (fun v => List.length (rhyme_index v) = 1) vs' /\
     pat = List.concat (map rhyme_index vs') /\
     List.length pat = List.length vs) /\
  (forall lyrics stanzas st,
     parseLyrics lyrics = Ok stanzas ->
     In st stanzas ->
     Forall (fun v => List.length (rhyme_index v) = 1) (verses st) /\
     rhyme_pattern st = List.concat (map rhyme_index (verses st)) /\
     List.length (rhyme_pattern st) = List.length (verses st)).
Proof.
  split; [exact determine_pattern_labels|].
  intros lyrics stanzas st Hparse Hst.
  destruct (parseLyrics_origin _ _ _ Hparse Hst) as [vs Hdet].
  destruct (determine_pattern_labels _ _ _ Hdet) as [Hlen [Hunits [Hpat Hplen]]].
  repeat split; try assumption. congruence.
Qed.

(* ================================================================= *)
(** ** Groups of one verse (C4) *)

(** C4.  In every stanza that [determineRhymePattern] or [parseLyrics]
    returns, every verse of a group that has exactly one member has the empty
    string as its [rhyme_type].  This holds for a group taken as an entry of
    the table [rhymeGroups], and for a verse whose label no other verse of
    the stanza carries. *)
Theorem singleton_group_type_is_empty :
  (forall vs vs' pat vs1 st,
     determineRhymePattern vs = Ok (vs', pat) ->
     group_verses_of vs = Ok (vs1, st) ->
     forall k g j,
       groups_get k (rhymeGroups st) = Some g ->
       List.length (group_verses g) = 1 ->
       In j (group_verses g) ->
       exists v', nth_error vs' j = Some v' /\
                  rhyme_index v' = k /\ rhyme_type v' = "") /\
  (forall lyrics stanzas st,
     parseLyrics lyrics = Ok stanzas ->
     In st stanzas ->
     forall j v',
       nth_error (verses st) j = Some v' ->
       (forall i u', nth_error (verses st) i = Some u' ->
                     rhyme_index u' = rhyme_index v' -> i = j) ->
       rhyme_type v' = "").
Proof.
  split.
  - intros vs vs' pat vs1 st Hdet Hgrp.
    exact (proj1 (determine_singleton_groups _ _ _ _ _ Hdet Hgrp)).
  - intros lyrics stanzas st Hparse Hst.
    destruct (parseLyrics_origin _ _ _ Hparse Hst) as [vs Hdet].
    destruct (determineRhymePattern_inv _ _ _ Hdet) as [vs1 [gs [Hgrp _]]].
    exact (proj2 (determine_singleton_groups _ _ _ _ _ Hdet Hgrp)).
Qed.

(* ================================================================= *)
(** ** Groups of two verses or more (C10) *)

(** C10.  When [determineRhymePattern] returns, a group of the table
    [rhymeGroups] that has two members or more has a relation other than
    "none", so its final type is that relation (the branch that would turn
    "none" into "rhyme" is not taken), and each of its verses has "rhyme",
    "assonance" or "consonance" as its [rhyme_type], never "none" and never
    the empty string.  In a stanza of at most 65536 verses that [parseLyrics]
    returns no label is used for two groups, and the same holds of every verse
    that shares its label with another verse. *)
Theorem shared_group_type_is_a_relation :
  (forall vs vs' pat vs1 st,
     determineRhymePattern vs = Ok (vs', pat) ->
     group_verses_of vs = Ok (vs1, st) ->
     forall k g,
       groups_get k (rhymeGroups st) = Some g ->
       2 <= List.length (group_verses g) ->
       group_type g <> none /\
       finalType_of g = relation_name (group_type g) /\
       forall j, In j (group_verses g) ->
         exists v', nth_error vs' j = Some v' /\ rhyme_index v' = k /\
                    (rhyme_type v' = "rhyme" \/ rhyme_type v' = "assonance"
                     \/ rhyme_type v' = "consonance")) /\
  (forall lyrics stanzas st,
     parseLyrics lyrics = Ok stanzas ->
     In st stanzas ->
     (N.of_nat (List.length (verses st)) <= 65536)%N ->
     forall i j u' v',
       i <> j ->
       nth_error (verses st) i = Some u' ->
       nth_error (verses st) j = Some v' ->
       rhyme_index u' = rhyme_index v' ->
       rhyme_type v' = "rhyme" \/ rhyme_type v' = "assonance"
       \/ rhyme_type v' = "consonance").
Proof.
  split.
  - intros vs vs' pat vs1 st Hdet Hgrp.
    exact (proj1 (determine_shared_groups _ _ _ _ _ Hdet Hgrp)).
  - intros lyrics stanzas st Hparse Hst Hsmall.
    destruct (parseLyrics_origin _ _ _ Hparse Hst) as [vs Hdet].
    destruct (determineRhymePattern_inv _ _ _ Hdet) as [vs1 [gs [Hgrp _]]].
    destruct (determine_pattern_labels _ _ _ Hdet) as [Hlen _].
    apply (proj2 (determine_shared_groups _ _ _ _ _ Hdet Hgrp)).
    now rewrite <- Hlen.
Qed.

(* ================================================================= *)
(** ** The statements above on sample stanzas *)

Lemma pattern_concatenates_labels_witness :
  let st := first_stanza cat_lines in
  parseLyrics (text_of_lines cat_lines) = Ok (parsed cat_lines) /\
  In st (parsed cat_lines) /\
  Forall (fun v => List.length (rhyme_index v) = 1) (verses st) /\
  rhyme_pattern st = List.concat (map rhyme_index (verses st)) /\
  List.length (rhyme_pattern st) = List.length (verses st).
Proof.
  intro st.
  assert (Hparse : parseLyrics (text_of_lines cat_lines) = Ok (parsed cat_lines))
    by (vm_compute; reflexivity).
  assert (Hst : In st (parsed cat_lines)) by (vm_compute; left; reflexivity).
  split; [exact Hparse|]. split; [exact Hst|].
  exact (proj2 pattern_concatenates_labels _ _ st Hparse Hst).
Defined.

Lemma singleton_group_type_is_empty_witness :
  let vs := verses_of_lines cat_lines in
  let r := determined cat_lines in
  let t := grouped cat_lines in
  let g := {| group_verses := [0]; group_type := none |} in
  let st := first_stanza cat_lines in
  let v' := nth 1 (verses st) blank_verse in
  determineRhymePattern vs = Ok (fst r, snd r) /\
  group_verses_of vs = Ok (fst t, snd t) /\
  groups_get (units_of "A") (rhymeGroups (snd t)) = Some g /\
  List.length (group_verses g) = 1 /\
  In 0 (group_verses g) /\
  (exists v0, nth_error (fst r) 0 = Some v0 /\
              rhyme_index v0 = units_of "A" /\ rhyme_type v0 = "") /\
  parseLyrics (text_of_lines cat_lines) = Ok (parsed cat_lines) /\
  In st (parsed cat_lines) /\
  nth_error (verses st) 1 = Some v' /\
  (forall i u', nth_error (verses st) i = Some u' ->
                rhyme_index u' = rhyme_index v' -> i = 1) /\
  rhyme_type v' = "".
Proof.
  intros vs r t g st v'.
  assert (Hdet : determineRhymePattern vs = Ok (fst r, snd r))
    by (vm_compute; reflexivity).
  assert (Hgrp : group_verses_of vs = Ok (fst t, snd t))
    by (vm_compute; reflexivity).
  assert (Hg : groups_get (units_of "A") (rhymeGroups (snd t)) = Some g)
    by (vm_compute; reflexivity).
  assert (Hone : List.length (group_verses g) = 1) by reflexivity.
  assert (Hin : In 0 (group_verses g)) by (simpl; auto).
  assert (Hparse : parseLyrics (text_of_lines cat_lines) = Ok (parsed cat_lines))
    by (vm_compute; reflexivity).
  assert (Hst : In st (parsed cat_lines)) by (vm_compute; left; reflexivity).
  assert (Hv' : nth_error (verses st) 1 = Some v') by (vm_compute; reflexivity).
  assert (Hunique : forall i u', nth_error (verses st) i = Some u' ->
             rhyme_index u' = rhyme_index v' -> i = 1).
  { intros i u' Hi Hl.
    do 4 (destruct i as [|i];
          [vm_compute in Hi; injection Hi as <-;
           first [reflexivity | vm_compute in Hl; discriminate Hl]|]).
    vm_compute in Hi. destruct i; discriminate Hi. }
  split; [exact Hdet|]. split; [exact Hgrp|]. split; [exact Hg|].
  split; [exact Hone|]. split; [exact Hin|].
  split.
  - exact (proj1 singleton_group_type_is_empty vs (fst r) (snd r) (fst t) (snd t)
             Hdet Hgrp _ _ _ Hg Hone Hin).
  - split; [exact Hparse|]. split; [exact Hst|]. split; [exact Hv'|].
    split; [exact Hunique|].
    exact (proj2 singleton_group_type_is_empty _ _ st Hparse Hst 1 v' Hv' Hunique).
Defined.

Lemma shared_group_type_is_a_relation_witness :
  let vs := verses_of_lines cat_lines in
  let r := determined cat_lines in
  let t := grouped cat_lines in
  let g := {| group_verses := [2; 3]; group_type := rhyme |} in
  let st := first_stanza cat_lines in
  let u' := nth 2 (verses st) blank_verse in
  let v' := nth 3 (verses st) blank_verse in
  determineRhymePattern vs = Ok (fst r, snd r) /\
  group_verses_of vs = Ok (fst t, snd t) /\
  groups_get (units_of "C") (rhymeGroups (snd t)) = Some g /\
  2 <= List.length (group_verses g) /\
  (exists v3, nth_error (fst r) 3 = Some v3 /\ rhyme_index v3 = units_of "C" /\
              (rhyme_type v3 = "rhyme" \/ rhyme_type v3 = "assonance"
               \/ rhyme_type v3 = "consonance")) /\
  parseLyrics (text_of_lines cat_lines) = Ok (parsed cat_lines) /\
  In st (parsed cat_lines) /\
  (N.of_nat (List.length (verses st)) <= 65536)%N /\
  2 <> 3 /\
  nth_error (verses st) 2 = Some u' /\
  nth_error (verses st) 3 = Some v' /\
  rhyme_index u' = rhyme_index v' /\
  (rhyme_type v' = "rhyme" \/ rhyme_type v' = "assonance"
   \/ rhyme_type v' = "consonance").
Proof.
  intros vs r t g st u' v'.
  assert (Hdet : determineRhymePattern vs = Ok (fst r, snd r))
    by (vm_compute; reflexivity).
  assert (Hgrp : group_verses_of vs = Ok (fst t, snd t))
    by (vm_compute; reflexivity).
  assert (Hg : groups_get (units_of "C") (rhymeGroups (snd t)) = Some g)
    by (vm_compute; reflexivity).
  assert (Htwo : 2 <= List.length (group_verses g)) by (simpl; lia).
  assert (Hparse : parseLyrics (text_of_lines cat_lines) = Ok (parsed cat_lines))
    by (vm_compute; reflexivity).
  assert (Hst : In st (parsed cat_lines)) by (vm_compute; left; reflexivity).
  assert (Hsmall : (N.of_nat (List.length (verses st)) <= 65536)%N)
    by (vm_compute; discriminate).
  assert (Hne : 2 <> 3) by discriminate.
  assert (Hu' : nth_error (verses st) 2 = Some u') by (vm_compute; reflexivity).
  assert (Hv' : nth_error (verses st) 3 = Some v') by (vm_compute; reflexivity).
  assert (Hsame : rhyme_index u' = rhyme_index v') by (vm_compute; reflexivity).
  split; [exact Hdet|]. split; [exact Hgrp|]. split; [exact Hg|].
  split; [exact Htwo|].
  split.
  - destruct (proj1 shared_group_type_is_a_relation vs (fst r) (snd r) (fst t)
                (snd t) Hdet Hgrp _ _ Hg Htwo) as [_ [_ Hmembers]].
    apply Hmembers. right. left. reflexivity.
  - split; [exact Hparse|]. split; [exact Hst|]. split; [exact Hsmall|].
    split; [exact Hne|]. split; [exact Hu'|]. split; [exact Hv'|].
    split; [exact Hsame|].
    exact (proj2 shared_group_type_is_a_relation _ _ st Hparse Hst Hsmall
             2 3 u' v' Hne Hu' Hv' Hsame).
Defined.

Lemma grouping_follows_typed_analysis_witness :
  let st := first_stanza cat_lines in
  let v' := nth 3 (verses st) blank_verse in
  parseLyrics (text_of_lines cat_lines) = Ok (parsed cat_lines) /\
  In st (parsed cat_lines) /\
  nth_error (verses st) 3 = Some v' /\
  first_match (firstn 3 (verses st)) v' = Some 2 /\
  exists p', nth_error (verses st) 2 = Some p' /\
             rhyme_index v' = rhyme_index p'.
Proof.
  intros st v'.
  assert (Hparse : parseLyrics (text_of_lines cat_lines) = Ok (parsed cat_lines))
    by (vm_compute; reflexivity).
  assert (Hst : In st (parsed cat_lines)) by (vm_compute; left; reflexivity).
  assert (Hv' : nth_error (verses st) 3 = Some v') by (vm_compute; reflexivity).
  assert (Hfm : first_match (firstn 3 (verses st)) v' = Some 2)
    by (vm_compute; reflexivity).
  split; [exact Hparse|]. split; [exact Hst|]. split; [exact Hv'|].
  split; [exact Hfm|].
  pose proof (proj2 (proj2 grouping_follows_typed_analysis) _ _ st Hparse Hst
                3 v' Hv') as Hm.
  rewrite Hfm in Hm. exact (proj2 Hm).
Defined.

(** C1 as stated fails.  The keys "at" and "ad" pass the broad relation test
    (same vowel pattern), and the verses get different labels; the keys "et"
    and "at" fail it, and the verses share a label (same final consonant). *)
Lemma broad_test_does_not_decide_grouping :
  map verse_key (verses_of_lines ["a cat"; "so sad"]) = [Val "at"; Val "ad"] /\
  broad_relation_spec "at" "ad" = true /\
  wordsRhyme "cat" "sad" = Ok true /\
  labels_of ["a cat"; "so sad"] = Some [units_of "A"; units_of "B"] /\
  map verse_key (verses_of_lines ["so sweet"; "a cat"]) = [Val "et"; Val "at"] /\
  broad_relation_spec "et" "at" = false /\
  wordsRhyme "sweet" "cat" = Ok false /\
  labels_of ["so sweet"; "a cat"] = Some [units_of "A"; units_of "A"].
Proof. vm_compute. repeat split. Qed.

Lemma same_key_same_label_witness :
  let st := first_stanza cat_lines in
  let vp' := nth 2 (verses st) blank_verse in
  let vj' := nth 3 (verses st) blank_verse in
  parseLyrics (text_of_lines cat_lines) = Ok (parsed cat_lines) /\
  In st (parsed cat_lines) /\
  2 < 3 /\
  nth_error (verses st) 2 = Some vp' /\
  nth_error (verses st) 3 = Some vj' /\
  verse_key vp' = verse_key vj' /\
  falsy (verse_key vj') = false /\
  rhyme_index vj' = rhyme_index vp'.
Proof.
  intros st vp' vj'.
  assert (Hparse : parseLyrics (text_of_lines cat_lines) = Ok (parsed cat_lines))
    by (vm_compute; reflexivity).
  assert (Hst : In st (parsed cat_lines)) by (vm_compute; left; reflexivity).
  assert (Hlt : 2 < 3) by lia.
  assert (Hp' : nth_error (verses st) 2 = Some vp') by (vm_compute; reflexivity).
  assert (Hj' : nth_error (verses st) 3 = Some vj') by (vm_compute; reflexivity).
  assert (Hkey : verse_key vp' = verse_key vj') by (vm_compute; reflexivity).
  assert (Hfalsy : falsy (verse_key vj') = false) by (vm_compute; reflexivity).
  split; [exact Hparse|]. split; [exact Hst|]. split; [exact Hlt|].
  split; [exact Hp'|]. split; [exact Hj'|]. split; [exact Hkey|].
  split; [exact Hfalsy|].
  exact (proj2 same_key_same_label _ _ st 2 3 vp' vj'
           Hparse Hst Hlt Hp' Hj' Hkey Hfalsy).
Defined.

(** C2 as stated fails: two verses that end in "..." have the same key, the
    empty string, and get different labels. *)
Lemma equal_empty_keys_get_distinct_labels :
  map verse_key (verses_of_lines ["wait ..."; "stop ..."]) = [Val ""; Val ""] /\
  labels_of ["wait ..."; "stop ..."] = Some [units_of "A"; units_of "B"].
Proof. vm_compute. split; reflexivity. Qed.

(* ================================================================= *)
(** ** Reversal, suffixes and the last word of a line *)

Lemma append_empty_r : forall s : string, (s ++ "")%string = s.
Proof. induction s as [|c r IH]; simpl; [reflexivity | now rewrite IH]. Qed.

Lemma append_assoc_str : forall a b c : string,
  ((a ++ b) ++ c)%string = (a ++ (b ++ c))%string.
Proof. induction a as [|x r IH]; intros b c; simpl; [reflexivity | now rewrite IH]. Qed.

Lemma length_append : forall a b : string,
  length (a ++ b) = length a + length b.
Proof. induction a as [|x r IH]; intro b; simpl; [reflexivity | now rewrite IH]. Qed.

Lemma rev_onto_app : forall s acc,
  str_rev_onto s acc = (str_rev s ++ acc)%string.
Proof.
  induction s as [|c r IH]; intro acc; [reflexivity|].
  unfold str_rev. simpl. rewrite (IH (String c acc)), (IH (String c "")).
  now rewrite append_assoc_str.
Qed.

Lemma rev_onto_rev_onto : forall s a b,
  str_rev_onto (str_rev_onto s a) b = str_rev_onto a (s ++ b).
Proof.
  induction s as [|c r IH]; intros a b; simpl; [reflexivity|].
  now rewrite IH.
Qed.

Lemma str_rev_involutive : forall s, str_rev (str_rev s) = s.
Proof.
  intro s. unfold str_rev. rewrite rev_onto_rev_onto. simpl.
  apply append_empty_r.
Qed.

Lemma str_rev_app : forall a b, str_rev (a ++ b) = (str_rev b ++ str_rev a)%string.
Proof.
  induction a as [|c r IH]; intro b.
  - simpl. now rewrite append_empty_r.
  - unfold str_rev. simpl. rewrite !(rev_onto_app _ (String c "")).
    fold (str_rev (r ++ b)). rewrite IH. now rewrite append_assoc_str.
Qed.

Lemma str_rev_empty : forall s, str_rev s = "" -> s = "".
Proof.
  intros s H. destruct s as [|c r]; [reflexivity|].
  apply (f_equal length) in H. rewrite length_str_rev in H. discriminate H.
Qed.

Lemma all_chars_rev_onto : forall p s acc,
  all_chars p (str_rev_onto s acc) = all_chars p s && all_chars p acc.
Proof.
  intros p. induction s as [|c r IH]; intro acc; [reflexivity|].
  simpl. rewrite IH. rewrite !all_chars_cons.
  destruct (p c), (all_chars p r), (all_chars p acc); reflexivity.
Qed.

Lemma all_chars_rev : forall p s, all_chars p (str_rev s) = all_chars p s.
Proof.
  intros p s. unfold str_rev. rewrite all_chars_rev_onto.
  now rewrite andb_true_r.
Qed.

Lemma all_chars_app : forall p a b,
  all_chars p (a ++ b) = all_chars p a && all_chars p b.
Proof.
  intros p. induction a as [|c r IH]; intro b; [reflexivity|].
  simpl. rewrite !all_chars_cons, IH. now rewrite andb_assoc.
Qed.

Lemma all_chars_take_while : forall p s, all_chars p (take_while p s) = true.
Proof.
  intros p. induction s as [|c r IH]; [reflexivity|].
  simpl. destruct (p c) eqn:E; [|reflexivity].
  rewrite all_chars_cons, E. exact IH.
Qed.

Lemma take_while_all : forall p s, all_chars p s = true -> take_while p s = s.
Proof.
  intros p. induction s as [|c r IH]; intro H; [reflexivity|].
  rewrite all_chars_cons in H. apply andb_true_iff in H as [Hc Hr].
  simpl. rewrite Hc. now rewrite IH.
Qed.

Lemma take_while_stop : forall p a c b,
  all_chars p a = true -> p c = false ->
  take_while p (a ++ String c b) = a.
Proof.
  intros p. induction a as [|x r IH]; intros c b Ha Hc.
  - simpl. now rewrite Hc.
  - rewrite all_chars_cons in Ha. apply andb_true_iff in Ha as [Hx Hr].
    simpl. rewrite Hx. now rewrite IH.
Qed.

Lemma take_while_cut : forall p a c b,
  p c = false -> take_while p (a ++ String c b) = take_while p a.
Proof.
  intros p. induction a as [|x r IH]; intros c b Hc.
  - simpl. now rewrite Hc.
  - simpl. destruct (p x); [|reflexivity]. now rewrite IH.
Qed.

Lemma last_cons_nonempty : forall (A : Type) (x : A) l d,
  l <> [] -> last (x :: l) d = last l d.
Proof. intros A x [|y l] d H; [contradiction|reflexivity]. Qed.

Lemma split_ws_from_nonempty : forall s cur in_run,
  split_ws_from s cur in_run <> [].
Proof.
  induction s as [|c r IH]; intros cur in_run; simpl; [discriminate|].
  destruct (is_space c); [destruct in_run; [apply IH | discriminate] | apply IH].
Qed.

(** The last piece of a split at white space is the longest suffix without
    white space. *)
Lemma last_split_ws_from : forall s cur in_run d,
  no_space cur = true -> (in_run = true -> cur = "") ->
  last (split_ws_from s cur in_run) d
  = str_rev (take_while (fun c => negb (is_space c)) (str_rev_onto s cur)).
Proof.
  induction s as [|c r IH]; intros cur in_run d Hcur Hrun.
  - simpl. now rewrite take_while_all.
  - simpl. destruct (is_space c) eqn:Ec.
    + destruct in_run.
      * rewrite (Hrun eq_refl). rewrite (IH "" true d); [|reflexivity|reflexivity].
        rewrite !rev_onto_app. rewrite take_while_cut by now rewrite Ec.
        now rewrite append_empty_r.
      * rewrite last_cons_nonempty by apply split_ws_from_nonempty.
        rewrite (IH "" true d); [|reflexivity|reflexivity].
        rewrite !rev_onto_app. rewrite take_while_cut by now rewrite Ec.
        now rewrite append_empty_r.
    + apply IH; [|discriminate].
      unfold no_space in *. rewrite all_chars_cons, Ec. exact Hcur.
Qed.

Lemma drop_spaces_starts : forall s, first_is_space (drop_spaces s) = false.
Proof.
  induction s as [|c r IH]; [reflexivity|].
  simpl. destruct (is_space c) eqn:E; [exact IH | simpl; exact E].
Qed.

Lemma drop_spaces_fixed : forall s, first_is_space s = false -> drop_spaces s = s.
Proof. intros [|c r] H; [reflexivity|]. simpl in *. now rewrite H. Qed.

Lemma drop_spaces_empty : forall s, drop_spaces s = "" <-> all_space s = true.
Proof.
  induction s as [|c r IH]; [split; reflexivity|].
  simpl. unfold all_space in *. simpl. destruct (is_space c); [exact IH|].
  split; discriminate.
Qed.

Lemma getLastWord_suffix : forall line,
  getLastWord line
  = str_rev (take_while (fun c => negb (is_space c))
                        (drop_spaces (str_rev (drop_spaces line)))).
Proof.
  intro line. unfold getLastWord, split_ws.
  rewrite last_split_ws_from; [|reflexivity|reflexivity].
  unfold trim. fold (str_rev (str_rev (drop_spaces (str_rev (drop_spaces line))))).
  now rewrite str_rev_involutive.
Qed.

Lemma take_while_empty : forall p s,
  take_while p s = "" ->
  s = "" \/ exists c r, s = String c r /\ p c = false.
Proof.
  intros p [|c r] H; [now left|]. right. exists c, r. split; [reflexivity|].
  simpl in H. destruct (p c); [discriminate H | reflexivity].
Qed.

(** X1. [getLastWord]: the word returned holds no white space, and it is
    empty exactly when the line is empty or holds white space only. *)
Theorem getLastWord_shape : forall line,
  no_space (getLastWord line) = true /\
  (getLastWord line = "" <-> all_space line = true).
Proof.
  intro line. rewrite getLastWord_suffix. split.
  - unfold no_space. rewrite all_chars_rev. apply all_chars_take_while.
  - split.
    + intro H. apply str_rev_empty in H. apply take_while_empty in H.
      destruct H as [H | (c & r & H & Hc)].
      * apply drop_spaces_empty in H. rewrite all_space_rev in H.
        now rewrite all_space_drop_spaces in H.
      * pose proof (drop_spaces_starts (str_rev (drop_spaces line))) as Hs.
        rewrite H in Hs. simpl in Hs. rewrite Hs in Hc. discriminate Hc.
    + intro H.
      assert (E : drop_spaces (str_rev (drop_spaces line)) = "").
      { apply drop_spaces_empty. rewrite all_space_rev.
        now rewrite all_space_drop_spaces. }
      now rewrite E.
Qed.

Lemma drop_spaces_app : forall a b,
  drop_spaces (a ++ b) =
  if all_space a then drop_spaces b else (drop_spaces a ++ b)%string.
Proof.
  induction a as [|c r IH]; intro b; [reflexivity|].
  simpl. unfold all_space in *. simpl. destruct (is_space c); [apply IH | reflexivity].
Qed.

Lemma first_is_space_app : forall a b,
  a <> "" -> first_is_space (a ++ b) = first_is_space a.
Proof. intros [|c r] b H; [contradiction|reflexivity]. Qed.

Lemma no_space_first : forall s, no_space s = true -> first_is_space s = false.
Proof.
  intros [|c r] H; [reflexivity|]. unfold no_space in H.
  rewrite all_chars_cons in H. apply andb_true_iff in H as [H _].
  simpl. now destruct (is_space c).
Qed.

Lemma str_rev_nonempty : forall s, s <> "" -> str_rev s <> "".
Proof. intros s H E. apply H. now apply str_rev_empty. Qed.

(** X2. [getLastWord]: when a line ends with a white-space character followed
    by a non-empty word [w] without white space, the last word is [w]. *)
Theorem getLastWord_after_space : forall s c w,
  is_space c = true -> no_space w = true -> w <> "" ->
  getLastWord (s ++ String c w) = w.
Proof.
  intros s c w Hc Hw Hne. rewrite getLastWord_suffix.
  assert (Hrw : no_space (str_rev w) = true)
    by (unfold no_space in *; now rewrite all_chars_rev).
  assert (Hfw : first_is_space w = false) by now apply no_space_first.
  rewrite drop_spaces_app.
  assert (Hd : drop_spaces (String c w) = w).
  { simpl. rewrite Hc. now apply drop_spaces_fixed. }
  destruct (all_space s).
  - rewrite Hd. rewrite drop_spaces_fixed by now apply no_space_first.
    rewrite take_while_all by exact Hrw. apply str_rev_involutive.
  - rewrite str_rev_app.
    change (String c w) with (String c "" ++ w)%string.
    rewrite str_rev_app, append_assoc_str.
    rewrite drop_spaces_fixed.
    2:{ rewrite first_is_space_app by now apply str_rev_nonempty.
        now apply no_space_first. }
    change (str_rev (String c "")) with (String c "").
    simpl append at 2.
    rewrite take_while_stop; [apply str_rev_involutive | exact Hrw | now rewrite Hc].
Qed.

Lemma getLastWord_after_space_witness :
  is_space " "%char = true /\ no_space "hat," = true /\ "hat," <> "" /\
  getLastWord ("The cat in the" ++ String " "%char "hat,") = "hat,".
Proof.
  assert (H1 : is_space " "%char = true) by reflexivity.
  assert (H2 : no_space "hat," = true) by reflexivity.
  assert (H3 : "hat," <> "") by discriminate.
  split; [exact H1|]. split; [exact H2|]. split; [exact H3|].
  exact (getLastWord_after_space "The cat in the" " "%char "hat," H1 H2 H3).
Defined.

(* ================================================================= *)
(** ** The key of a word and its cleaned form *)

Lemma lower_char_idem : forall c, lower_char (lower_char c) = lower_char c.
Proof. intros [[] [] [] [] [] [] [] []]; vm_compute; reflexivity. Qed.


Lemma toLowerCase_idem : forall s, toLowerCase (toLowerCase s) = toLowerCase s.
Proof.
  induction s as [|c r IH]; [reflexivity|].
  unfold toLowerCase in *. simpl. now rewrite lower_char_idem, IH.
Qed.


Lemma extract_of_clean_word : forall w,
  extractRhymingSyllable w = extractRhymingSyllable (clean_word w).
Proof.
  assert (Hbody : forall w,
            extractRhymingSyllable w =
            match get_prop rhyme_specialCases (clean_word w) with
            | Some (Val k) => Val k
            | Some (Builtin n) => Builtin n
            | None =>
                match find (endsWith (clean_word w)) patterns with
                | Some suffix => Val suffix
                | None =>
                    if (3 <=? length (clean_word w))%nat then
                      if vowel_consonant_end (slice_last 2 (clean_word w))
                      then Val (slice_last 2 (clean_word w))
                      else if (4 <=? length (clean_word w))%nat
                           then Val (slice_last 3 (clean_word w))
                           else Val (slice_last 2 (clean_word w))
                    else Val (clean_word w)
                end
            end).
  { intros [|c r]; [reflexivity|]. reflexivity. }
  intro w. rewrite (Hbody w), (Hbody (clean_word w)).
  assert (E : clean_word (clean_word w) = clean_word w).
  { unfold clean_word at 1. rewrite toLowerCase_lower by apply clean_word_lower.
    apply str_filter_idem. }
  now rewrite E.
Qed.



(* ================================================================= *)
(** ** Suffixes *)

Lemma substring_0_all : forall s n, length s <= n -> substring 0 n s = s.
Proof.
  induction s as [|c r IH]; intros n H.
  - now destruct n.
  - destruct n as [|n]; simpl in *; [lia|]. rewrite IH by lia. reflexivity.
Qed.

Lemma substring_app_suffix : forall pre suf,
  substring (length pre) (length suf) (pre ++ suf) = suf.
Proof.
  induction pre as [|c r IH]; intro suf; simpl.
  - now apply substring_0_all.
  - apply IH.
Qed.

Lemma substring_split : forall s n,
  n <= length s ->
  s = (substring 0 n s ++ substring n (length s - n) s)%string.
Proof.
  induction s as [|c r IH]; intros n H.
  - now destruct n.
  - destruct n as [|n].
    + simpl. now rewrite substring_0_all.
    + simpl in *. rewrite <- IH by lia. reflexivity.
Qed.

Lemma endsWith_iff : forall s suf,
  endsWith s suf = true <-> exists pre, s = (pre ++ suf)%string.
Proof.
  intros s suf. unfold endsWith, slice_last. split.
  - intro H. apply andb_true_iff in H as [Hlen Heq].
    apply Nat.leb_le in Hlen. apply String.eqb_eq in Heq.
    exists (substring 0 (length s - length suf) s).
    pose proof (substring_split s (length s - length suf)) as Hsplit.
    replace (length s - (length s - length suf)) with (length suf) in Hsplit
      by lia.
    rewrite Heq in Hsplit. apply Hsplit. lia.
  - intros [pre ->]. rewrite length_append.
    apply andb_true_iff. split; [apply Nat.leb_le; lia|].
    replace (length pre + length suf - length suf) with (length pre) by lia.
    rewrite substring_app_suffix. apply String.eqb_refl.
Qed.

Lemma endsWith_refl : forall s, endsWith s s = true.
Proof. intro s. apply endsWith_iff. now exists "". Qed.

Lemma endsWith_slice_last : forall n s, endsWith s (slice_last n s) = true.
Proof.
  intros n s. apply endsWith_iff. unfold slice_last.
  destruct (Nat.le_gt_cases n (length s)) as [Hle|Hgt].
  - exists (substring 0 (length s - n) s).
    pose proof (substring_split s (length s - n)) as Hsplit.
    replace (length s - (length s - n)) with n in Hsplit by lia.
    apply Hsplit. lia.
  - exists "". replace (length s - n) with 0 by lia.
    simpl. symmetry. apply substring_0_all. lia.
Qed.

(** X4. [extractRhymingSyllable]: outside the exception table, a key that is
    a string is a suffix of the cleaned word. *)
Theorem extract_key_is_suffix : forall w k,
  assoc (clean_word w) rhyme_specialCases = None ->
  extractRhymingSyllable w = Val k ->
  endsWith (clean_word w) k = true.
Proof.
  intros w k Hno Hk. unfold extractRhymingSyllable in Hk.
  destruct (w =? "") eqn:Hw.
  { apply String.eqb_eq in Hw. subst w. injection Hk as <-. reflexivity. }
  fold (clean_word w) in Hk. unfold get_prop in Hk. rewrite Hno in Hk.
  destruct (str_mem (clean_word w) object_prototype_names); [discriminate Hk|].
  destruct (find (endsWith (clean_word w)) patterns) as [suffix|] eqn:Hfind.
  { injection Hk as <-. now apply find_some in Hfind as [_ H]. }
  destruct (3 <=? length (clean_word w))%nat.
  - destruct (vowel_consonant_end (slice_last 2 (clean_word w)));
      [|destruct (4 <=? length (clean_word w))%nat];
      injection Hk as <-; apply endsWith_slice_last.
  - injection Hk as <-. apply endsWith_refl.
Qed.

Lemma extract_key_is_suffix_witness :
  assoc (clean_word "Violets,") rhyme_specialCases = None /\
  extractRhymingSyllable "Violets," = Val "ets" /\
  endsWith (clean_word "Violets,") "ets" = true.
Proof.
  assert (H1 : assoc (clean_word "Violets,") rhyme_specialCases = None)
    by reflexivity.
  assert (H2 : extractRhymingSyllable "Violets," = Val "ets") by reflexivity.
  split; [exact H1|]. split; [exact H2|].
  exact (extract_key_is_suffix "Violets," "ets" H1 H2).
Defined.

Lemma suffix_of_longer : forall a p b q : string,
  (a ++ p)%string = (b ++ q)%string -> length p <= length q ->
  exists x, q = (x ++ p)%string.
Proof.
  intros a p b. revert a p. induction b as [|c r IH]; intros a p q H Hlen.
  - simpl in H. exists a. now symmetry.
  - destruct a as [|c' r'].
    + simpl in H. apply (f_equal length) in H. simpl in H.
      rewrite length_append in H. lia.
    + simpl in H. injection H as _ H. now apply (IH r' p q).
Qed.

Lemma patterns_no_suffix :
  forallb (fun p => forallb (fun q => implb (endsWith q p) (p =? q)) patterns)
          patterns = true.
Proof. reflexivity. Qed.

Lemma patterns_exclusive : forall s p q,
  In p patterns -> In q patterns ->
  endsWith s p = true -> endsWith s q = true -> p = q.
Proof.
  assert (Hcase : forall p q, In p patterns -> In q patterns ->
                    endsWith q p = true -> p = q).
  { intros p q Hp Hq H. pose proof patterns_no_suffix as Hall.
    rewrite forallb_forall in Hall. specialize (Hall p Hp).
    rewrite forallb_forall in Hall. specialize (Hall q Hq).
    rewrite H in Hall. now apply String.eqb_eq. }
  intros s p q Hp Hq Hsp Hsq.
  apply endsWith_iff in Hsp as [a Ha]. apply endsWith_iff in Hsq as [b Hb].
  rewrite Ha in Hb.
  destruct (Nat.le_ge_cases (length p) (length q)) as [Hle|Hge].
  - destruct (suffix_of_longer a p b q Hb Hle) as [x Hx].
    apply (Hcase p q Hp Hq). apply endsWith_iff. now exists x.
  - symmetry in Hb. destruct (suffix_of_longer b q a p Hb Hge) as [x Hx].
    symmetry. apply (Hcase q p Hq Hp). apply endsWith_iff. now exists x.
Qed.

(** X5. The ending patterns of [extractRhymingSyllable] exclude one another:
    a word ends with at most one of them, so the loop over the patterns finds
    that pattern whatever their order in the array. *)
Theorem ending_pattern_is_unique : forall s p,
  In p patterns -> endsWith s p = true ->
  find (endsWith s) patterns = Some p /\
  (forall q, In q patterns -> endsWith s q = true -> q = p).
Proof.
  intros s p Hp Hs. split.
  - destruct (find (endsWith s) patterns) as [q|] eqn:Hfind.
    + apply find_some in Hfind as [Hq Hsq].
      f_equal. exact (patterns_exclusive s q p Hq Hp Hsq Hs).
    + pose proof (find_none _ _ Hfind p Hp) as H. rewrite Hs in H. discriminate H.
  - intros q Hq Hsq. exact (patterns_exclusive s q p Hq Hp Hsq Hs).
Qed.

Lemma ending_pattern_is_unique_witness :
  In "ight" patterns /\ endsWith "moonlight" "ight" = true /\
  find (endsWith "moonlight") patterns = Some "ight".
Proof.
  assert (H1 : In "ight" patterns) by (do 14 right; left; reflexivity).
  assert (H2 : endsWith "moonlight" "ight" = true) by reflexivity.
  split; [exact H1|]. split; [exact H2|].
  exact (proj1 (ending_pattern_is_unique "moonlight" "ight" H1 H2)).
Defined.

(* ================================================================= *)
(** ** The empty key *)

Lemma length_substring_exact : forall s n m,
  n + m <= length s -> length (substring n m s) = m.
Proof.
  induction s as [|c r IH]; intros n m H.
  - simpl in H. assert (n = 0) by lia. assert (m = 0) by lia. now subst.
  - destruct n as [|n].
    + destruct m as [|m]; [reflexivity|]. simpl in *. rewrite (IH 0 m) by lia.
      reflexivity.
    + simpl in *. apply IH. lia.
Qed.

Lemma extract_empty_key : forall w,
  falsy (extractRhymingSyllable w) = true <-> clean_word w = "".
Proof.
  intro w. split.
  - intro H. unfold extractRhymingSyllable in H.
    destruct (w =? "") eqn:Hw.
    { apply String.eqb_eq in Hw. now subst w. }
    fold (clean_word w) in H. unfold get_prop in H.
    destruct (assoc (clean_word w) rhyme_specialCases) as [v|] eqn:Hassoc.
    { apply assoc_In in Hassoc.
      assert (Hall : forallb (fun e => negb (snd e =? "")) rhyme_specialCases
                     = true) by reflexivity.
      rewrite forallb_forall in Hall. specialize (Hall _ Hassoc).
      simpl in Hall, H. rewrite H in Hall. discriminate Hall. }
    destruct (str_mem (clean_word w) object_prototype_names); [discriminate H|].
    destruct (find (endsWith (clean_word w)) patterns) as [suffix|] eqn:Hfind.
    { apply find_some in Hfind as [Hin _].
      assert (Hall : forallb (fun p => negb (p =? "")) patterns = true)
        by reflexivity.
      rewrite forallb_forall in Hall. specialize (Hall _ Hin).
      simpl in H. rewrite H in Hall. discriminate Hall. }
    destruct (Nat.leb_spec 3 (length (clean_word w))) as [Hge|Hlt].
    + assert (H2 : length (slice_last 2 (clean_word w)) = 2)
        by (apply length_substring_exact; lia).
      assert (H3 : length (slice_last 3 (clean_word w)) = 3)
        by (apply length_substring_exact; lia).
      destruct (vowel_consonant_end (slice_last 2 (clean_word w)));
        [|destruct (4 <=? length (clean_word w))%nat];
        simpl in H; apply String.eqb_eq in H; rewrite H in *; discriminate.
    + simpl in H. now apply String.eqb_eq in H.
  - intro H. rewrite extract_of_clean_word, H. reflexivity.
Qed.

(** X6. A word without a letter, a digit or an underscore has the empty key,
    and only such a word has it; the typed analysis and the broad test then
    report no relation, whatever the other word is. *)
Theorem empty_key_rhymes_with_nothing :
  (forall w, extractRhymingSyllable w = Val "" <-> clean_word w = "") /\
  (forall w1 w2,
     clean_word w1 = "" \/ clean_word w2 = "" ->
     analyzeRhyme w1 w2 = Ok {| rhymes := false; type := none |} /\
     wordsRhyme w1 w2 = Ok false).
Proof.
  split.
  - intro w. rewrite <- extract_empty_key. split; [now intros ->|].
    destruct (extractRhymingSyllable w) as [s|n]; simpl; [|discriminate].
    intro H. apply String.eqb_eq in H. now subst s.
  - intros w1 w2 H. unfold analyzeRhyme, wordsRhyme, classifyKeys, keysRhyme.
    assert (E : falsy (extractRhymingSyllable w1)
                || falsy (extractRhymingSyllable w2) = true).
    { apply orb_true_iff.
      destruct H as [H|H]; [left|right]; now apply extract_empty_key. }
    rewrite E. split; reflexivity.
Qed.

Lemma empty_key_rhymes_with_nothing_witness :
  (clean_word "..." = "" \/ clean_word "moon" = "") /\
  analyzeRhyme "..." "moon" = Ok {| rhymes := false; type := none |} /\
  wordsRhyme "..." "moon" = Ok false.
Proof.
  assert (H : clean_word "..." = "" \/ clean_word "moon" = "")
    by (left; reflexivity).
  split; [exact H|].
  exact (proj2 empty_key_rhymes_with_nothing "..." "moon" H).
Defined.

(* ================================================================= *)
(** ** Keys that are inherited objects *)

Lemma rhyme_specialCases_own :
  forallb (fun e => negb (str_mem (fst e) object_prototype_names))
          rhyme_specialCases = true.
Proof. reflexivity. Qed.

Lemma extract_kind : forall w,
  match extractRhymingSyllable w with
  | Val s => cleans_to_inherited w = false /\ (length s <= 4)%nat
  | Builtin n => cleans_to_inherited w = true /\ n = clean_word w
  end.
Proof.
  intro w. pose proof (extract_short w) as Hshort.
  unfold cleans_to_inherited. unfold extractRhymingSyllable in *.
  destruct (w =? "") eqn:Hw.
  { apply String.eqb_eq in Hw. subst w. split; [reflexivity | simpl; lia]. }
  fold (clean_word w) in *. unfold get_prop in *.
  destruct (assoc (clean_word w) rhyme_specialCases) as [v|] eqn:Hassoc.
  { split; [|now apply Hshort]. apply assoc_In in Hassoc.
    pose proof rhyme_specialCases_own as Hall.
    rewrite forallb_forall in Hall. specialize (Hall _ Hassoc).
    simpl in Hall. now apply negb_true_iff in Hall. }
  destruct (str_mem (clean_word w) object_prototype_names); [now split|].
  destruct (find (endsWith (clean_word w)) patterns) as [suffix|];
    [split; [reflexivity | now apply Hshort]|].
  destruct (3 <=? length (clean_word w))%nat;
    [destruct (vowel_consonant_end (slice_last 2 (clean_word w)));
       [|destruct (4 <=? length (clean_word w))%nat]|];
    (split; [reflexivity | now apply Hshort]).
Qed.

Lemma extract_own_key : forall w, own_key (extractRhymingSyllable w).
Proof.
  intro w. pose proof (extract_kind w) as H.
  destruct (extractRhymingSyllable w) as [s|n]; [|exact I].
  simpl. apply short_not_inherited. tauto.
Qed.

Lemma group_of_own : forall tbl s dflt,
  str_mem s object_prototype_names = false ->
  group_of tbl (Val s) dflt
  = Val (match assoc s tbl with Some l => map Val l | None => dflt end).
Proof.
  intros tbl s dflt Hs. unfold group_of, get_prop. rewrite Hs.
  now destruct (assoc s tbl).
Qed.

Lemma object_not_included : forall tbl n s dflt,
  str_mem s object_prototype_names = false ->
  existsb (key_eqb (Builtin n)) dflt = false ->
  array_includes (group_of tbl (Val s) dflt) (Builtin n) = Ok false.
Proof.
  intros tbl n s dflt Hs Hd. rewrite group_of_own by exact Hs.
  simpl. f_equal. destruct (assoc s tbl); [apply includes_map_Val_object | exact Hd].
Qed.

Lemma none_is_object : forall tbl n s dflt,
  str_mem s object_prototype_names = false ->
  existsb (key_eqb (Builtin n)) dflt = false ->
  groups_intersect (group_of tbl (Val s) dflt) (Val [Builtin n]) = Ok false.
Proof.
  intros tbl n s dflt Hs Hd. rewrite group_of_own by exact Hs.
  cbn [groups_intersect]. rewrite some_included_array, existsb_swap.
  simpl. rewrite orb_false_r. f_equal.
  destruct (assoc s tbl); [apply includes_map_Val_object | exact Hd].
Qed.

Lemma object_and_string_throw : forall n t,
  str_mem t object_prototype_names = false -> t <> "" ->
  classifyKeys (Builtin n) (Val t) = TypeError /\
  classifyKeys (Val t) (Builtin n) = TypeError /\
  keysRhyme (Builtin n) (Val t) = TypeError /\
  keysRhyme (Val t) (Builtin n) = TypeError.
Proof.
  intros n t Ht Hne. apply String.eqb_neq in Hne.
  assert (Hc : classifyKeys (Builtin n) (Val t) = TypeError).
  { unfold classifyKeys. cbn [falsy orb]. rewrite Hne.
    unfold isPerfectRhyme. cbn [key_eqb].
    change (group_of perfectRhymeGroups (Builtin n) [Builtin n])
      with (@Val (list key) [Builtin n]).
    cbn [groups_intersect some_included].
    rewrite object_not_included by (exact Ht || reflexivity).
    cbn [bind]. unfold isAssonance.
    change (group_of assonanceGroups (Builtin n) [])
      with (@Val (list key) []).
    cbn [array_includes existsb bind].
    rewrite object_not_included by (exact Ht || reflexivity).
    reflexivity. }
  split; [exact Hc|]. split; [now rewrite classifyKeys_sym|].
  split.
  - unfold keysRhyme. cbn [falsy orb key_eqb]. rewrite Hne.
    change (group_of rhymeGroups_table (Builtin n) [Builtin n])
      with (@Val (list key) [Builtin n]).
    cbn [groups_intersect some_included].
    rewrite object_not_included by (exact Ht || reflexivity).
    reflexivity.
  - unfold keysRhyme. cbn [falsy orb key_eqb]. rewrite Hne. cbn [orb].
    change (group_of rhymeGroups_table (Builtin n) [Builtin n])
      with (@Val (list key) [Builtin n]).
    rewrite none_is_object by (exact Ht || reflexivity).
    reflexivity.
Qed.

Lemma two_objects_throw : forall n m,
  n <> m ->
  classifyKeys (Builtin n) (Builtin m) = TypeError /\
  keysRhyme (Builtin n) (Builtin m) = TypeError.
Proof.
  intros n m Hne. apply String.eqb_neq in Hne.
  unfold classifyKeys, keysRhyme, isPerfectRhyme, isAssonance.
  simpl. rewrite Hne. simpl. split; reflexivity.
Qed.

Lemma equal_keys_rhyme : forall k,
  falsy k = false ->
  classifyKeys k k = Ok {| rhymes := true; type := rhyme |} /\
  keysRhyme k k = Ok true.
Proof.
  intros k Hk. unfold classifyKeys, keysRhyme, isPerfectRhyme.
  rewrite Hk, key_eqb_refl. split; reflexivity.
Qed.

(** X7. Two words with the same cleaned form, when it is not empty, are a
    perfect rhyme of one another for the typed analysis and rhyme for the
    broad test; this holds for the names of inherited properties too. *)
Theorem same_word_is_perfect_rhyme : forall a b,
  clean_word a = clean_word b -> clean_word a <> "" ->
  analyzeRhyme a b = Ok {| rhymes := true; type := rhyme |} /\
  wordsRhyme a b = Ok true.
Proof.
  intros a b Hab Hne. unfold analyzeRhyme, wordsRhyme.
  rewrite (extract_of_clean_word a), (extract_of_clean_word b), <- Hab.
  apply equal_keys_rhyme.
  rewrite <- extract_of_clean_word.
  destruct (falsy (extractRhymingSyllable a)) eqn:E; [|reflexivity].
  apply extract_empty_key in E. contradiction.
Qed.

Lemma same_word_is_perfect_rhyme_witness :
  clean_word "Constructor" = clean_word "constructor!" /\
  clean_word "Constructor" <> "" /\
  analyzeRhyme "Constructor" "constructor!"
    = Ok {| rhymes := true; type := rhyme |} /\
  wordsRhyme "Constructor" "constructor!" = Ok true.
Proof.
  assert (H1 : clean_word "Constructor" = clean_word "constructor!")
    by reflexivity.
  assert (H2 : clean_word "Constructor" <> "") by discriminate.
  split; [exact H1|]. split; [exact H2|].
  exact (same_word_is_perfect_rhyme "Constructor" "constructor!" H1 H2).
Defined.

(** X8. When the two rhyme tests throw.  [analyzeRhyme] and [wordsRhyme]
    throw a [TypeError] on the same pairs of words: those whose cleaned forms
    are both non-empty and different, one of them at least being the name of
    a property of [Object.prototype]. *)
Theorem rhyme_tests_throw_iff : forall a b,
  (analyzeRhyme a b = TypeError <->
   (cleans_to_inherited a || cleans_to_inherited b = true /\
    clean_word a <> clean_word b /\ clean_word a <> "" /\ clean_word b <> "")) /\
  (wordsRhyme a b = TypeError <-> analyzeRhyme a b = TypeError).
Proof.
  intros a b.
  pose proof (extract_kind a) as Ka. pose proof (extract_kind b) as Kb.
  pose proof (extract_empty_key a) as Ea. pose proof (extract_empty_key b) as Eb.
  pose proof (wordsRhyme_is_broad_relation a b) as Hbroad.
  unfold analyzeRhyme, wordsRhyme, cleans_to_inherited in *.
  destruct (extractRhymingSyllable a) as [s|n];
    destruct (extractRhymingSyllable b) as [t|m].
  - destruct Ka as [Ia Sa], Kb as [Ib Sb].
    destruct (classifyKeys_returns s t Sa Sb) as [r Hr].
    rewrite Hr, (Hbroad s t eq_refl eq_refl), Ia, Ib.
    repeat split; try discriminate. intros [H _]. discriminate H.
  - destruct Ka as [Ia Sa], Kb as [Ib ->]. apply short_not_inherited in Sa.
    destruct (String.eqb_spec s "") as [->|Hs].
    + assert (Hca : clean_word a = "") by now apply Ea.
      simpl. repeat split; try discriminate. intros (_ & _ & H & _). contradiction.
    + destruct (object_and_string_throw (clean_word b) s Sa Hs)
        as (_ & -> & _ & ->).
      rewrite Ia, Ib. repeat split; try reflexivity.
      * intro E. rewrite E, Ib in Ia. discriminate Ia.
      * intro E. apply Ea in E. simpl in E. apply String.eqb_eq in E. contradiction.
      * intro E. rewrite E in Ib. discriminate Ib.
  - destruct Ka as [Ia ->], Kb as [Ib Sb]. apply short_not_inherited in Sb.
    destruct (String.eqb_spec t "") as [->|Ht].
    + assert (Hcb : clean_word b = "") by now apply Eb.
      unfold classifyKeys, keysRhyme. simpl.
      repeat split; try discriminate. intros (_ & _ & _ & H). contradiction.
    + destruct (object_and_string_throw (clean_word a) t Sb Ht)
        as (-> & _ & -> & _).
      rewrite Ia, Ib. repeat split; try reflexivity.
      * intro E. rewrite <- E, Ia in Ib. discriminate Ib.
      * intro E. rewrite E in Ia. discriminate Ia.
      * intro E. apply Eb in E. simpl in E. apply String.eqb_eq in E. contradiction.
  - destruct Ka as [Ia ->], Kb as [Ib ->].
    destruct (String.eqb_spec (clean_word a) (clean_word b)) as [E|Hne].
    + rewrite E.
      destruct (equal_keys_rhyme (Builtin (clean_word b)) eq_refl) as [-> ->].
      repeat split; try discriminate. intros (_ & H & _). contradiction.
    + destruct (two_objects_throw _ _ Hne) as [-> ->].
      rewrite Ia, Ib. repeat split; try reflexivity; try exact Hne.
      * intro E. rewrite E in Ia. discriminate Ia.
      * intro E. rewrite E in Ib. discriminate Ib.
Qed.

(* ================================================================= *)
(** ** Perfect rhyme as a relation on keys *)

Lemma perfectRhymeGroups_partition : partition_table perfectRhymeGroups = true.
Proof. reflexivity. Qed.

Lemma isPerfectRhyme_related : forall k1 k2,
  own_key k1 -> own_key k2 ->
  isPerfectRhyme k1 k2 = Ok (perfect_related k1 k2).
Proof.
  intros k1 k2 H1 H2. unfold isPerfectRhyme, perfect_related.
  destruct (key_eqb k1 k2) eqn:E; [reflexivity|]. cbn [orb].
  destruct k1 as [s|n], k2 as [t|m]; simpl in H1, H2.
  - apply intersect_co_occur; try assumption;
      [apply perfectRhymeGroups_partition|].
    intros ->. simpl in E. rewrite String.eqb_refl in E. discriminate E.
  - change (group_of perfectRhymeGroups (Builtin m) [Builtin m])
      with (@Val (list key) [Builtin m]).
    now rewrite none_is_object.
  - change (group_of perfectRhymeGroups (Builtin n) [Builtin n])
      with (@Val (list key) [Builtin n]).
    cbn [groups_intersect some_included].
    now rewrite object_not_included.
  - simpl in *. now rewrite E.
Qed.

Lemma co_occur_trans : forall tbl a b c,
  partition_table tbl = true ->
  co_occur tbl a b = true -> co_occur tbl b c = true -> co_occur tbl a c = true.
Proof.
  intros tbl a b c Hp Hab Hbc.
  apply co_occur_true in Hab as (e & He & Hae & Hbe).
  apply co_occur_true in Hbc as (e' & He' & Hbe' & Hce').
  destruct (partition_table_member tbl e b Hp He Hbe) as (l & Hl & Hsame).
  destruct (partition_table_member tbl e' b Hp He' Hbe') as (l' & Hl' & Hsame').
  rewrite Hl in Hl'. injection Hl' as <-.
  apply co_occur_true. exists e. split; [exact He|]. split; [exact Hae|].
  apply Hsame. now apply Hsame'.
Qed.

Lemma perfect_related_trans : forall k1 k2 k3,
  perfect_related k1 k2 = true -> perfect_related k2 k3 = true ->
  perfect_related k1 k3 = true.
Proof.
  intros k1 k2 k3 H12 H23. unfold perfect_related in *.
  destruct (key_eqb k1 k2) eqn:E12.
  { apply key_eqb_eq in E12. now subst k2. }
  destruct (key_eqb k2 k3) eqn:E23.
  { apply key_eqb_eq in E23. subst k3. now rewrite E12. }
  cbn [orb] in H12, H23.
  destruct k1 as [s|n], k2 as [t|m], k3 as [u|p]; try discriminate.
  apply orb_true_iff. right.
  exact (co_occur_trans _ s t u perfectRhymeGroups_partition H12 H23).
Qed.

Lemma classifyKeys_perfect : forall k1 k2,
  classifyKeys k1 k2 = Ok {| rhymes := true; type := rhyme |} <->
  falsy k1 = false /\ falsy k2 = false /\ isPerfectRhyme k1 k2 = Ok true.
Proof.
  intros k1 k2. unfold classifyKeys.
  destruct (falsy k1); [simpl; split; [discriminate | intros [H _]; discriminate H]|].
  destruct (falsy k2); [simpl; split; [discriminate | intros (_ & H & _); discriminate H]|].
  cbn [orb].
  destruct (isPerfectRhyme k1 k2) as [[|]|]; cbn [bind].
  - now repeat split.
  - split; [|intros (_ & _ & H); discriminate H].
    destruct (isAssonance k1 k2) as [[|]|]; cbn [bind]; try discriminate.
    destruct (isConsonance k1 k2) as [[|]|]; cbn [bind]; discriminate.
  - split; [discriminate | intros (_ & _ & H); discriminate H].
Qed.

(** X9. Perfect rhyme is transitive: when the typed analysis reports a
    perfect rhyme between a first and a second word and between the second
    and a third, it reports one between the first and the third. *)
Theorem perfect_rhyme_is_transitive : forall a b c,
  analyzeRhyme a b = Ok {| rhymes := true; type := rhyme |} ->
  analyzeRhyme b c = Ok {| rhymes := true; type := rhyme |} ->
  analyzeRhyme a c = Ok {| rhymes := true; type := rhyme |}.
Proof.
  intros a b c Hab Hbc. unfold analyzeRhyme in *.
  pose proof (extract_own_key a) as Oa. pose proof (extract_own_key b) as Ob.
  pose proof (extract_own_key c) as Oc.
  apply classifyKeys_perfect in Hab as (Fa & _ & Hab).
  apply classifyKeys_perfect in Hbc as (_ & Fc & Hbc).
  apply classifyKeys_perfect. split; [exact Fa|]. split; [exact Fc|].
  rewrite isPerfectRhyme_related in * by assumption.
  injection Hab as Hab. injection Hbc as Hbc. f_equal.
  exact (perfect_related_trans _ _ _ Hab Hbc).
Qed.

Lemma perfect_rhyme_is_transitive_witness :
  analyzeRhyme "how" "you" = Ok {| rhymes := true; type := rhyme |} /\
  analyzeRhyme "you" "now" = Ok {| rhymes := true; type := rhyme |} /\
  analyzeRhyme "how" "now" = Ok {| rhymes := true; type := rhyme |}.
Proof.
  assert (H1 : analyzeRhyme "how" "you" = Ok {| rhymes := true; type := rhyme |})
    by reflexivity.
  assert (H2 : analyzeRhyme "you" "now" = Ok {| rhymes := true; type := rhyme |})
    by reflexivity.
  split; [exact H1|]. split; [exact H2|].
  exact (perfect_rhyme_is_transitive "how" "you" "now" H1 H2).
Defined.

(* ================================================================= *)
(** ** The typed analysis and the broad test *)

Lemma perfect_entries_are_broad :
  forallb (fun e => existsb (fun e' => str_list_eqb (snd e) (snd e'))
                            rhymeGroups_table) perfectRhymeGroups = true.
Proof. reflexivity. Qed.

Lemma assonance_entries_are_broad :
  forallb (fun e => forallb (fun m => co_occur rhymeGroups_table (fst e) m
                                      && co_occur rhymeGroups_table m (fst e))
                            (snd e)) assonanceGroups = true.
Proof. reflexivity. Qed.

Lemma co_occur_perfect_broad : forall s t,
  co_occur perfectRhymeGroups s t = true -> co_occur rhymeGroups_table s t = true.
Proof.
  intros s t H. apply co_occur_true in H as (e & He & Hs & Ht).
  pose proof perfect_entries_are_broad as Hall.
  rewrite forallb_forall in Hall. specialize (Hall e He).
  apply existsb_exists in Hall as (e' & He' & Heq).
  apply str_list_eqb_eq in Heq. apply co_occur_true.
  exists e'. rewrite <- Heq. now repeat split.
Qed.

Lemma assonance_member_broad : forall s t l,
  assoc s assonanceGroups = Some l -> str_mem t l = true ->
  co_occur rhymeGroups_table s t = true /\ co_occur rhymeGroups_table t s = true.
Proof.
  intros s t l Hl Ht. apply assoc_In in Hl. apply str_mem_In in Ht.
  pose proof assonance_entries_are_broad as Hall.
  rewrite forallb_forall in Hall. specialize (Hall _ Hl). simpl in Hall.
  rewrite forallb_forall in Hall. specialize (Hall _ Ht).
  now apply andb_true_iff in Hall.
Qed.

Lemma assonance_included_broad : forall s t,
  str_mem s object_prototype_names = false ->
  array_includes (group_of assonanceGroups (Val s) []) (Val t) = Ok true ->
  co_occur rhymeGroups_table s t = true /\ co_occur rhymeGroups_table t s = true.
Proof.
  intros s t Hs H. rewrite group_of_own in H by exact Hs.
  destruct (assoc s assonanceGroups) as [l|] eqn:Hl; [|discriminate H].
  simpl in H. injection H as H. rewrite includes_map_Val in H.
  exact (assonance_member_broad s t l Hl H).
Qed.

Lemma typed_string_keys_broad : forall s t r,
  str_mem s object_prototype_names = false ->
  str_mem t object_prototype_names = false ->
  classifyKeys (Val s) (Val t) = Ok r ->
  type r = rhyme \/ type r = assonance ->
  broad_relation_spec s t = true.
Proof.
  intros s t r Hs Ht Hr Hty. unfold classifyKeys in Hr.
  unfold broad_relation_spec. cbn [falsy] in Hr.
  destruct (s =? ""); [injection Hr as <-; simpl in Hty; now destruct Hty|].
  destruct (t =? ""); [injection Hr as <-; simpl in Hty; now destruct Hty|].
  cbn [orb negb andb] in *.
  rewrite (isPerfectRhyme_related (Val s) (Val t) Hs Ht) in Hr. cbn [bind] in Hr.
  unfold perfect_related in Hr. cbn [key_eqb] in Hr.
  destruct (s =? t); [reflexivity|]. cbn [orb] in *.
  destruct (co_occur perfectRhymeGroups s t) eqn:Hp.
  { now rewrite (co_occur_perfect_broad s t Hp). }
  unfold isAssonance in Hr.
  destruct (array_includes (group_of assonanceGroups (Val s) []) (Val t))
    as [[|]|] eqn:H1; cbn [bind] in Hr.
  - destruct (assonance_included_broad s t Hs H1) as [-> _]. reflexivity.
  - destruct (array_includes (group_of assonanceGroups (Val t) []) (Val s))
      as [[|]|] eqn:H2; cbn [bind] in Hr.
    + destruct (assonance_included_broad t s Ht H2) as [_ ->]. reflexivity.
    + destruct (isConsonance (Val s) (Val t)) as [[|]|]; cbn [bind] in Hr;
        try discriminate Hr; injection Hr as <-; simpl in Hty;
        destruct Hty; discriminate.
    + discriminate Hr.
  - discriminate Hr.
Qed.

(** X10. What the typed analysis returns: [rhymes] is true exactly when
    [type] is not ['none'], and a pair typed ['rhyme'] or ['assonance'] also
    rhymes for the broad test [wordsRhyme]. *)
Theorem typed_relation_implies_broad : forall a b r,
  analyzeRhyme a b = Ok r ->
  (rhymes r = true <-> type r <> none) /\
  (type r = rhyme \/ type r = assonance -> wordsRhyme a b = Ok true).
Proof.
  intros a b r Hr. split.
  - destruct (classifyKeys_rhymes _ _ _ Hr) as [H1 H2]. split; [exact H1|].
    intro Hne. destruct (rhymes r); [reflexivity|]. now specialize (H2 eq_refl).
  - intro Hty.
    pose proof (extract_own_key a) as Oa. pose proof (extract_own_key b) as Ob.
    pose proof (wordsRhyme_is_broad_relation a b) as Hbroad.
    unfold analyzeRhyme, wordsRhyme in *.
    destruct (key_eqb (extractRhymingSyllable a) (extractRhymingSyllable b))
      eqn:E.
    { apply key_eqb_eq in E. rewrite <- E in *.
      destruct (falsy (extractRhymingSyllable a)) eqn:F.
      - unfold classifyKeys in Hr. rewrite F in Hr. injection Hr as <-.
        simpl in Hty. destruct Hty; discriminate.
      - now apply equal_keys_rhyme. }
    destruct (extractRhymingSyllable a) as [s|n];
      destruct (extractRhymingSyllable b) as [t|m]; simpl in Oa, Ob.
    + rewrite (Hbroad s t eq_refl eq_refl). f_equal.
      exact (typed_string_keys_broad s t r Oa Ob Hr Hty).
    + destruct (String.eqb_spec s "") as [->|Hs].
      * unfold classifyKeys in Hr. simpl in Hr. injection Hr as <-.
        simpl in Hty. destruct Hty; discriminate.
      * destruct (object_and_string_throw m s Oa Hs) as (_ & H & _).
        rewrite H in Hr. discriminate Hr.
    + destruct (String.eqb_spec t "") as [->|Ht].
      * unfold classifyKeys in Hr. simpl in Hr. injection Hr as <-.
        simpl in Hty. destruct Hty; discriminate.
      * destruct (object_and_string_throw n t Ob Ht) as (H & _).
        rewrite H in Hr. discriminate Hr.
    + simpl in E. apply String.eqb_neq in E.
      destruct (two_objects_throw n m E) as [H _].
      rewrite H in Hr. discriminate Hr.
Qed.

Lemma typed_relation_implies_broad_witness :
  analyzeRhyme "filtro" "dipinto" = Ok {| rhymes := true; type := assonance |} /\
  wordsRhyme "filtro" "dipinto" = Ok true.
Proof.
  assert (H : analyzeRhyme "filtro" "dipinto"
              = Ok {| rhymes := true; type := assonance |}) by reflexivity.
  split; [exact H|].
  exact (proj2 (typed_relation_implies_broad "filtro" "dipinto" _ H)
               (or_intror eq_refl)).
Defined.

(* ================================================================= *)
(** ** What assonance and consonance mean for the keys *)

Lemma take_while_prefix : forall p s,
  exists rest, s = (take_while p s ++ rest)%string.
Proof.
  intros p. induction s as [|c r IH].
  - now exists "".
  - simpl. destruct (p c).
    + destruct IH as [rest IH]. exists rest. simpl. now rewrite <- IH.
    + now exists (String c r).
Qed.

Lemma ending_consonants_suffix : forall s c,
  getEndingConsonants (Val s) = Ok c ->
  endsWith s c = true /\ all_chars is_consonant_y c = true.
Proof.
  intros s c H. simpl in H. injection H as <-. split.
  - destruct (take_while_prefix is_consonant_y (str_rev s)) as [rest Hrest].
    apply (f_equal str_rev) in Hrest.
    rewrite str_rev_involutive, str_rev_app in Hrest.
    apply endsWith_iff. now exists (str_rev rest).
  - rewrite all_chars_rev. apply all_chars_take_while.
Qed.

Lemma assonance_families :
  forallb (fun e => forallb (fun m => negb (m =? fst e)
                                      && str_mem m (map fst assonanceGroups))
                            (snd e)) assonanceGroups = true.
Proof. reflexivity. Qed.

Lemma assonance_included_family : forall s t,
  str_mem s object_prototype_names = false ->
  array_includes (group_of assonanceGroups (Val s) []) (Val t) = Ok true ->
  s <> t /\ In s (map fst assonanceGroups) /\ In t (map fst assonanceGroups).
Proof.
  intros s t Hs H. rewrite group_of_own in H by exact Hs.
  destruct (assoc s assonanceGroups) as [l|] eqn:Hl; [|discriminate H].
  simpl in H. injection H as H. rewrite includes_map_Val in H.
  apply str_mem_In in H. apply assoc_In in Hl.
  pose proof assonance_families as Hall.
  rewrite forallb_forall in Hall. specialize (Hall _ Hl).
  cbv beta in Hall. cbn [fst snd] in Hall.
  rewrite forallb_forall in Hall. specialize (Hall _ H).
  cbv beta in Hall. apply andb_true_iff in Hall as [Hne Hmem].
  apply negb_true_iff in Hne. apply String.eqb_neq in Hne.
  apply str_mem_In in Hmem.
  split; [congruence|]. split; [|exact Hmem].
  change s with (fst (s, l)). now apply in_map.
Qed.

(** X11. What the weaker relations of the typed analysis mean.  A pair typed
    ['assonance'] has two different keys, both among the nine keys of the
    assonance table.  A pair typed ['consonance'] has two string keys that
    end with the same non-empty run of consonants. *)
Theorem assonance_and_consonance_keys : forall a b r,
  analyzeRhyme a b = Ok r ->
  (type r = assonance ->
   exists s t,
     extractRhymingSyllable a = Val s /\ extractRhymingSyllable b = Val t /\
     s <> t /\
     In s (map fst assonanceGroups) /\ In t (map fst assonanceGroups)) /\
  (type r = consonance ->
   exists s t c,
     extractRhymingSyllable a = Val s /\ extractRhymingSyllable b = Val t /\
     c <> "" /\ all_chars is_consonant_y c = true /\
     endsWith s c = true /\ endsWith t c = true).
Proof.
  intros a b r Hr.
  pose proof (extract_own_key a) as Oa. pose proof (extract_own_key b) as Ob.
  unfold analyzeRhyme in Hr.
  assert (Hstr : type r = assonance \/ type r = consonance ->
            exists s t, extractRhymingSyllable a = Val s /\
                        extractRhymingSyllable b = Val t /\
                        s <> "" /\ t <> "").
  { intro Hty.
    destruct (extractRhymingSyllable a) as [s|n];
      destruct (extractRhymingSyllable b) as [t|m]; simpl in Oa, Ob.
    - exists s, t. split; [reflexivity|]. split; [reflexivity|].
      unfold classifyKeys in Hr. cbn [falsy] in Hr.
      destruct (String.eqb_spec s "") as [Es|Hs];
        [injection Hr as <-; simpl in Hty; destruct Hty; discriminate|].
      destruct (String.eqb_spec t "") as [Et|Ht];
        [injection Hr as <-; simpl in Hty; destruct Hty; discriminate|].
      now split.
    - exfalso. destruct (String.eqb_spec s "") as [->|Hs].
      + unfold classifyKeys in Hr. simpl in Hr. injection Hr as <-.
        simpl in Hty. destruct Hty; discriminate.
      + destruct (object_and_string_throw m s Oa Hs) as (_ & H & _).
        rewrite H in Hr. discriminate Hr.
    - exfalso. destruct (String.eqb_spec t "") as [->|Ht].
      + unfold classifyKeys in Hr. simpl in Hr. injection Hr as <-.
        simpl in Hty. destruct Hty; discriminate.
      + destruct (object_and_string_throw n t Ob Ht) as (H & _).
        rewrite H in Hr. discriminate Hr.
    - exfalso. destruct (String.eqb_spec n m) as [->|Hne].
      + destruct (equal_keys_rhyme (Builtin m) eq_refl) as [H _].
        rewrite H in Hr. injection Hr as <-. simpl in Hty.
        destruct Hty; discriminate.
      + destruct (two_objects_throw n m Hne) as [H _].
        rewrite H in Hr. discriminate Hr. }
  split.
  - intro Hty. destruct (Hstr (or_introl Hty)) as (s & t & Ea & Eb & Hs & Ht).
    rewrite Ea, Eb in *. simpl in Oa, Ob.
    exists s, t. split; [reflexivity|]. split; [reflexivity|].
    unfold classifyKeys in Hr. cbn [falsy] in Hr.
    apply String.eqb_neq in Hs, Ht. rewrite Hs, Ht in Hr. cbn [orb] in Hr.
    destruct (isPerfectRhyme (Val s) (Val t)) as [[|]|]; cbn [bind] in Hr;
      [injection Hr as <-; discriminate Hty | | discriminate Hr].
    unfold isAssonance in Hr.
    destruct (array_includes (group_of assonanceGroups (Val s) []) (Val t))
      as [[|]|] eqn:H1; cbn [bind] in Hr.
    + exact (assonance_included_family s t Oa H1).
    + destruct (array_includes (group_of assonanceGroups (Val t) []) (Val s))
        as [[|]|] eqn:H2; cbn [bind] in Hr.
      * destruct (assonance_included_family t s Ob H2) as (Hne & Hin1 & Hin2).
        split; [congruence|]. now split.
      * destruct (isConsonance (Val s) (Val t)) as [[|]|]; cbn [bind] in Hr;
          try discriminate Hr; injection Hr as <-; discriminate Hty.
      * discriminate Hr.
    + discriminate Hr.
  - intro Hty. destruct (Hstr (or_intror Hty)) as (s & t & Ea & Eb & Hs & Ht).
    rewrite Ea, Eb in *.
    unfold classifyKeys in Hr. cbn [falsy] in Hr.
    apply String.eqb_neq in Hs, Ht. rewrite Hs, Ht in Hr. cbn [orb] in Hr.
    destruct (isPerfectRhyme (Val s) (Val t)) as [[|]|]; cbn [bind] in Hr;
      [injection Hr as <-; discriminate Hty | | discriminate Hr].
    destruct (isAssonance (Val s) (Val t)) as [[|]|]; cbn [bind] in Hr;
      [injection Hr as <-; discriminate Hty | | discriminate Hr].
    unfold isConsonance in Hr.
    destruct (getEndingConsonants (Val s)) as [c1|] eqn:H1; [|discriminate Hr].
    destruct (getEndingConsonants (Val t)) as [c2|] eqn:H2; [|discriminate Hr].
    cbn [bind] in Hr.
    destruct ((0 <? length c1)%nat && (c1 =? c2)) eqn:E;
      [|injection Hr as <-; discriminate Hty].
    apply andb_true_iff in E as [Hlen Heq]. apply String.eqb_eq in Heq. subst c2.
    destruct (ending_consonants_suffix s c1 H1) as [Hs1 Hc].
    destruct (ending_consonants_suffix t c1 H2) as [Ht1 _].
    exists s, t, c1. split; [reflexivity|]. split; [reflexivity|].
    split. { intros ->. discriminate Hlen. }
    now repeat split.
Qed.

Lemma assonance_and_consonance_keys_witness :
  analyzeRhyme "topic" "mac" = Ok {| rhymes := true; type := consonance |} /\
  exists s t c,
    extractRhymingSyllable "topic" = Val s /\
    extractRhymingSyllable "mac" = Val t /\
    c <> "" /\ all_chars is_consonant_y c = true /\
    endsWith s c = true /\ endsWith t c = true.
Proof.
  assert (H : analyzeRhyme "topic" "mac"
              = Ok {| rhymes := true; type := consonance |}) by reflexivity.
  split; [exact H|].
  exact (proj2 (assonance_and_consonance_keys "topic" "mac" _ H) eq_refl).
Defined.

(* ================================================================= *)
(** ** The syllables of a word *)

Lemma all_chars_filter_self : forall p s, all_chars p (str_filter p s) = true.
Proof.
  intros p. induction s as [|c r IH]; [reflexivity|].
  simpl. destruct (p c) eqn:E; [|exact IH].
  rewrite all_chars_cons, E. exact IH.
Qed.

Lemma letters_inherited : forall s,
  all_chars is_az s = true -> str_mem s object_prototype_names = true ->
  s = "constructor".
Proof.
  intros s Haz Hin. apply str_mem_In in Hin. simpl in Hin.
  repeat (destruct Hin as [<-|Hin];
          [first [reflexivity | vm_compute in Haz; discriminate Haz]|]).
  contradiction.
Qed.

Lemma vowel_groups_bound : forall s prevChar previousWasVowel n,
  (n <= vowel_groups s prevChar previousWasVowel n <= n + Z.of_nat (length s))%Z.
Proof.
  induction s as [|c r IH]; intros p b n.
  - simpl. lia.
  - cbn [vowel_groups length].
    match goal with
    | |- context [vowel_groups r ?p' ?b' ?n'] => specialize (IH p' b' n'); revert IH
    end.
    destruct (is_one_of vowels c && negb b).
    + intro IH. lia.
    + destruct (is_one_of vowels c && b); [|intro IH; lia].
      match goal with |- context [if ?t then _ else _] => destruct t end;
        intro IH; lia.
Qed.

Lemma syllable_specialCases_range :
  forallb (fun e => (1 <=? snd e)%Z && (snd e <=? Z.of_nat (length (fst e)))%Z)
          syllable_specialCases = true.
Proof. reflexivity. Qed.

Lemma countWordSyllables_range : forall word,
  match countWordSyllables word with
  | Val n =>
      (0 <= n <= Z.of_nat (length (letters word)))%Z /\
      (n = 0%Z <-> letters word = "")
  | Builtin b => b = "constructor" /\ letters word = "constructor"
  end.
Proof.
  intro word. unfold countWordSyllables.
  destruct (String.eqb_spec word "") as [->|Hword].
  { simpl. split; [lia | now split]. }
  fold (letters word).
  pose proof (all_chars_filter_self is_az (toLowerCase word)) as Haz.
  fold (letters word) in Haz.
  destruct (String.eqb_spec (letters word) "") as [E|Hne].
  { rewrite E. simpl. split; [lia | now split]. }
  assert (Hlen : (1 <= Z.of_nat (length (letters word)))%Z).
  { destruct (letters word); [contradiction | simpl; lia]. }
  unfold get_prop.
  destruct (assoc (letters word) syllable_specialCases) as [n|] eqn:Hassoc.
  { apply assoc_In in Hassoc. pose proof syllable_specialCases_range as Hall.
    rewrite forallb_forall in Hall. specialize (Hall _ Hassoc).
    simpl in Hall. apply andb_true_iff in Hall as [H1 H2].
    apply Z.leb_le in H1, H2. split; [lia|]. split; [lia | contradiction]. }
  destruct (str_mem (letters word) object_prototype_names) eqn:Hin.
  { pose proof (letters_inherited _ Haz Hin) as E. now rewrite E. }
  pose proof (vowel_groups_bound (letters word) None false 0) as Hvg.
  set (vg := vowel_groups (letters word) None false 0) in *.
  cbv zeta.
  repeat match goal with
         | |- context [if ?c then _ else _] => destruct c
         | |- context [match ?o with Some _ => _ | None => _ end] => destruct o
         end;
    (split; [lia | split; [lia | contradiction]]).
Qed.

Lemma countWordSyllables_constructor : forall word,
  letters word = "constructor" -> countWordSyllables word = Builtin "constructor".
Proof.
  intros word H. unfold countWordSyllables.
  destruct (String.eqb_spec word "") as [->|_]; [discriminate H|].
  fold (letters word). rewrite H. reflexivity.
Qed.

(** X12. [countWordSyllables]: when the letters a to z of a word spell
    [constructor] the function returns the inherited property of that name
    instead of a number.  For every other word it returns a number, which is
    0 exactly when the word has no letter a to z and otherwise lies between 1
    and the number of those letters. *)
Theorem countWordSyllables_bounds : forall word,
  (letters word = "constructor" ->
   countWordSyllables word = Builtin "constructor") /\
  (letters word <> "constructor" ->
   exists n, countWordSyllables word = Val n /\
             (0 <= n <= Z.of_nat (length (letters word)))%Z /\
             (n = 0%Z <-> letters word = "")).
Proof.
  intro word. split; [apply countWordSyllables_constructor|].
  intro Hne. pose proof (countWordSyllables_range word) as H.
  destruct (countWordSyllables word) as [n|b].
  - exists n. now split.
  - destruct H as [_ H]. contradiction.
Qed.

Lemma countWordSyllables_bounds_witness :
  letters "Violets," <> "constructor" /\
  exists n, countWordSyllables "Violets," = Val n /\
            (0 <= n <= Z.of_nat (length (letters "Violets,")))%Z /\
            (n = 0%Z <-> letters "Violets," = "").
Proof.
  assert (H : letters "Violets," <> "constructor")
    by (vm_compute; discriminate).
  split; [exact H|].
  exact (proj2 (countWordSyllables_bounds "Violets,") H).
Defined.

(* ================================================================= *)
(** ** The syllables of a line *)

Lemma countSinalefe_range : forall words,
  (0 <= countSinalefe words <= Z.of_nat (List.length words - 1))%Z.
Proof.
  induction words as [|w ws IH]; [simpl; lia|].
  destruct ws as [|w' ws']; [simpl; lia|].
  change (countSinalefe (w :: w' :: ws'))
    with ((if elides w w' then 1 else 0) + countSinalefe (w' :: ws'))%Z.
  simpl List.length in *. destruct (elides w w'); lia.
Qed.

Lemma lowered_vowel : forall c,
  isVowel (lower_char c) = true -> is_aeiou (lower_char c) = true.
Proof.
  intros [[] [] [] [] [] [] [] []]; vm_compute; intro H;
    first [reflexivity | discriminate H].
Qed.

Lemma lowered_vowels : forall w,
  all_chars (fun c => implb (isVowel c) (is_aeiou c)) (toLowerCase w) = true.
Proof.
  induction w as [|c r IH]; [reflexivity|].
  unfold toLowerCase in *. simpl str_map. rewrite all_chars_cons, IH, andb_true_r.
  destruct (isVowel (lower_char c)) eqn:E; [|reflexivity].
  now rewrite (lowered_vowel c E).
Qed.

Lemma elides_vowels : forall w w',
  elides w w' = true ->
  exists a b pre rest,
    str_filter is_word_apos_accent (toLowerCase w) = (pre ++ String a "")%string /\
    str_filter is_word_apos_accent (toLowerCase w') = String b rest /\
    is_aeiou a = true /\ is_aeiou b = true.
Proof.
  intros w w' H. unfold elides in H.
  pose proof (all_chars_filter _ is_word_apos_accent _ (lowered_vowels w)) as Hw.
  pose proof (all_chars_filter _ is_word_apos_accent _ (lowered_vowels w')) as Hw'.
  set (cw := str_filter is_word_apos_accent (toLowerCase w)) in *.
  set (cw' := str_filter is_word_apos_accent (toLowerCase w')) in *.
  pose proof (endsWith_slice_last 1 cw) as Hends.
  pose proof (all_chars_substring _ cw (length cw - 1) 1 Hw) as Hlast.
  fold (slice_last 1 cw) in Hlast.
  destruct (slice_last 1 cw) as [|a [|x y]]; try discriminate H.
  simpl list_ascii_of_string in H. unfold char_at in H.
  destruct cw' as [|b rest]; [discriminate H|]. simpl get in H.
  apply andb_true_iff in H as [H _]. apply andb_true_iff in H as [Ha Hb].
  apply endsWith_iff in Hends as [pre Hpre].
  rewrite all_chars_cons in Hlast, Hw'.
  apply andb_true_iff in Hlast as [Hla _]. apply andb_true_iff in Hw' as [Hlb _].
  rewrite Ha in Hla. rewrite Hb in Hlb.
  exists a, b, pre, rest. now repeat split.
Qed.

(** X13. [countSinalefe] counts at most one elision for every pair of
    neighbouring words, so the count lies between 0 and the number of words
    less one; and a pair is counted only when the first word, cleaned, ends
    with one of a, e, i, o, u and the next one starts with one of them. *)
Theorem countSinalefe_bounds :
  (forall words,
     (0 <= countSinalefe words <= Z.of_nat (List.length words - 1))%Z) /\
  (forall w w' rest,
     countSinalefe (w :: w' :: rest) <> countSinalefe (w' :: rest) ->
     countSinalefe (w :: w' :: rest) = (1 + countSinalefe (w' :: rest))%Z /\
     exists a b pre tail,
       str_filter is_word_apos_accent (toLowerCase w)
       = (pre ++ String a "")%string /\
       str_filter is_word_apos_accent (toLowerCase w') = String b tail /\
       is_aeiou a = true /\ is_aeiou b = true).
Proof.
  split; [exact countSinalefe_range|].
  intros w w' rest H.
  change (countSinalefe (w :: w' :: rest))
    with ((if elides w w' then 1 else 0) + countSinalefe (w' :: rest))%Z in *.
  destruct (elides w w') eqn:E.
  - split; [reflexivity | now apply elides_vowels].
  - exfalso. apply H. lia.
Qed.

Lemma countSinalefe_bounds_witness :
  countSinalefe ["la"; "amica"] <> countSinalefe ["amica"] /\
  countSinalefe ["la"; "amica"] = (1 + countSinalefe ["amica"])%Z.
Proof.
  assert (H : countSinalefe ["la"; "amica"] <> countSinalefe ["amica"])
    by (vm_compute; discriminate).
  split; [exact H|].
  exact (proj1 (proj2 countSinalefe_bounds "la" "amica" [] H)).
Defined.

Lemma total_is_text : forall words,
  fold_left (fun t word => add_count t (countWordSyllables word)) words Text = Text.
Proof. induction words as [|w ws IH]; [reflexivity | exact IH]. Qed.

Lemma total_text_iff : forall words z,
  fold_left (fun t word => add_count t (countWordSyllables word)) words (Total z)
  = Text
  <-> existsb (fun w => letters w =? "constructor") words = true.
Proof.
  induction words as [|w ws IH]; intro z.
  - simpl. split; discriminate.
  - cbn [fold_left existsb]. pose proof (countWordSyllables_range w) as Hw.
    destruct (countWordSyllables w) as [n|b] eqn:E.
    + cbn [add_count]. rewrite IH.
      destruct (String.eqb_spec (letters w) "constructor") as [Hc|_];
        [|reflexivity].
      rewrite (countWordSyllables_constructor w Hc) in E. discriminate E.
    + destruct Hw as [_ ->]. cbn [add_count]. rewrite total_is_text.
      now split.
Qed.

Lemma words_of_empty : words_of "" = [].
Proof. reflexivity. Qed.

(** X14. [countSyllables] returns [NaN] exactly when the letters a to z of
    one word of the line spell [constructor]; any other line gets an
    integer. *)
Theorem countSyllables_NaN_iff : forall text,
  countSyllables text = NaN <->
  existsb (fun w => letters w =? "constructor") (words_of text) = true.
Proof.
  intro text. destruct (String.eqb_spec text "") as [->|Hne].
  { rewrite words_of_empty. simpl. split; discriminate. }
  rewrite (countSyllables_unfold text Hne).
  destruct (words_of text) as [|w ws] eqn:Hw.
  { simpl. split; discriminate. }
  cbn [List.length Nat.eqb]. rewrite <- (total_text_iff (w :: ws) 0).
  destruct (fold_left _ (w :: ws) (Total 0)); split; try discriminate;
    reflexivity.
Qed.

Lemma nletters_cons : forall c r,
  length (letters (String c r))
  = (if is_az (lower_char c) then 1 else 0) + length (letters r).
Proof.
  intros c r. unfold letters, toLowerCase. simpl.
  now destruct (is_az (lower_char c)).
Qed.

Lemma space_is_no_letter : forall c,
  is_space c = true -> is_az (lower_char c) = false.
Proof.
  intros [[] [] [] [] [] [] [] []]; vm_compute; intro H;
    first [reflexivity | discriminate H].
Qed.

Lemma blank_keeps_letters : forall c,
  is_az (lower_char (blank_punctuation (lower_char c))) = is_az (lower_char c).
Proof. intros [[] [] [] [] [] [] [] []]; vm_compute; reflexivity. Qed.

Lemma nletters_rev_onto : forall s acc,
  length (letters (str_rev_onto s acc))
  = length (letters s) + length (letters acc).
Proof.
  induction s as [|c r IH]; intro acc; [reflexivity|].
  simpl str_rev_onto. rewrite IH, !nletters_cons. lia.
Qed.

Lemma nletters_rev : forall s, length (letters (str_rev s)) = length (letters s).
Proof.
  intro s. unfold str_rev. rewrite nletters_rev_onto. simpl. lia.
Qed.

Lemma nletters_drop_spaces : forall s,
  length (letters (drop_spaces s)) = length (letters s).
Proof.
  induction s as [|c r IH]; [reflexivity|].
  simpl drop_spaces. destruct (is_space c) eqn:E; [|reflexivity].
  rewrite IH, nletters_cons, (space_is_no_letter c E). reflexivity.
Qed.

Lemma nletters_trim : forall s, length (letters (trim s)) = length (letters s).
Proof.
  intro s. unfold trim.
  now rewrite nletters_rev, nletters_drop_spaces, nletters_rev,
    nletters_drop_spaces.
Qed.

Lemma nletters_cleaned : forall s,
  length (letters (str_map blank_punctuation (toLowerCase s)))
  = length (letters s).
Proof.
  induction s as [|c r IH]; [reflexivity|].
  unfold toLowerCase in *. simpl str_map.
  rewrite !nletters_cons, IH, blank_keeps_letters. reflexivity.
Qed.

Lemma sum_letters_cons : forall w ws,
  list_sum (map (fun w => length (letters w)) (w :: ws))
  = length (letters w) + list_sum (map (fun w => length (letters w)) ws).
Proof. reflexivity. Qed.

Lemma nletters_split : forall s cur in_run,
  list_sum (map (fun w => length (letters w)) (split_ws_from s cur in_run))
  = length (letters cur) + length (letters s).
Proof.
  induction s as [|c r IH]; intros cur in_run.
  - simpl. rewrite nletters_rev. lia.
  - cbn [split_ws_from]. rewrite nletters_cons.
    destruct (is_space c) eqn:E.
    + rewrite (space_is_no_letter c E).
      destruct in_run.
      * rewrite IH. lia.
      * rewrite sum_letters_cons, IH, nletters_rev. simpl. lia.
    + rewrite IH, nletters_cons. lia.
Qed.

Lemma nletters_nonempty : forall ws,
  list_sum (map (fun w => length (letters w))
                (filter (fun word => (0 <? length word)%nat) ws))
  = list_sum (map (fun w => length (letters w)) ws).
Proof.
  induction ws as [|w l IH]; [reflexivity|].
  cbn [filter]. destruct w as [|c r]; [simpl; exact IH|].
  change (0 <? length (String c r))%nat with true. cbv iota.
  now rewrite !sum_letters_cons, IH.
Qed.

Lemma nletters_words : forall text,
  list_sum (map (fun w => length (letters w)) (words_of text))
  = length (letters text).
Proof.
  intro text. unfold words_of, split_ws.
  rewrite nletters_nonempty, nletters_split, nletters_trim, nletters_cleaned.
  reflexivity.
Qed.

Lemma total_bound : forall words z z',
  fold_left (fun t word => add_count t (countWordSyllables word)) words (Total z)
  = Total z' ->
  (z <= z' <= z + Z.of_nat (list_sum (map (fun w => length (letters w)) words)))%Z.
Proof.
  induction words as [|w ws IH]; intros z z' H.
  - simpl in *. injection H as <-. lia.
  - rewrite sum_letters_cons. cbn [fold_left] in H.
    pose proof (countWordSyllables_range w) as Hw.
    destruct (countWordSyllables w) as [n|b].
    + cbn [add_count] in H. apply IH in H. lia.
    + cbn [add_count] in H. rewrite total_is_text in H. discriminate H.
Qed.

(** X15. [countSyllables]: a count that is a number lies between 0 and the
    number of letters a to z of the lower-cased line, and at most 1 when the
    line has no such letter. *)
Theorem countSyllables_at_most_letters : forall text n,
  countSyllables text = Num n ->
  (0 <= n <= Z.max 1 (Z.of_nat (length (letters text))))%Z.
Proof.
  intros text n H. destruct (String.eqb_spec text "") as [->|Hne].
  { simpl in H. injection H as <-. simpl. lia. }
  rewrite (countSyllables_unfold text Hne) in H.
  destruct (List.length (words_of text) =? 0)%nat.
  { injection H as <-. lia. }
  destruct (fold_left _ (words_of text) (Total 0)) as [z|] eqn:Hz;
    [|discriminate H].
  injection H as <-. apply total_bound in Hz.
  rewrite nletters_words in Hz.
  pose proof (countSinalefe_range (words_of text)). lia.
Qed.

Lemma countSyllables_at_most_letters_witness :
  countSyllables "Violets are blue," = Num 6%Z /\
  (0 <= 6 <= Z.max 1 (Z.of_nat (length (letters "Violets are blue,"))))%Z.
Proof.
  assert (H : countSyllables "Violets are blue," = Num 6%Z) by reflexivity.
  split; [exact H|].
  exact (countSyllables_at_most_letters "Violets are blue," 6%Z H).
Defined.

(** X16. [countSyllables] does not depend on letter case: the lower-cased
    line has the count of the line. *)
Theorem countSyllables_ignores_case : forall text,
  countSyllables (toLowerCase text) = countSyllables text.
Proof.
  intro text. unfold countSyllables. rewrite toLowerCase_idem.
  destruct text as [|c r]; reflexivity.
Qed.

(* ================================================================= *)
(** ** The fields that [determineRhymePattern] leaves alone *)

Lemma retyped_field : forall (A : Type) (f : Verse -> A),
  (forall t v, f (set_rhyme_type t v) = f v) ->
  forall a b, retyped a b -> map f b = map f a.
Proof.
  intros A f Hf a b H. induction H as [|v v' a b Hv _ IH]; [reflexivity|].
  simpl. rewrite IH. f_equal. rewrite Hv. apply Hf.
Qed.

Lemma labelled_field : forall (A : Type) (f : Verse -> A),
  (forall l v, f (set_rhyme_index l v) = f v) ->
  forall ls vs, List.length ls = List.length vs ->
  map f (labelled ls vs) = map f vs.
Proof.
  intros A f Hf. unfold labelled.
  induction ls as [|l ls IH]; intros [|v vs] Hlen; try discriminate Hlen;
    [reflexivity|].
  simpl. rewrite Hf. f_equal. apply IH. now injection Hlen.
Qed.

Lemma determine_field : forall (A : Type) (f : Verse -> A),
  (forall t v, f (set_rhyme_type t v) = f v) ->
  (forall l v, f (set_rhyme_index l v) = f v) ->
  forall vs vs' pat,
    determineRhymePattern vs = Ok (vs', pat) -> map f vs' = map f vs.
Proof.
  intros A f Ht Hl vs vs' pat Hdet.
  destruct (determineRhymePattern_inv _ _ _ Hdet)
    as (vs1 & st & _ & Hinv & Hret & _).
  rewrite (retyped_field A f Ht _ _ Hret), (inv_done _ _ _ Hinv).
  apply (labelled_field A f Hl).
  exact (ok_length _ _ (inv_tables _ _ _ Hinv)).
Qed.

(** X17. [determineRhymePattern] writes [rhyme_index] and [rhyme_type] only:
    the verses keep their number, their order and their fields [index],
    [text], [rhyming_syllable] and [syllable_count]. *)
Theorem determine_writes_index_and_type_only : forall vs vs' pat,
  determineRhymePattern vs = Ok (vs', pat) ->
  List.length vs' = List.length vs /\
  map index vs' = map index vs /\
  map text vs' = map text vs /\
  map rhyming_syllable vs' = map rhyming_syllable vs /\
  map syllable_count vs' = map syllable_count vs.
Proof.
  intros vs vs' pat Hdet. split.
  - rewrite <- (length_map text vs'), <- (length_map text vs). f_equal.
    now apply (determine_field _ text) with (pat := pat).
  - repeat split; now apply determine_field with (pat := pat).
Qed.

Lemma determine_writes_index_and_type_only_witness :
  let vs := verses_of_lines cat_lines in
  let r := determined cat_lines in
  determineRhymePattern vs = Ok (fst r, snd r) /\
  List.length (fst r) = List.length vs /\
  map index (fst r) = map index vs /\
  map text (fst r) = map text vs /\
  map rhyming_syllable (fst r) = map rhyming_syllable vs /\
  map syllable_count (fst r) = map syllable_count vs.
Proof.
  intros vs r.
  assert (H : determineRhymePattern vs = Ok (fst r, snd r))
    by (vm_compute; reflexivity).
  split; [exact H|].
  exact (determine_writes_index_and_type_only vs (fst r) (snd r) H).
Defined.

(* ================================================================= *)
(** ** The letters used as labels *)

Lemma openers_before_le : forall vs j, openers_before vs j <= j.
Proof.
  intros vs j. unfold openers_before.
  etransitivity; [apply filter_length_le | apply firstn_le_length].
Qed.

Lemma label_is_early_letter : forall vs vs' pat,
  determineRhymePattern vs = Ok (vs', pat) ->
  forall j v', nth_error vs' j = Some v' ->
    exists m, m <= j /\ rhyme_index v' = fromCharCode (65 + N.of_nat m).
Proof.
  intros vs vs' pat Hdet j.
  induction j as [j IH] using lt_wf_ind. intros v' Hv'.
  pose proof (determine_output_labels _ _ _ Hdet j v' Hv') as H.
  destruct (first_match (firstn j vs') v') as [i|].
  - destruct H as (Hij & p' & Hp' & Heq).
    destruct (IH i Hij p' Hp') as (m & Hm & Hl).
    exists m. split; [lia | congruence].
  - exists (openers_before vs' j). split; [apply openers_before_le | exact H].
Qed.

(** X18. The labels of a stanza: the verse at position [j] carries the code
    unit [65 + m] for some [m <= j], so the first verse is labelled [A];
    in a stanza of at most 26 verses every label is a capital letter. *)
Theorem labels_are_early_letters : forall vs vs' pat,
  determineRhymePattern vs = Ok (vs', pat) ->
  (forall j v', nth_error vs' j = Some v' ->
     exists m, m <= j /\ rhyme_index v' = fromCharCode (65 + N.of_nat m)) /\
  (forall v', nth_error vs' 0 = Some v' -> rhyme_index v' = units_of "A") /\
  (List.length vs <= 26 ->
   Forall (fun v' => exists c, rhyme_index v' = [c] /\ (65 <= c <= 90)%N) vs').
Proof.
  intros vs vs' pat Hdet.
  pose proof (label_is_early_letter _ _ _ Hdet) as Hlab.
  split; [exact Hlab|]. split.
  - intros v' Hv'. destruct (Hlab 0 v' Hv') as (m & Hm & ->).
    assert (m = 0) by lia. subst m. reflexivity.
  - intro Hlen. apply Forall_forall. intros v' Hin.
    destruct (In_nth_error _ _ Hin) as [j Hj].
    destruct (Hlab j v' Hj) as (m & Hm & ->).
    assert (Hjlt : j < List.length vs').
    { apply nth_error_Some. congruence. }
    destruct (determineRhymePattern_inv _ _ _ Hdet)
      as (vs1 & st & Hgrp & _).
    destruct (determineRhymePattern_result _ _ _ _ _ Hdet Hgrp)
      as (_ & Hl & _).
    exists (65 + N.of_nat m)%N. unfold fromCharCode.
    rewrite N.mod_small by lia. split; [reflexivity | lia].
Qed.

Lemma labels_are_early_letters_witness :
  let vs := verses_of_lines cat_lines in
  let r := determined cat_lines in
  determineRhymePattern vs = Ok (fst r, snd r) /\
  List.length vs <= 26 /\
  Forall (fun v' => exists c, rhyme_index v' = [c] /\ (65 <= c <= 90)%N) (fst r).
Proof.
  intros vs r.
  assert (H : determineRhymePattern vs = Ok (fst r, snd r))
    by (vm_compute; reflexivity).
  assert (Hlen : List.length vs <= 26) by (vm_compute; lia).
  split; [exact H|]. split; [exact Hlen|].
  exact (proj2 (proj2 (labels_are_early_letters vs (fst r) (snd r) H)) Hlen).
Defined.

(* ================================================================= *)
(** ** Verses with the same label *)

(** X19. In a stanza of at most 65536 verses, two verses with the same label
    have the same [rhyme_type]. *)
Theorem same_label_same_type : forall vs vs' pat i j u' v',
  determineRhymePattern vs = Ok (vs', pat) ->
  (N.of_nat (List.length vs) <= 65536)%N ->
  nth_error vs' i = Some u' ->
  nth_error vs' j = Some v' ->
  rhyme_index u' = rhyme_index v' ->
  rhyme_type u' = rhyme_type v'.
Proof.
  intros vs vs' pat i j u' v' Hdet Hsmall Hu' Hv' Hsame.
  destruct (determineRhymePattern_inv _ _ _ Hdet) as (vs1 & st & Hgrp & _).
  destruct (determineRhymePattern_result _ _ _ _ _ Hdet Hgrp)
    as (Hinv & _ & Hidx & _ & _ & Htype).
  assert (Hfresh : labels_fresh st (List.length vs)).
  { exact (group_loop_fresh vs [] [] initial_state vs1 st
             initial_grouping_inv initial_labels_fresh Hsmall Hgrp). }
  pose proof (nth_error_rhyme_index _ _ _ Hu') as Hli.
  pose proof (nth_error_rhyme_index _ _ _ Hv') as Hlj.
  rewrite Hidx in Hli, Hlj. rewrite Hsame in Hli.
  destruct (fresh_member _ _ Hfresh _ _ Hli) as (g & Hg & Hi).
  destruct (fresh_member _ _ Hfresh _ _ Hlj) as (g' & Hg' & Hj).
  rewrite Hg in Hg'. injection Hg' as <-.
  rewrite (Htype _ _ _ _ Hg Hi Hu'), (Htype _ _ _ _ Hg Hj Hv'). reflexivity.
Qed.

Lemma same_label_same_type_witness :
  let vs := verses_of_lines cat_lines in
  let r := determined cat_lines in
  let u' := nth 2 (fst r) blank_verse in
  let v' := nth 3 (fst r) blank_verse in
  determineRhymePattern vs = Ok (fst r, snd r) /\
  (N.of_nat (List.length vs) <= 65536)%N /\
  nth_error (fst r) 2 = Some u' /\
  nth_error (fst r) 3 = Some v' /\
  rhyme_index u' = rhyme_index v' /\
  rhyme_type u' = rhyme_type v'.
Proof.
  intros vs r u' v'.
  assert (H : determineRhymePattern vs = Ok (fst r, snd r))
    by (vm_compute; reflexivity).
  assert (Hlen : (N.of_nat (List.length vs) <= 65536)%N)
    by (vm_compute; discriminate).
  assert (Hu : nth_error (fst r) 2 = Some u') by (vm_compute; reflexivity).
  assert (Hv : nth_error (fst r) 3 = Some v') by (vm_compute; reflexivity).
  assert (Hs : rhyme_index u' = rhyme_index v') by (vm_compute; reflexivity).
  split; [exact H|]. split; [exact Hlen|]. split; [exact Hu|].
  split; [exact Hv|]. split; [exact Hs|].
  exact (same_label_same_type vs (fst r) (snd r) 2 3 u' v' H Hlen Hu Hv Hs).
Defined.

(* ================================================================= *)
(** ** A stanza without rhymes *)

Lemma first_match_none : forall l v,
  (forall p, In p l -> joins p v = false) -> first_match l v = None.
Proof.
  induction l as [|p l IH]; intros v H; [reflexivity|].
  simpl. rewrite (H p) by now left.
  rewrite IH; [reflexivity|]. intros q Hq. apply H. now right.
Qed.

Lemma openers_all : forall todo done,
  (forall k v, nth_error todo k = Some v ->
               first_match (done ++ firstn k todo) v = None) ->
  openers done todo = repeat true (List.length todo).
Proof.
  induction todo as [|v rest IH]; intros done H; [reflexivity|].
  simpl. pose proof (H 0 v eq_refl) as H0. simpl in H0.
  rewrite app_nil_r in H0. rewrite H0. f_equal. apply IH.
  intros k v' Hk. specialize (H (S k) v' Hk). simpl in H.
  now rewrite <- app_assoc.
Qed.

Lemma count_repeat_true : forall n j,
  j <= n -> List.length (filter (fun b : bool => b) (firstn j (repeat true n))) = j.
Proof.
  induction n as [|n IH]; intros [|j] H; try reflexivity; [lia|].
  simpl. f_equal. apply IH. lia.
Qed.

Lemma unrhymed_first_match : forall vs,
  (forall i j p v, i < j -> nth_error vs i = Some p -> nth_error vs j = Some v ->
                   joins p v = false) ->
  forall k v, nth_error vs k = Some v -> first_match (firstn k vs) v = None.
Proof.
  intros vs H k v Hk. apply first_match_none. intros p Hp.
  destruct (In_nth_error _ _ Hp) as [i Hi].
  rewrite nth_error_firstn in Hi.
  destruct (Nat.ltb_spec i k) as [Hlt|]; [|discriminate Hi].
  exact (H i k p v Hlt Hi Hk).
Qed.

(** X20. A stanza in which no verse rhymes with an earlier one for the typed
    analysis: the verse at position [j] gets the label of code unit [65 + j]
    (A, B, C, ...), and in a stanza of at most 65536 verses every
    [rhyme_type] is the empty string. *)
Theorem unrhymed_stanza_is_ABC : forall vs vs' pat,
  determineRhymePattern vs = Ok (vs', pat) ->
  (forall i j p v, i < j -> nth_error vs i = Some p -> nth_error vs j = Some v ->
                   joins p v = false) ->
  (forall j v', nth_error vs' j = Some v' ->
                rhyme_index v' = fromCharCode (65 + N.of_nat j)) /\
  ((N.of_nat (List.length vs) <= 65536)%N ->
   Forall (fun v' => rhyme_type v' = "") vs').
Proof.
  intros vs vs' pat Hdet Hno.
  destruct (determineRhymePattern_inv _ _ _ Hdet) as (vs1 & st & Hgrp & _).
  destruct (determineRhymePattern_result _ _ _ _ _ Hdet Hgrp)
    as (_ & Hlen & _).
  pose proof (unrhymed_first_match vs Hno) as Hfm.
  assert (Hop : openers [] vs = repeat true (List.length vs)).
  { apply openers_all. intros k v Hk. simpl. now apply Hfm. }
  assert (Hlab : forall j v', nth_error vs' j = Some v' ->
                   rhyme_index v' = fromCharCode (65 + N.of_nat j)).
  { intros j v' Hv'.
    assert (Hj : j < List.length vs).
    { rewrite <- Hlen. apply nth_error_Some. congruence. }
    destruct (nth_error_exists _ vs j Hj) as [v Hv].
    destruct (proj2 determine_follows_typed_analysis vs vs' pat Hdet j v Hv)
      as (w & Hw & Hm).
    rewrite Hv' in Hw. injection Hw as <-.
    rewrite (Hfm j v Hv) in Hm. rewrite Hm. unfold openers_before.
    rewrite Hop, count_repeat_true by lia. reflexivity. }
  split; [exact Hlab|].
  intro Hsmall. apply Forall_forall. intros v' Hin.
  destruct (In_nth_error _ _ Hin) as [j Hj].
  apply (proj2 (determine_singleton_groups _ _ _ _ _ Hdet Hgrp) j v' Hj).
  intros i u' Hi Hsame.
  rewrite (Hlab _ _ Hi), (Hlab _ _ Hj) in Hsame.
  assert (Hib : i < List.length vs).
  { rewrite <- Hlen. apply nth_error_Some. congruence. }
  assert (Hjb : j < List.length vs).
  { rewrite <- Hlen. apply nth_error_Some. congruence. }
  destruct (Nat.lt_trichotomy i j) as [Hlt|[Heq|Hgt]]; [|exact Heq|].
  - exfalso. revert Hsame. apply fromCharCode_fresh; lia.
  - exfalso. symmetry in Hsame. revert Hsame. apply fromCharCode_fresh; lia.
Qed.

Lemma unrhymed_stanza_is_ABC_witness :
  let vs := verses_of_lines ["a cat"; "so sad"] in
  let r := determined ["a cat"; "so sad"] in
  determineRhymePattern vs = Ok (fst r, snd r) /\
  (forall i j p v, i < j -> nth_error vs i = Some p -> nth_error vs j = Some v ->
                   joins p v = false) /\
  (N.of_nat (List.length vs) <= 65536)%N /\
  map rhyme_index (fst r) = [units_of "A"; units_of "B"] /\
  Forall (fun v' => rhyme_type v' = "") (fst r).
Proof.
  intros vs r.
  assert (H : determineRhymePattern vs = Ok (fst r, snd r))
    by (vm_compute; reflexivity).
  assert (Hno : forall i j p v, i < j -> nth_error vs i = Some p ->
                  nth_error vs j = Some v -> joins p v = false).
  { intros i j p v Hij Hp Hv.
    destruct j as [|[|j]].
    - lia.
    - destruct i as [|i]; [|lia].
      vm_compute in Hp. vm_compute in Hv.
      injection Hp as <-. injection Hv as <-. vm_compute. reflexivity.
    - vm_compute in Hv. destruct j; discriminate Hv. }
  assert (Hlen : (N.of_nat (List.length vs) <= 65536)%N)
    by (vm_compute; discriminate).
  split; [exact H|]. split; [exact Hno|]. split; [exact Hlen|].
  split; [vm_compute; reflexivity|].
  exact (proj2 (unrhymed_stanza_is_ABC vs (fst r) (snd r) H Hno) Hlen).
Defined.

(* ================================================================= *)
(** ** The values of [rhyme_type] *)

Lemma finalType_of_values : forall g,
  finalType_of g = "" \/ finalType_of g = "rhyme" \/
  finalType_of g = "assonance" \/ finalType_of g = "consonance".
Proof.
  intro g. unfold finalType_of.
  destruct (List.length (group_verses g) =? 1)%nat; [now left|].
  destruct (group_type g); simpl; tauto.
Qed.

Lemma determine_types : forall vs vs' pat,
  determineRhymePattern vs = Ok (vs', pat) ->
  forall j v', nth_error vs' j = Some v' ->
    nth_error (map rhyme_type vs) j = Some (rhyme_type v') \/
    rhyme_type v' = "" \/ rhyme_type v' = "rhyme" \/
    rhyme_type v' = "assonance" \/ rhyme_type v' = "consonance".
Proof.
  intros vs vs' pat Hdet j v' Hv'.
  destruct (determineRhymePattern_inv _ _ _ Hdet)
    as (vs1 & st & Hgrp & Hinv & Hret & _ & Hfin).
  destruct vs as [|v0 vs0].
  { unfold determineRhymePattern in Hdet. simpl in Hdet.
    injection Hdet as <- <-. destruct j; discriminate Hv'. }
  specialize (Hfin ltac:(discriminate)).
  assert (Huniq : forall k g k' g' j,
             groups_get k (rhymeGroups st) = Some g ->
             groups_get k' (rhymeGroups st) = Some g' ->
             In j (group_verses g) -> In j (group_verses g') -> k = k').
  { intros k0 g0 k1 g1 j0 Hk0 Hk1 Hj0 Hj1.
    destruct (ok_group _ _ (inv_tables _ _ _ Hinv) _ _ Hk0) as (_ & _ & Hin0 & _).
    destruct (ok_group _ _ (inv_tables _ _ _ Hinv) _ _ Hk1) as (_ & _ & Hin1 & _).
    specialize (Hin0 _ Hj0). specialize (Hin1 _ Hj1). congruence. }
  destruct (finalize_spec _ _ _ _ Huniq Hfin) as [_ Hpoint].
  destruct (Hpoint _ _ Hv') as [[Hold | (k & g & _ & _ & _ & Hty)] _].
  - left. rewrite <- (labelled_rhyme_type (rhymeIndices st) (v0 :: vs0))
      by exact (ok_length _ _ (inv_tables _ _ _ Hinv)).
    rewrite <- (inv_done _ _ _ Hinv). rewrite nth_error_map, Hold. reflexivity.
  - right. rewrite Hty. apply finalType_of_values.
Qed.

(* ================================================================= *)
(** ** The stanzas and verses of a parsed text *)

Lemma nth_error_mapi_from : forall (A B : Type) (f : A -> nat -> B) l k i,
  nth_error (mapi_from k f l) i = option_map (fun a => f a (k + i)) (nth_error l i).
Proof.
  intros A B f. induction l as [|a l IH]; intros k i.
  - now destruct i.
  - destruct i as [|i]; simpl.
    + now rewrite Nat.add_0_r.
    + rewrite IH. now replace (S k + i) with (k + S i) by lia.
Qed.

Lemma length_mapi_from : forall (A B : Type) (f : A -> nat -> B) l k,
  List.length (mapi_from k f l) = List.length l.
Proof.
  intros A B f. induction l as [|a l IH]; intro k; [reflexivity|].
  simpl. now rewrite IH.
Qed.

Lemma parse_verses_nth : forall stanzaText k i v,
  nth_error (parseStanzaIntoVerses stanzaText k) i = Some v ->
  exists line, nth_error (lines_of stanzaText) i = Some line /\
               v = verse_of_line line i.
Proof.
  intros stanzaText k i v H. unfold parseStanzaIntoVerses in H.
  rewrite nth_error_mapi_from in H. fold (lines_of stanzaText) in H.
  destruct (nth_error (lines_of stanzaText) i) as [line|]; [|discriminate H].
  exists line. split; [reflexivity|]. simpl in H. now injection H as <-.
Qed.

Lemma length_parse_verses : forall stanzaText k,
  List.length (parseStanzaIntoVerses stanzaText k)
  = List.length (lines_of stanzaText).
Proof. intros. unfold parseStanzaIntoVerses. apply length_mapi_from. Qed.

Lemma parse_stanzas_nth : forall stanzas k parsed,
  parse_stanzas stanzas k = Ok parsed ->
  List.length parsed = List.length stanzas /\
  forall i st, nth_error parsed i = Some st ->
    exists stanzaText,
      nth_error stanzas i = Some stanzaText /\
      stanza_index st = k + i + 1 /\
      determineRhymePattern (parseStanzaIntoVerses stanzaText (k + i))
      = Ok (verses st, rhyme_pattern st).
Proof.
  induction stanzas as [|stanzaText rest IH]; intros k parsed H; simpl in H.
  - injection H as <-. split; [reflexivity|]. intros [|i] st Hst; discriminate Hst.
  - destruct (determineRhymePattern (parseStanzaIntoVerses stanzaText k))
      as [[vs' pat]|] eqn:Hdet; simpl in H; [|discriminate H].
    destruct (parse_stanzas rest (S k)) as [parsed'|] eqn:Hrest;
      simpl in H; [|discriminate H].
    injection H as <-. destruct (IH _ _ Hrest) as [Hlen Hnth].
    split; [simpl; now rewrite Hlen|].
    intros [|i] st Hst; simpl in Hst.
    + injection Hst as <-. exists stanzaText. rewrite Nat.add_0_r.
      split; [reflexivity|]. split; [simpl; lia | exact Hdet].
    + destruct (Hnth i st Hst) as (t & Ht & Hidx & Hd).
      exists t. replace (k + S i) with (S k + i) by lia.
      split; [exact Ht|]. split; [lia | exact Hd].
Qed.

Lemma map_seq_from : forall (A : Type) (f : A -> nat) l k,
  (forall i a, nth_error l i = Some a -> f a = k + i) ->
  map f l = seq k (List.length l).
Proof.
  intros A f. induction l as [|a l IH]; intros k H; [reflexivity|].
  simpl. f_equal.
  - rewrite (H 0 a eq_refl). lia.
  - apply IH. intros i b Hb. rewrite (H (S i) b Hb). lia.
Qed.

(** The verses of a parsed stanza, as far as [determineRhymePattern] leaves
    them alone, are the verses built from the lines of the stanza text. *)
Lemma parsed_verse_origin : forall stanzaText k vs' pat j v',
  determineRhymePattern (parseStanzaIntoVerses stanzaText k) = Ok (vs', pat) ->
  nth_error vs' j = Some v' ->
  exists line,
    nth_error (lines_of stanzaText) j = Some line /\
    index v' = j + 1 /\ text v' = line /\
    rhyming_syllable v' = extractRhymingSyllable (getLastWord line) /\
    syllable_count v' = countSyllables line.
Proof.
  intros stanzaText k vs' pat j v' Hdet Hv'.
  set (f := fun v : Verse =>
              (index v, text v, rhyming_syllable v, syllable_count v)).
  assert (Hf : map f vs' = map f (parseStanzaIntoVerses stanzaText k)).
  { apply determine_field with (pat := pat); [reflexivity | reflexivity | exact Hdet]. }
  assert (Hj : nth_error (map f vs') j = Some (f v'))
    by (rewrite nth_error_map, Hv'; reflexivity).
  rewrite Hf, nth_error_map in Hj.
  destruct (nth_error (parseStanzaIntoVerses stanzaText k) j) as [v|] eqn:Hv;
    [|discriminate Hj].
  destruct (parse_verses_nth _ _ _ _ Hv) as (line & Hline & ->).
  exists line. split; [exact Hline|].
  simpl in Hj. unfold f in Hj. simpl in Hj. injection Hj as H1 H2 H3 H4.
  now repeat split.
Qed.

Lemma parsed_stanza_origin : forall lyrics stanzas st,
  parseLyrics lyrics = Ok stanzas -> In st stanzas ->
  exists i stanzaText,
    nth_error stanzas i = Some st /\
    nth_error (splitIntoStanzas lyrics) i = Some stanzaText /\
    stanza_index st = i + 1 /\
    determineRhymePattern (parseStanzaIntoVerses stanzaText i)
    = Ok (verses st, rhyme_pattern st).
Proof.
  intros lyrics stanzas st H Hst. unfold parseLyrics in H.
  destruct (In_nth_error _ _ Hst) as [i Hi].
  destruct (proj2 (parse_stanzas_nth _ _ _ H) i st Hi) as (t & Ht & Hidx & Hd).
  exists i, t. simpl in Hidx, Hd. now repeat split.
Qed.

(** X21. [parseLyrics] numbers from 1: the stanzas of the result carry the
    indices 1, 2, 3, ... in their order, and so do the verses of every
    stanza. *)
Theorem parse_numbers_from_one : forall lyrics stanzas,
  parseLyrics lyrics = Ok stanzas ->
  map stanza_index stanzas = seq 1 (List.length stanzas) /\
  forall st, In st stanzas ->
    map index (verses st) = seq 1 (List.length (verses st)).
Proof.
  intros lyrics stanzas H. split.
  - apply map_seq_from. intros i st Hi. unfold parseLyrics in H.
    destruct (proj2 (parse_stanzas_nth _ _ _ H) i st Hi) as (t & _ & Hidx & _).
    lia.
  - intros st Hst.
    destruct (parsed_stanza_origin _ _ _ H Hst) as (i & t & _ & _ & _ & Hdet).
    apply map_seq_from. intros j v' Hv'.
    destruct (parsed_verse_origin _ _ _ _ _ _ Hdet Hv') as (line & _ & Hidx & _).
    lia.
Qed.

Lemma parse_numbers_from_one_witness :
  parseLyrics (text_of_lines cat_lines) = Ok (parsed cat_lines) /\
  map stanza_index (parsed cat_lines) = seq 1 (List.length (parsed cat_lines)).
Proof.
  assert (H : parseLyrics (text_of_lines cat_lines) = Ok (parsed cat_lines))
    by (vm_compute; reflexivity).
  split; [exact H|].
  exact (proj1 (parse_numbers_from_one (text_of_lines cat_lines)
                  (parsed cat_lines) H)).
Defined.

(** X22. The key and the count stored in a parsed verse are those of its own
    text: [rhyming_syllable] is the key of the last word of [text], the key
    the grouping loop computes again, and [syllable_count] is the count of
    [text]. *)
Theorem parsed_verse_fields : forall lyrics stanzas st v,
  parseLyrics lyrics = Ok stanzas -> In st stanzas -> In v (verses st) ->
  rhyming_syllable v = verse_key v /\
  syllable_count v = countSyllables (text v).
Proof.
  intros lyrics stanzas st v H Hst Hv.
  destruct (parsed_stanza_origin _ _ _ H Hst) as (i & t & _ & _ & _ & Hdet).
  destruct (In_nth_error _ _ Hv) as [j Hj].
  destruct (parsed_verse_origin _ _ _ _ _ _ Hdet Hj)
    as (line & _ & _ & Htext & Hkey & Hcount).
  unfold verse_key. rewrite Htext. now split.
Qed.

Lemma parsed_verse_fields_witness :
  let st := first_stanza cat_lines in
  let v := nth 3 (verses st) blank_verse in
  parseLyrics (text_of_lines cat_lines) = Ok (parsed cat_lines) /\
  In st (parsed cat_lines) /\ In v (verses st) /\
  rhyming_syllable v = verse_key v /\
  syllable_count v = countSyllables (text v).
Proof.
  intros st v.
  assert (H : parseLyrics (text_of_lines cat_lines) = Ok (parsed cat_lines))
    by (vm_compute; reflexivity).
  assert (Hst : In st (parsed cat_lines)) by (vm_compute; left; reflexivity).
  assert (Hv : In v (verses st))
    by (vm_compute; do 3 right; left; reflexivity).
  split; [exact H|]. split; [exact Hst|]. split; [exact Hv|].
  exact (parsed_verse_fields (text_of_lines cat_lines) (parsed cat_lines) st v
           H Hst Hv).
Defined.

(* ================================================================= *)
(** ** The values of [rhyme_type] in a parsed text *)

(** X23. [parseLyrics] never reports the relation ['none']: the [rhyme_type]
    of a parsed verse is the empty string, ['rhyme'], ['assonance'] or
    ['consonance']. *)
Theorem parsed_rhyme_type_values : forall lyrics stanzas st v,
  parseLyrics lyrics = Ok stanzas -> In st stanzas -> In v (verses st) ->
  rhyme_type v = "" \/ rhyme_type v = "rhyme" \/
  rhyme_type v = "assonance" \/ rhyme_type v = "consonance".
Proof.
  intros lyrics stanzas st v H Hst Hv.
  destruct (parsed_stanza_origin _ _ _ H Hst) as (i & t & _ & _ & _ & Hdet).
  destruct (In_nth_error _ _ Hv) as [j Hj].
  destruct (determine_types _ _ _ Hdet j v Hj) as [Hold | Hnew];
    [|exact Hnew].
  left. rewrite nth_error_map in Hold.
  destruct (nth_error (parseStanzaIntoVerses t i) j) as [v0|] eqn:Hv0;
    [|discriminate Hold].
  destruct (parse_verses_nth _ _ _ _ Hv0) as (line & _ & ->).
  simpl in Hold. now injection Hold.
Qed.

Lemma parsed_rhyme_type_values_witness :
  let st := first_stanza cat_lines in
  let v := nth 3 (verses st) blank_verse in
  parseLyrics (text_of_lines cat_lines) = Ok (parsed cat_lines) /\
  In st (parsed cat_lines) /\ In v (verses st) /\
  (rhyme_type v = "" \/ rhyme_type v = "rhyme" \/
   rhyme_type v = "assonance" \/ rhyme_type v = "consonance").
Proof.
  intros st v.
  assert (H : parseLyrics (text_of_lines cat_lines) = Ok (parsed cat_lines))
    by (vm_compute; reflexivity).
  assert (Hst : In st (parsed cat_lines)) by (vm_compute; left; reflexivity).
  assert (Hv : In v (verses st))
    by (vm_compute; do 3 right; left; reflexivity).
  split; [exact H|]. split; [exact Hst|]. split; [exact Hv|].
  exact (parsed_rhyme_type_values (text_of_lines cat_lines)
           (parsed cat_lines) st v H Hst Hv).
Defined.

(* ================================================================= *)
(** ** The text of a parsed verse *)

Lemma drop_spaces_suffix : forall s,
  exists pre, s = (pre ++ drop_spaces s)%string /\ all_space pre = true.
Proof.
  induction s as [|c r IH]; [now exists ""|].
  simpl. destruct (is_space c) eqn:E.
  - destruct IH as (pre & Hpre & Hsp). exists (String c pre). split.
    + simpl. now rewrite <- Hpre.
    + unfold all_space in *. simpl. now rewrite E.
  - now exists "".
Qed.

Lemma trim_ends : forall s,
  first_is_space (trim s) = false /\ last_is_space (trim s) = false.
Proof.
  intro s. unfold trim, last_is_space.
  rewrite str_rev_involutive. split; [|apply drop_spaces_starts].
  destruct (drop_spaces_suffix (str_rev (drop_spaces s))) as (pre & Hpre & _).
  set (w := drop_spaces (str_rev (drop_spaces s))) in *.
  apply (f_equal str_rev) in Hpre.
  rewrite str_rev_involutive, str_rev_app in Hpre.
  pose proof (drop_spaces_starts s) as Hy. rewrite Hpre in Hy.
  destruct (str_rev w) as [|c r] eqn:E; [reflexivity|].
  exact Hy.
Qed.

Lemma all_chars_drop_spaces : forall p s,
  all_chars p s = true -> all_chars p (drop_spaces s) = true.
Proof.
  intros p. induction s as [|c r IH]; intro H; [reflexivity|].
  simpl. destruct (is_space c); [|exact H].
  rewrite all_chars_cons in H. apply andb_true_iff in H as [_ H]. now apply IH.
Qed.

Lemma all_chars_trim : forall p s,
  all_chars p s = true -> all_chars p (trim s) = true.
Proof.
  intros p s H. unfold trim.
  rewrite all_chars_rev. apply all_chars_drop_spaces.
  rewrite all_chars_rev. now apply all_chars_drop_spaces.
Qed.

Lemma split_nl_no_line_feed : forall s cur piece,
  no_line_feed cur = true -> In piece (split_nl_from s cur) ->
  no_line_feed piece = true.
Proof.
  unfold no_line_feed.
  induction s as [|c r IH]; intros cur piece Hcur Hin; simpl in Hin.
  - destruct Hin as [<-|[]]. now rewrite all_chars_rev.
  - destruct (code c =? 10)%nat eqn:E.
    + destruct Hin as [<-|Hin]; [now rewrite all_chars_rev|].
      now apply (IH "" piece).
    + apply (IH (String c cur) piece); [|exact Hin].
      rewrite all_chars_cons, E. exact Hcur.
Qed.

Lemma lines_of_shape : forall stanzaText line,
  In line (lines_of stanzaText) ->
  line <> "" /\ no_line_feed line = true /\
  first_is_space line = false /\ last_is_space line = false.
Proof.
  intros stanzaText line H. unfold lines_of in H.
  apply filter_In in H as [Hin Hne].
  apply in_map_iff in Hin as (piece & <- & Hpiece).
  split. { intro E. rewrite E in Hne. discriminate Hne. }
  split. { apply all_chars_trim.
           exact (split_nl_no_line_feed _ "" piece eq_refl Hpiece). }
  apply trim_ends.
Qed.

Lemma line_feed_is_space : forall c, (code c =? 10)%nat = true -> is_space c = true.
Proof.
  intros c H. apply Nat.eqb_eq in H. unfold is_space, in_range. rewrite H.
  reflexivity.
Qed.

Lemma all_space_cons : forall c r,
  all_space (String c r) = is_space c && all_space r.
Proof. reflexivity. Qed.

Lemma split_nl_all_space : forall s cur,
  forallb all_space (split_nl_from s cur) = all_space cur && all_space s.
Proof.
  induction s as [|c r IH]; intro cur.
  - simpl. now rewrite all_space_rev, !andb_true_r.
  - cbn [split_nl_from]. rewrite all_space_cons.
    destruct (code c =? 10)%nat eqn:E.
    + cbn [forallb]. rewrite IH, all_space_rev, (line_feed_is_space c E).
      reflexivity.
    + rewrite IH, all_space_cons.
      destruct (is_space c); [reflexivity | now rewrite andb_false_r].
Qed.

Lemma trim_empty : forall s, trim s = "" <-> all_space s = true.
Proof.
  intro s. split.
  - intro H. rewrite <- all_space_trim, H. reflexivity.
  - intro H. apply drop_spaces_empty in H. unfold trim. now rewrite H.
Qed.

Lemma no_nonempty_trimmed : forall pieces,
  filter nonempty (map trim pieces) = [] <-> forallb all_space pieces = true.
Proof.
  induction pieces as [|p l IH]; [now split|].
  cbn [map filter forallb]. unfold nonempty at 1.
  destruct (trim p) as [|c r] eqn:E.
  - simpl. apply trim_empty in E. now rewrite E.
  - simpl. split; [discriminate|]. intro H. apply andb_true_iff in H as [H _].
    apply trim_empty in H. rewrite H in E. discriminate E.
Qed.

Lemma lines_of_nonempty : forall stanzaText,
  all_space stanzaText = false -> lines_of stanzaText <> [].
Proof.
  intros stanzaText H Hnil. unfold lines_of in Hnil.
  apply no_nonempty_trimmed in Hnil. unfold split_nl in Hnil.
  rewrite split_nl_all_space in Hnil. simpl in Hnil. congruence.
Qed.

Lemma stanza_text_not_blank : forall lyrics stanzaText,
  In stanzaText (splitIntoStanzas lyrics) -> all_space stanzaText = false.
Proof.
  intros lyrics stanzaText H. unfold splitIntoStanzas in H.
  apply filter_In in H as [Hin Hne].
  apply in_map_iff in Hin as (piece & <- & _).
  destruct (all_space (trim piece)) eqn:E; [|reflexivity].
  rewrite all_space_trim in E. apply trim_empty in E.
  rewrite E in Hne. discriminate Hne.
Qed.

(** X24. The verses of a parsed text: every stanza has at least one verse,
    and the text of a verse is not empty, holds no line feed and neither
    starts nor ends with white space. *)
Theorem parsed_verse_text_shape : forall lyrics stanzas st,
  parseLyrics lyrics = Ok stanzas -> In st stanzas ->
  verses st <> [] /\
  forall v, In v (verses st) ->
    text v <> "" /\ no_line_feed (text v) = true /\
    first_is_space (text v) = false /\ last_is_space (text v) = false.
Proof.
  intros lyrics stanzas st H Hst.
  destruct (parsed_stanza_origin _ _ _ H Hst) as (i & t & _ & Ht & _ & Hdet).
  split.
  - intro Hnil.
    destruct (determineRhymePattern_inv _ _ _ Hdet) as (vs1 & g & Hgrp & _).
    destruct (determineRhymePattern_result _ _ _ _ _ Hdet Hgrp)
      as (_ & Hlen & _).
    rewrite Hnil, length_parse_verses in Hlen.
    apply (lines_of_nonempty t).
    + apply (stanza_text_not_blank lyrics). eapply nth_error_In. exact Ht.
    + destruct (lines_of t); [reflexivity | discriminate Hlen].
  - intros v Hv. destruct (In_nth_error _ _ Hv) as [j Hj].
    destruct (parsed_verse_origin _ _ _ _ _ _ Hdet Hj)
      as (line & Hline & _ & -> & _).
    apply (lines_of_shape t). eapply nth_error_In. exact Hline.
Qed.

Lemma parsed_verse_text_shape_witness :
  let st := first_stanza cat_lines in
  parseLyrics (text_of_lines cat_lines) = Ok (parsed cat_lines) /\
  In st (parsed cat_lines) /\
  verses st <> [].
Proof.
  intro st.
  assert (H : parseLyrics (text_of_lines cat_lines) = Ok (parsed cat_lines))
    by (vm_compute; reflexivity).
  assert (Hst : In st (parsed cat_lines)) by (vm_compute; left; reflexivity).
  split; [exact H|]. split; [exact Hst|].
  exact (proj1 (parsed_verse_text_shape (text_of_lines cat_lines)
                  (parsed cat_lines) st H Hst)).
Defined.

(* ================================================================= *)
(** ** Blank input *)

Lemma match_blank_space : forall s after,
  match_blank s = Some after -> all_space s = all_space after.
Proof.
  induction s as [|c r IH]; intros after H; [discriminate H|].
  simpl in H. rewrite all_space_cons.
  destruct (is_space c); [|discriminate H]. simpl.
  destruct (match_blank r) as [a|] eqn:E.
  - injection H as <-. now apply IH.
  - destruct (code c =? 10)%nat; [|discriminate H]. now injection H as <-.
Qed.

Lemma split_blank_all_space : forall fuel s cur,
  length s < fuel ->
  forallb all_space (split_blank_from fuel s cur) = all_space cur && all_space s.
Proof.
  induction fuel as [|fuel IH]; intros s cur Hlen; [lia|].
  destruct s as [|c r].
  - simpl. now rewrite all_space_rev, !andb_true_r.
  - cbn [split_blank_from]. simpl in Hlen. rewrite all_space_cons.
    destruct (code c =? 10)%nat eqn:E.
    + destruct (match_blank r) as [after|] eqn:Hm.
      * pose proof (match_blank_shorter _ _ Hm) as Hshort.
        cbn [forallb]. rewrite IH by lia.
        rewrite all_space_rev, (line_feed_is_space c E),
          (match_blank_space _ _ Hm). reflexivity.
      * rewrite IH by lia. rewrite all_space_cons.
        rewrite (line_feed_is_space c E). reflexivity.
    + rewrite IH by lia. rewrite all_space_cons.
      destruct (is_space c); [reflexivity | now rewrite andb_false_r].
Qed.

Lemma splitIntoStanzas_nil : forall lyrics,
  splitIntoStanzas lyrics = [] <-> all_space lyrics = true.
Proof.
  intro lyrics. unfold splitIntoStanzas.
  rewrite no_nonempty_trimmed, split_blank_all_space by lia. reflexivity.
Qed.

(** X25. [parseLyrics] returns no stanza exactly when the text is empty or
    holds white space only. *)
Theorem parse_blank_text : forall lyrics,
  parseLyrics lyrics = Ok [] <-> all_space lyrics = true.
Proof.
  intro lyrics. rewrite <- splitIntoStanzas_nil. unfold parseLyrics. split.
  - intro H. destruct (parse_stanzas_nth _ _ _ H) as [Hlen _].
    destruct (splitIntoStanzas lyrics); [reflexivity | discriminate Hlen].
  - intros ->. reflexivity.
Qed.

(* ================================================================= *)
(** ** When [parseLyrics] returns *)

Lemma own_word_string_key : forall w,
  cleans_to_inherited w = false -> exists s, extractRhymingSyllable w = Val s.
Proof.
  intros w H. pose proof (extract_kind w) as K.
  destruct (extractRhymingSyllable w) as [s|n]; [now exists s|].
  destruct K as [K _]. congruence.
Qed.

(** X26. [parseLyrics] returns a result, without throwing, for every text in
    which the last word of no line cleans to the name of a property of
    [Object.prototype]. *)
Theorem parse_returns_without_inherited_names : forall lyrics,
  (forall stanzaText line,
     In stanzaText (splitIntoStanzas lyrics) ->
     In line (lines_of stanzaText) ->
     cleans_to_inherited (getLastWord line) = false) ->
  exists parsed, parseLyrics lyrics = Ok parsed.
Proof.
  intros lyrics H. apply parseLyrics_returns.
  intros stanzaText k v Hst Hv.
  destruct (In_nth_error _ _ Hv) as [j Hj].
  destruct (parse_verses_nth _ _ _ _ Hj) as (line & Hline & ->).
  unfold verse_key. simpl. apply own_word_string_key.
  apply (H stanzaText); [exact Hst | eapply nth_error_In; exact Hline].
Qed.

Lemma parse_returns_without_inherited_names_witness :
  (forall stanzaText line,
     In stanzaText (splitIntoStanzas (text_of_lines cat_lines)) ->
     In line (lines_of stanzaText) ->
     cleans_to_inherited (getLastWord line) = false) /\
  exists parsed, parseLyrics (text_of_lines cat_lines) = Ok parsed.
Proof.
  assert (H : forall stanzaText line,
            In stanzaText (splitIntoStanzas (text_of_lines cat_lines)) ->
            In line (lines_of stanzaText) ->
            cleans_to_inherited (getLastWord line) = false).
  { intros stanzaText line Hst Hline.
    vm_compute in Hst. destruct Hst as [<-|[]].
    vm_compute in Hline.
    repeat (destruct Hline as [<-|Hline]; [vm_compute; reflexivity|]).
    contradiction. }
  split; [exact H|].
  exact (parse_returns_without_inherited_names (text_of_lines cat_lines) H).
Defined.

(* ================================================================= *)
(** ** The text that the command-line tool analyses *)

Lemma processedLyrics_pair : forall rest,
  processedLyrics (String backslash (String "n"%char rest))
  = String line_feed (processedLyrics rest).
Proof. reflexivity. Qed.

Lemma processedLyrics_other : forall c1 c2 rest,
  Ascii.eqb c1 backslash && Ascii.eqb c2 "n"%char = false ->
  processedLyrics (String c1 (String c2 rest))
  = String c1 (processedLyrics (String c2 rest)).
Proof. intros c1 c2 rest H. cbn [processedLyrics]. now rewrite H. Qed.

Lemma processedLyrics_app : forall a b,
  processedLyrics (a ++ backslash_n ++ b)
  = (processedLyrics a ++ String line_feed (processedLyrics b))%string /\
  forall c,
    processedLyrics (String c a ++ backslash_n ++ b)
    = (processedLyrics (String c a) ++ String line_feed (processedLyrics b))%string.
Proof.
  induction a as [|c2 r IH]; intro b.
  - split; [reflexivity|]. intro c.
    change (String c "" ++ backslash_n ++ b)%string
      with (String c (String backslash (String "n"%char b))).
    rewrite processedLyrics_other; [reflexivity|].
    destruct (Ascii.eqb c backslash); reflexivity.
  - destruct (IH b) as [IH0 IH1]. split; [apply IH1|]. intro c1.
    change (String c1 (String c2 r) ++ backslash_n ++ b)%string
      with (String c1 (String c2 (r ++ backslash_n ++ b))).
    destruct (Ascii.eqb c1 backslash && Ascii.eqb c2 "n"%char) eqn:E.
    + cbn [processedLyrics]. rewrite E, IH0. reflexivity.
    + rewrite !processedLyrics_other by exact E.
      change (String c2 (r ++ backslash_n ++ b))
        with (String c2 r ++ backslash_n ++ b)%string.
      rewrite IH1. reflexivity.
Qed.

Lemma processedLyrics_fixed : forall s,
  all_chars (fun c => negb (Ascii.eqb c backslash)) s = true ->
  processedLyrics s = s /\ forall c, Ascii.eqb c backslash = false ->
                                     processedLyrics (String c s) = String c s.
Proof.
  induction s as [|c2 r IH]; intro H.
  - split; reflexivity.
  - rewrite all_chars_cons in H. apply andb_true_iff in H as [H2 Hr].
    apply negb_true_iff in H2. destruct (IH Hr) as [IH0 IH1].
    split; [now apply IH1|]. intros c1 H1.
    rewrite processedLyrics_other by now rewrite H1.
    now rewrite IH1.
Qed.

Lemma processedLyrics_head : forall c r,
  exists r', processedLyrics (String c r) = String line_feed r' \/
             processedLyrics (String c r) = String c r'.
Proof.
  intros c [|c2 r].
  - exists "". now right.
  - cbn [processedLyrics].
    destruct (Ascii.eqb c backslash && Ascii.eqb c2 "n"%char);
      eexists; [left | right]; reflexivity.
Qed.

Lemma prefix_backslash_n : forall s,
  prefix backslash_n s = true ->
  exists r, s = String backslash (String "n"%char r).
Proof.
  intros s H. apply prefix_correct in H.
  destruct s as [|c1 [|c2 r]]; try discriminate H.
  simpl in H. injection H as -> ->. now exists r.
Qed.

Lemma processedLyrics_no_pair : forall s,
  includes (processedLyrics s) backslash_n = false /\
  forall c, includes (processedLyrics (String c s)) backslash_n = false.
Proof.
  induction s as [|c2 r IH].
  - split; [reflexivity|]. intro c. cbn [processedLyrics includes].
    destruct (prefix backslash_n (String c "")) eqn:P; [|reflexivity].
    apply prefix_backslash_n in P as [r P]. discriminate P.
  - destruct IH as [IH0 IH1]. split; [apply IH1|]. intro c1.
    destruct (Ascii.eqb c1 backslash && Ascii.eqb c2 "n"%char) eqn:E.
    + apply andb_true_iff in E as [E1 E2].
      apply Ascii.eqb_eq in E1, E2. subst c1 c2.
      rewrite processedLyrics_pair.
      cbn [includes]. rewrite IH0, orb_false_r.
      match goal with |- ?p = false => destruct p eqn:P; [|reflexivity] end.
      apply prefix_backslash_n in P as [r' P]. discriminate P.
    + rewrite processedLyrics_other by exact E.
      cbn [includes]. rewrite (IH1 c2), orb_false_r.
      destruct (processedLyrics_head c2 r) as [r'' [Hh|Hh]]; rewrite Hh;
        match goal with |- ?p = false => destruct p eqn:P; [|reflexivity] end;
        apply prefix_backslash_n in P as [r' P].
      * discriminate P.
      * injection P as -> -> _. discriminate E.
Qed.

(** X27. The command-line tool replaces every backslash followed by [n] of
    its argument by a line feed before parsing: the replacement goes through
    a text piece by piece, leaves no backslash followed by [n], and keeps a
    text without backslash as it is. *)
Theorem processedLyrics_replaces_backslash_n :
  (forall a b,
     processedLyrics (a ++ backslash_n ++ b)
     = (processedLyrics a ++ String line_feed (processedLyrics b))%string) /\
  (forall s, includes (processedLyrics s) backslash_n = false) /\
  (forall s,
     all_chars (fun c => negb (Ascii.eqb c backslash)) s = true ->
     processedLyrics s = s).
Proof.
  split; [|split].
  - intros a b. apply processedLyrics_app.
  - intro s. apply processedLyrics_no_pair.
  - intros s H. now apply processedLyrics_fixed.
Qed.

Lemma processedLyrics_replaces_backslash_n_witness :
  all_chars (fun c => negb (Ascii.eqb c backslash)) "The cat in the hat" = true /\
  processedLyrics "The cat in the hat" = "The cat in the hat".
Proof.
  assert (H : all_chars (fun c => negb (Ascii.eqb c backslash))
                        "The cat in the hat" = true) by reflexivity.
  split; [exact H|].
  exact (proj2 (proj2 processedLyrics_replaces_backslash_n)
               "The cat in the hat" H).
Defined.

(* ================================================================= *)
(** ** The relation of a group and the relations of its joins *)

Lemma updateGroupType_priority : forall cur t,
  priority (updateGroupType cur t) = Nat.max (priority cur) (priority t) /\
  (updateGroupType cur t = cur \/ updateGroupType cur t = t).
Proof. intros [] []; simpl; auto. Qed.

Lemma fold_update_priority : forall ts cur,
  priority cur <= priority (fold_left updateGroupType ts cur) /\
  (forall t, In t ts -> priority t <= priority (fold_left updateGroupType ts cur)) /\
  (fold_left updateGroupType ts cur = cur \/
   In (fold_left updateGroupType ts cur) ts).
Proof.
  induction ts as [|t ts IH]; intro cur; simpl.
  - split; [lia|]. split; [intros t []|now left].
  - destruct (IH (updateGroupType cur t)) as (H1 & H2 & H3).
    destruct (updateGroupType_priority cur t) as [Hp Hc].
    split; [lia|]. split.
    + intros u [<-|Hu]; [lia|now apply H2].
    + destruct H3 as [H3|H3]; [|now right; right].
      rewrite H3. destruct Hc as [->| ->]; [now left | right; now left].
Qed.

Lemma strongest_is_maximum : forall ts,
  (forall t, In t ts -> priority t <= priority (strongest ts)) /\
  (ts <> [] -> In (strongest ts) ts).
Proof.
  intro ts. unfold strongest.
  destruct (fold_update_priority ts none) as (_ & H2 & H3).
  split; [exact H2|]. intro Hne. destruct H3 as [H3|H3]; [|exact H3].
  rewrite H3. destruct ts as [|t ts]; [contradiction|].
  destruct t; try (now left).
  all: specialize (H2 _ (or_introl eq_refl)); rewrite H3 in H2; simpl in H2; lia.
Qed.

Lemma strongest_snoc : forall ts t,
  strongest (ts ++ [t]) = updateGroupType (strongest ts) t.
Proof. intros ts t. unfold strongest. now rewrite fold_left_app. Qed.

Lemma scan_previous_type : forall previous i verse j t,
  scan_previous previous i verse = Ok (Some (j, t)) ->
  exists p r,
    nth_error previous (j - i) = Some p /\
    analyzeRhyme (getLastWord (text p)) (getLastWord (text verse)) = Ok r /\
    type r = t.
Proof.
  induction previous as [|p rest IH]; intros i verse j t H; simpl in H.
  - discriminate H.
  - destruct (analyzeRhyme (getLastWord (text p)) (getLastWord (text verse)))
      as [ra|] eqn:Hra; simpl in H; [|discriminate H].
    destruct (rhymes ra) eqn:Hr.
    + injection H as <- <-. rewrite Nat.sub_diag. exists p, ra. now repeat split.
    + pose proof (scan_previous_spec _ _ _ _ H) as (Hle & _).
      destruct (IH _ _ _ _ H) as (q & r & Hq & Har & Ht).
      exists q, r. replace (j - i) with (S (j - S i)) by lia. now repeat split.
Qed.

Lemma join_type_old : forall pre v j,
  j < List.length pre -> join_type (pre ++ [v]) j = join_type pre j.
Proof.
  intros pre v j Hj. unfold join_type.
  rewrite nth_error_app1 by exact Hj. rewrite firstn_app_le by lia.
  destruct (nth_error pre j) as [u|]; [|reflexivity].
  destruct (first_match (firstn j pre) u) as [i|] eqn:Hfm; [|reflexivity].
  apply first_match_lt in Hfm. rewrite length_firstn in Hfm.
  rewrite nth_error_app1 by lia. reflexivity.
Qed.

Lemma join_type_new : forall pre v,
  join_type (pre ++ [v]) (List.length pre) =
  match first_match pre v with
  | Some i =>
      match nth_error pre i with
      | Some p =>
          match analyzeRhyme (getLastWord (text p)) (getLastWord (text v)) with
          | Ok r => type r
          | TypeError => none
          end
      | None => none
      end
  | None => none
  end.
Proof.
  intros pre v. unfold join_type.
  rewrite nth_error_snoc_new. rewrite firstn_app_le by lia. rewrite firstn_all.
  destruct (first_match pre v) as [i|] eqn:Hfm; [|reflexivity].
  apply first_match_lt in Hfm. rewrite nth_error_app1 by lia. reflexivity.
Qed.

Lemma members_before : forall st n k g m,
  tables_ok st n -> groups_get k (rhymeGroups st) = Some g ->
  In m (group_verses g) -> m < n.
Proof.
  intros st n k g m Hok Hg Hm.
  destruct (ok_group _ _ Hok _ _ Hg) as (_ & _ & Hin & _).
  specialize (Hin _ Hm). apply nth_error_lt in Hin.
  now rewrite (ok_length _ _ Hok) in Hin.
Qed.

Lemma group_verse_types : forall pre done st verse verse' st',
  grouping_inv pre done st ->
  (forall k g, groups_get k (rhymeGroups st) = Some g ->
     group_type g = strongest (map (join_type pre) (group_verses g))) ->
  group_verse done verse st = Ok (verse', st') ->
  forall k g, groups_get k (rhymeGroups st') = Some g ->
    group_type g = strongest (map (join_type (pre ++ [verse])) (group_verses g)).
Proof.
  intros pre done st verse verse' st' Hinv Hty Hstep k g Hg.
  destruct Hinv as [Hdone Hok Hcur Hfollow].
  pose proof (ok_length _ _ Hok) as Hlen.
  assert (Hdlen : List.length done = List.length pre).
  { rewrite Hdone. now apply labelled_length. }
  assert (Htext : map text done = map text pre).
  { rewrite Hdone. now apply labelled_text. }
  assert (Hold : forall k0 g0, groups_get k0 (rhymeGroups st) = Some g0 ->
            map (join_type (pre ++ [verse])) (group_verses g0)
            = map (join_type pre) (group_verses g0)).
  { intros k0 g0 Hg0. apply map_ext_in. intros m Hm.
    apply join_type_old. exact (members_before _ _ _ _ _ Hok Hg0 Hm). }
  unfold group_verse in Hstep.
  destruct (scan_previous done 0 verse) as [found|] eqn:Hscan;
    simpl in Hstep; [|discriminate Hstep].
  destruct found as [[i t]|].
  - destruct (scan_previous_type _ _ _ _ _ Hscan) as (p & r & Hp & Har & Ht).
    apply scan_previous_spec in Hscan as (_ & Hfm & _ & _).
    rewrite Nat.sub_0_r in Hp, Hfm.
    rewrite (first_match_text done pre verse Htext) in Hfm.
    destruct (nth_error_same_text pre done i p Htext Hp) as (p0 & Hp0 & Hpt).
    destruct (nth_error (rhymeIndices st) i) as [l|] eqn:Hi; [|discriminate Hstep].
    destruct (groups_get l (rhymeGroups st)) as [g0|] eqn:Hg0;
      [|discriminate Hstep].
    injection Hstep as <- <-. cbn [rhymeGroups] in Hg.
    destruct (code_units_eqb l k) eqn:E.
    + apply code_units_eqb_eq in E. subst k.
      rewrite groups_get_set_same in Hg. injection Hg as <-.
      cbn [group_type group_verses].
      rewrite map_app. cbn [map].
      rewrite strongest_snoc, (Hold _ _ Hg0), <- (Hty _ _ Hg0).
      f_equal. rewrite Hdlen, join_type_new, Hfm, Hp0, Hpt, Har.
      now symmetry.
    + apply code_units_eqb_neq in E.
      rewrite groups_get_set_other in Hg by exact E.
      rewrite (Hold _ _ Hg). now apply (Hty k).
  - apply scan_previous_spec in Hscan.
    rewrite (first_match_text done pre verse Htext) in Hscan.
    injection Hstep as <- <-. cbn [rhymeGroups] in Hg.
    destruct (code_units_eqb (fromCharCode (65 + currentRhymeIndex st)) k) eqn:E.
    + apply code_units_eqb_eq in E. subst k.
      rewrite groups_get_set_same in Hg. injection Hg as <-.
      cbn [group_type group_verses map].
      rewrite Hdlen, join_type_new, Hscan. reflexivity.
    + apply code_units_eqb_neq in E.
      rewrite groups_get_set_other in Hg by exact E.
      rewrite (Hold _ _ Hg). now apply (Hty k).
Qed.

Lemma group_loop_types : forall todo pre done st vs1 st1,
  grouping_inv pre done st ->
  (forall k g, groups_get k (rhymeGroups st) = Some g ->
     group_type g = strongest (map (join_type pre) (group_verses g))) ->
  group_loop todo done st = Ok (vs1, st1) ->
  forall k g, groups_get k (rhymeGroups st1) = Some g ->
    group_type g = strongest (map (join_type (pre ++ todo)) (group_verses g)).
Proof.
  induction todo as [|verse rest IH]; intros pre done st vs1 st1 Hinv Hty Hloop;
    simpl in Hloop.
  - injection Hloop as <- <-. now rewrite app_nil_r.
  - destruct (group_verse done verse st) as [[verse' st']|] eqn:Hstep;
      simpl in Hloop; [|discriminate Hloop].
    pose proof (group_verse_inv _ _ _ _ _ _ Hinv Hstep) as Hinv'.
    pose proof (group_verse_types _ _ _ _ _ _ Hinv Hty Hstep) as Hty'.
    pose proof (IH _ _ _ _ _ Hinv' Hty' Hloop) as H.
    now rewrite <- app_assoc in H.
Qed.

(** X28. The relation of a group is the strongest relation found for its
    verses.  When the grouping loop has run, the type of every group is the
    accumulated update over the relations with which its verses joined; it is
    one of those relations and none of them has a higher priority
    (rhyme over assonance over consonance over none).  The verses of a group
    of two or more carry its name as [rhyme_type]. *)
Theorem group_type_is_strongest_join : forall vs vs' pat vs1 st k g,
  determineRhymePattern vs = Ok (vs', pat) ->
  group_verses_of vs = Ok (vs1, st) ->
  groups_get k (rhymeGroups st) = Some g ->
  let ts := map (join_type vs) (group_verses g) in
  group_type g = strongest ts /\
  In (group_type g) ts /\
  (forall t, In t ts -> priority t <= priority (group_type g)) /\
  (2 <= List.length (group_verses g) ->
   forall j v', In j (group_verses g) -> nth_error vs' j = Some v' ->
                rhyme_type v' = relation_name (strongest ts)).
Proof.
  intros vs vs' pat vs1 st k g Hdet Hgrp Hg ts.
  assert (Hty : group_type g = strongest ts).
  { unfold group_verses_of in Hgrp.
    apply (group_loop_types vs [] [] initial_state vs1 st
             initial_grouping_inv) with (k := k); try assumption.
    intros k0 g0 H0. discriminate H0. }
  destruct (determineRhymePattern_result _ _ _ _ _ Hdet Hgrp)
    as (Hinv & _ & _ & _ & _ & Htype).
  destruct (ok_group _ _ (inv_tables _ _ _ Hinv) _ _ Hg) as (Hne & _ & _ & Hnone).
  destruct (strongest_is_maximum ts) as [Hmax Hin].
  split; [exact Hty|]. rewrite Hty. split.
  { apply Hin. unfold ts. destruct (group_verses g); [contradiction|discriminate]. }
  split; [exact Hmax|].
  intros Htwo j v' Hj Hv'. rewrite (Htype _ _ _ _ Hg Hj Hv').
  rewrite <- Hty. now apply finalType_of_shared; [|apply Hnone].
Qed.

Lemma group_type_is_strongest_join_witness :
  let lines := ["topic"; "mac"; "milwaukee"] in
  let vs := verses_of_lines lines in
  let r := determined lines in
  let t := grouped lines in
  let g := {| group_verses := [0; 1; 2]; group_type := assonance |} in
  determineRhymePattern vs = Ok (fst r, snd r) /\
  group_verses_of vs = Ok (fst t, snd t) /\
  groups_get (units_of "A") (rhymeGroups (snd t)) = Some g /\
  map (join_type vs) (group_verses g) = [none; consonance; assonance] /\
  group_type g = strongest (map (join_type vs) (group_verses g)).
Proof.
  intros lines vs r t g.
  assert (Hdet : determineRhymePattern vs = Ok (fst r, snd r))
    by (vm_compute; reflexivity).
  assert (Hgrp : group_verses_of vs = Ok (fst t, snd t))
    by (vm_compute; reflexivity).
  assert (Hg : groups_get (units_of "A") (rhymeGroups (snd t)) = Some g)
    by (vm_compute; reflexivity).
  split; [exact Hdet|]. split; [exact Hgrp|]. split; [exact Hg|].
  split; [vm_compute; reflexivity|].
  exact (proj1 (group_type_is_strongest_join vs (fst r) (snd r) (fst t) (snd t)
                  (units_of "A") g Hdet Hgrp Hg)).
Defined.

(* ================================================================= *)
(** ** The lines of a text and the verses of its stanzas *)

Lemma trim_cons_space : forall c x,
  is_space c = true -> trim (String c x) = trim x.
Proof. intros c x H. unfold trim. simpl. now rewrite H. Qed.

Lemma str_rev_cons : forall c s,
  str_rev (String c s) = (str_rev s ++ String c "")%string.
Proof. intros c s. unfold str_rev. simpl. apply rev_onto_app. Qed.

Lemma str_rev_snoc : forall c s,
  str_rev (s ++ String c "") = String c (str_rev s).
Proof. intros c s. now rewrite str_rev_app. Qed.

Lemma trim_snoc_space : forall c x,
  is_space c = true -> trim (x ++ String c "") = trim x.
Proof.
  intros c x H. unfold trim. rewrite drop_spaces_app.
  destruct (all_space x) eqn:E.
  - apply drop_spaces_empty in E. rewrite E. simpl. now rewrite H.
  - rewrite str_rev_snoc. simpl. now rewrite H.
Qed.

Lemma lines_leading : forall c s cur,
  is_space c = true ->
  filter nonempty (map trim (split_nl_from s (cur ++ String c "")))
  = filter nonempty (map trim (split_nl_from s cur)).
Proof.
  intros c s. induction s as [|d r IH]; intros cur H.
  - simpl. now rewrite str_rev_snoc, trim_cons_space.
  - cbn [split_nl_from]. destruct (code d =? 10)%nat.
    + cbn [map]. now rewrite str_rev_snoc, trim_cons_space.
    + change (String d (cur ++ String c "")) with (String d cur ++ String c "")%string.
      now apply IH.
Qed.

Lemma lines_of_cons_space : forall c s,
  is_space c = true -> lines_of (String c s) = lines_of s.
Proof.
  intros c s H. unfold lines_of, split_nl. cbn [split_nl_from].
  destruct (code c =? 10)%nat.
  - reflexivity.
  - change (String c "") with ("" ++ String c "")%string. now apply lines_leading.
Qed.

Lemma lines_trailing : forall c s cur,
  is_space c = true ->
  filter nonempty (map trim (split_nl_from (s ++ String c "") cur))
  = filter nonempty (map trim (split_nl_from s cur)).
Proof.
  intros c s. induction s as [|d r IH]; intros cur H.
  - cbn [append split_nl_from]. destruct (code c =? 10)%nat.
    + cbn [map filter]. reflexivity.
    + cbn [map]. now rewrite str_rev_cons, trim_snoc_space.
  - cbn [append split_nl_from]. destruct (code d =? 10)%nat.
    + cbn [map filter]. now rewrite IH.
    + now apply IH.
Qed.

Lemma split_nl_app : forall a lf b cur,
  (code lf =? 10)%nat = true ->
  split_nl_from (a ++ String lf b) cur
  = (split_nl_from a cur ++ split_nl_from b "")%list.
Proof.
  induction a as [|d r IH]; intros lf b cur H.
  - simpl. now rewrite H.
  - cbn [append split_nl_from]. destruct (code d =? 10)%nat.
    + now rewrite IH.
    + now apply IH.
Qed.

Lemma lines_of_app : forall a lf b,
  (code lf =? 10)%nat = true ->
  lines_of (a ++ String lf b) = (lines_of a ++ lines_of b)%list.
Proof.
  intros a lf b H. unfold lines_of, split_nl.
  now rewrite split_nl_app, map_app, filter_app.
Qed.

Lemma lines_of_blank : forall s, all_space s = true -> lines_of s = [].
Proof.
  intros s H. unfold lines_of. apply no_nonempty_trimmed.
  unfold split_nl. now rewrite split_nl_all_space.
Qed.

Lemma lines_of_pre : forall pre y,
  all_space pre = true -> lines_of (pre ++ y) = lines_of y.
Proof.
  induction pre as [|c r IH]; intros y H; [reflexivity|].
  rewrite all_space_cons in H. apply andb_true_iff in H as [Hc Hr].
  simpl. rewrite lines_of_cons_space by exact Hc. now apply IH.
Qed.

Lemma lines_of_post : forall post y,
  all_space post = true -> lines_of (y ++ post) = lines_of y.
Proof.
  induction post as [|c r IH]; intros y H.
  - now rewrite append_empty_r.
  - rewrite all_space_cons in H. apply andb_true_iff in H as [Hc Hr].
    change (String c r) with (String c "" ++ r)%string.
    rewrite <- append_assoc_str, IH by exact Hr.
    unfold lines_of, split_nl. now apply lines_trailing.
Qed.

Lemma trim_inside : forall s,
  exists pre post,
    s = (pre ++ trim s ++ post)%string /\
    all_space pre = true /\ all_space post = true.
Proof.
  intro s.
  destruct (drop_spaces_suffix s) as (pre & Hs & Hpre).
  destruct (drop_spaces_suffix (str_rev (drop_spaces s))) as (q & Hq & Hsq).
  exists pre, (str_rev q). split; [|split; [exact Hpre | now rewrite all_space_rev]].
  unfold trim. rewrite <- str_rev_app, <- Hq, str_rev_involutive. exact Hs.
Qed.

Lemma lines_of_trim : forall s, lines_of (trim s) = lines_of s.
Proof.
  intro s. destruct (trim_inside s) as (pre & post & Hs & Hpre & Hpost).
  rewrite Hs at 2. rewrite lines_of_pre by exact Hpre.
  now rewrite lines_of_post.
Qed.

Lemma match_blank_split : forall r after,
  match_blank r = Some after ->
  exists mid lf,
    r = (mid ++ String lf after)%string /\
    all_space mid = true /\ (code lf =? 10)%nat = true.
Proof.
  induction r as [|c r IH]; intros after H; [discriminate H|].
  simpl in H. destruct (is_space c) eqn:Hc; [|discriminate H].
  destruct (match_blank r) as [a|] eqn:E.
  - injection H as <-. destruct (IH a eq_refl) as (mid & lf & -> & Hmid & Hlf).
    exists (String c mid), lf. split; [reflexivity|].
    split; [now rewrite all_space_cons, Hc | exact Hlf].
  - destruct (code c =? 10)%nat eqn:Hlf; [|discriminate H].
    injection H as <-. exists "", c. now repeat split.
Qed.

Lemma split_blank_lines : forall fuel s cur,
  length s < fuel ->
  List.concat (map lines_of (split_blank_from fuel s cur))
  = lines_of (str_rev cur ++ s).
Proof.
  induction fuel as [|fuel IH]; intros s cur Hlen; [lia|].
  destruct s as [|c r].
  - simpl. now rewrite append_empty_r, app_nil_r.
  - simpl in Hlen.
    assert (Hkeep : List.concat (map lines_of
                      (split_blank_from fuel r (String c cur)))
                    = lines_of (str_rev cur ++ String c r)).
    { rewrite IH by lia. rewrite str_rev_cons, append_assoc_str. reflexivity. }
    cbn [split_blank_from]. destruct (code c =? 10)%nat eqn:E; [|exact Hkeep].
    destruct (match_blank r) as [after|] eqn:Hm; [|exact Hkeep].
    pose proof (match_blank_shorter _ _ Hm) as Hshort.
    destruct (match_blank_split _ _ Hm) as (mid & lf & Hr & Hmid & Hlf).
    cbn [map List.concat]. rewrite IH by lia. simpl append.
    rewrite (lines_of_app (str_rev cur) c r E). f_equal.
    rewrite Hr, (lines_of_app mid lf after Hlf), (lines_of_blank mid Hmid).
    reflexivity.
Qed.

Lemma lines_of_stanzas : forall pieces,
  List.concat (map lines_of (filter nonempty (map trim pieces)))
  = List.concat (map lines_of pieces).
Proof.
  induction pieces as [|p l IH]; [reflexivity|].
  cbn [map filter List.concat]. rewrite <- (lines_of_trim p).
  unfold nonempty at 1. destruct (trim p) as [|c r] eqn:E.
  - simpl. exact IH.
  - cbn [length Nat.ltb Nat.leb map List.concat]. now rewrite IH.
Qed.

Lemma splitIntoStanzas_lines : forall lyrics,
  List.concat (map lines_of (splitIntoStanzas lyrics)) = lines_of lyrics.
Proof.
  intro lyrics. unfold splitIntoStanzas.
  rewrite lines_of_stanzas, split_blank_lines by lia. reflexivity.
Qed.

Lemma map_text_mapi : forall lines k,
  map text (mapi_from k (fun line lineIndex =>
                           {| index := lineIndex + 1;
                              text := line;
                              rhyme_index := [];
                              rhyming_syllable :=
                                extractRhymingSyllable (getLastWord line);
                              rhyme_type := "";
                              syllable_count := countSyllables line |}) lines)
  = lines.
Proof.
  induction lines as [|l ls IH]; intro k; [reflexivity|].
  simpl. now rewrite IH.
Qed.

Lemma parse_stanzas_texts : forall stanzas k parsed,
  parse_stanzas stanzas k = Ok parsed ->
  map (fun st => map text (verses st)) parsed = map lines_of stanzas.
Proof.
  induction stanzas as [|stanzaText rest IH]; intros k parsed H; simpl in H.
  - now injection H as <-.
  - destruct (determineRhymePattern (parseStanzaIntoVerses stanzaText k))
      as [[vs' pat]|] eqn:Hdet; simpl in H; [|discriminate H].
    destruct (parse_stanzas rest (S k)) as [parsed'|] eqn:Hrest;
      simpl in H; [|discriminate H].
    injection H as <-. cbn [map verses]. rewrite (IH _ _ Hrest). f_equal.
    rewrite (determine_field _ text (fun _ _ => eq_refl) (fun _ _ => eq_refl)
               _ _ _ Hdet).
    unfold parseStanzaIntoVerses. apply map_text_mapi.
Qed.

(** X29. [parseLyrics] keeps every line and adds none: the texts of the
    verses of a stanza are the trimmed non-empty lines of its stanza text,
    and the texts of all verses, stanza after stanza, are the trimmed
    non-empty lines of the whole text, in their order. *)
Theorem parsed_verses_are_the_lines : forall lyrics stanzas,
  parseLyrics lyrics = Ok stanzas ->
  map (fun st => map text (verses st)) stanzas
  = map lines_of (splitIntoStanzas lyrics) /\
  List.concat (map (fun st => map text (verses st)) stanzas) = lines_of lyrics.
Proof.
  intros lyrics stanzas H. unfold parseLyrics in H.
  pose proof (parse_stanzas_texts _ _ _ H) as Ht.
  split; [exact Ht|]. rewrite Ht. apply splitIntoStanzas_lines.
Qed.

Lemma parsed_verses_are_the_lines_witness :
  parseLyrics (text_of_lines cat_lines) = Ok (parsed cat_lines) /\
  List.concat (map (fun st => map text (verses st)) (parsed cat_lines))
  = lines_of (text_of_lines cat_lines).
Proof.
  assert (H : parseLyrics (text_of_lines cat_lines) = Ok (parsed cat_lines))
    by (vm_compute; reflexivity).
  split; [exact H|].
  exact (proj2 (parsed_verses_are_the_lines (text_of_lines cat_lines)
                  (parsed cat_lines) H)).
Defined.
